(** * ClearURLs add-on: the rule engine of [clearurls.js]

    A shallow embedding of the provider model, the URL cleaning function
    [removeFieldsFormURL], the request dispatcher [clearUrl] and the rule
    update chain [getHash] / [fetchFromURL], followed by the properties
    established about them.

    JavaScript strings are modelled as [string]; a character stands for a
    code unit in the range 0..255.  A thrown JavaScript exception is a value
    of [exn] carried by the [Throw] outcome. *)

From Stdlib Require Import List Bool Arith ZArith QArith Lia Ascii String.
Import ListNotations.
Local Open Scope string_scope.
Local Open Scope list_scope.
Local Open Scope nat_scope.

Notation "a +++ b" := (String.append a b)
  (at level 60, right associativity) : string_scope.

Set Implicit Arguments.

(** ** Outcomes of JavaScript computations *)

Inductive exn : Type :=
| SyntaxError    (* RegExp constructor, JSON.parse *)
| URIError       (* decodeURIComponent *)
| TypeError      (* new URL, property access on undefined *)
| Unsupported.   (* pattern syntax outside the modelled fragment *)

Inductive res (A : Type) : Type :=
| Ok (a : A)
| Throw (e : exn).
Arguments Ok {A} a.
Arguments Throw {A} e.

Definition res_bind {A B} (x : res A) (f : A -> res B) : res B :=
  match x with
  | Ok a => f a
  | Throw e => Throw e
  end.

(** ** String helpers *)

Definition str_eqb (a b : string) : bool := String.eqb a b.

Fixpoint drop (n : nat) (s : string) : string :=
  match n, s with
  | O, _ => s
  | S n', String _ s' => drop n' s'
  | S _, EmptyString => EmptyString
  end.

Fixpoint take (n : nat) (s : string) : string :=
  match n, s with
  | S n', String c s' => String c (take n' s')
  | _, _ => EmptyString
  end.

Fixpoint starts_with (p s : string) : bool :=
  match p, s with
  | EmptyString, _ => true
  | String a p', String b s' => Ascii.eqb a b && starts_with p' s'
  | String _ _, EmptyString => false
  end.

(** [s.indexOf(p)], as the offset of the first occurrence. *)
Fixpoint index_of (p s : string) : option nat :=
  if starts_with p s then Some 0
  else match s with
       | EmptyString => None
       | String _ s' => option_map S (index_of p s')
       end.

(** [s.replace(p, r)] with a string pattern: the first occurrence only. *)
Definition replace_first_str (p r s : string) : string :=
  match index_of p s with
  | Some i => take i s +++ r +++ drop (i + String.length p) s
  | None => s
  end.

Fixpoint join (sep : string) (l : list string) : string :=
  match l with
  | [] => EmptyString
  | [x] => x
  | x :: l' => x +++ sep +++ join sep l'
  end.

(** [Array.prototype.rmEmpty]: [this.filter(v => v)] keeps the non-empty
    strings. *)
Definition rmEmpty (l : list string) : list string :=
  filter (fun v => negb (str_eqb v EmptyString)) l.

(** ** Regular expressions

    The fragment of the JavaScript pattern language built by the rule
    wrappers of [Provider] and used by the engine: literals, [.], character
    classes with ranges, capturing and non-capturing groups, alternation, the
    anchors and the greedy quantifiers [*], [+] and [?]. *)

Inductive cset_item : Type :=
| CChar (c : ascii)
| CRange (lo hi : ascii).

Inductive regex : Type :=
| REmpty
| RChar (c : ascii)
| RAny
| RClass (neg : bool) (items : list cset_item)
| RBol
| REol
| RSeq (a b : regex)
| RAlt (a b : regex)
| RGroup (n : option nat) (r : regex)
| RStar (r : regex)
| RPlus (r : regex)
| ROpt (r : regex).

(** Canonicalize of the specification of RegExp, on code units below 256:
    the upper-case letter, when it is a single code unit of that range. *)
Definition canon (ic : bool) (c : ascii) : nat :=
  let n := nat_of_ascii c in
  if negb ic then n
  else if (97 <=? n) && (n <=? 122) then n - 32
  else if (224 <=? n) && (n <=? 254) && negb (n =? 247) then n - 32
  else n.

(** The code units with the same canonical form as [c]. *)
Definition case_variants (ic : bool) (c : ascii) : list nat :=
  let n := nat_of_ascii c in
  if negb ic then [n]
  else if ((97 <=? n) && (n <=? 122))
          || ((224 <=? n) && (n <=? 254) && negb (n =? 247)) then [n; n - 32]
  else if ((65 <=? n) && (n <=? 90))
          || ((192 <=? n) && (n <=? 222) && negb (n =? 215)) then [n; n + 32]
  else [n].

Definition item_matches (ic : bool) (c : ascii) (it : cset_item) : bool :=
  match it with
  | CChar a => canon ic a =? canon ic c
  | CRange lo hi =>
      existsb (fun n => (nat_of_ascii lo <=? n) && (n <=? nat_of_ascii hi))
              (case_variants ic c)
  end.

Definition class_matches (ic neg : bool) (items : list cset_item) (c : ascii)
  : bool :=
  xorb neg (existsb (item_matches ic c) items).

(** [.] excludes the line terminators. *)
Definition is_line_terminator (c : ascii) : bool :=
  let n := nat_of_ascii c in (n =? 10) || (n =? 13).

(** Captures: the text of each group that took part in the match. *)
Definition captures := list (nat * string).

Fixpoint cap_get (n : nat) (c : captures) : option string :=
  match c with
  | [] => None
  | (m, s) :: c' => if m =? n then Some s else cap_get n c'
  end.

Definition cap_set (n : nat) (s : string) (c : captures) : captures :=
  (n, s) :: filter (fun p => negb (fst p =? n)) c.

Fixpoint groups_of (r : regex) : list nat :=
  match r with
  | RSeq a b | RAlt a b => groups_of a ++ groups_of b
  | RGroup (Some n) r' => n :: groups_of r'
  | RGroup None r' | RStar r' | RPlus r' | ROpt r' => groups_of r'
  | _ => []
  end.

Definition cap_clear (gs : list nat) (c : captures) : captures :=
  filter (fun p => negb (existsb (Nat.eqb (fst p)) gs)) c.

Definition mstate : Type := (nat * captures)%type.
Definition cont : Type := nat -> string -> captures -> option mstate.

(** The loop of a greedy quantifier without upper bound: one more round of
    [body], which has to consume something, before the continuation [k] is
    tried.  [n] is the length of the text left, so it never runs out before
    the rounds do. *)
Fixpoint star_loop (body : nat -> string -> captures -> cont -> option mstate)
         (k : cont) (n : nat) (pos : nat) (s : string) (caps : captures)
  : option mstate :=
  match
    match n with
    | O => None
    | S n' =>
        body pos s caps
             (fun p' s' c' =>
                if pos <? p' then star_loop body k n' p' s' c' else None)
    end
  with
  | Some x => Some x
  | None => k pos s caps
  end.

(** The backtracking matcher of the RegExp specification, in continuation
    style.  [pos] is the index of the first character of [s] in the subject.
    A round of [*] (and of [?]) that consumes nothing is rejected; the
    captures of the groups inside a quantified term are cleared at the start
    of each round. *)
Fixpoint rmatch (ic : bool) (r : regex) (pos : nat) (s : string)
         (caps : captures) (k : cont) {struct r} : option mstate :=
  match r with
  | REmpty => k pos s caps
  | RChar c =>
      match s with
      | String d s' =>
          if canon ic c =? canon ic d then k (S pos) s' caps else None
      | EmptyString => None
      end
  | RAny =>
      match s with
      | String d s' =>
          if is_line_terminator d then None else k (S pos) s' caps
      | EmptyString => None
      end
  | RClass neg items =>
      match s with
      | String d s' =>
          if class_matches ic neg items d then k (S pos) s' caps else None
      | EmptyString => None
      end
  | RBol => if pos =? 0 then k pos s caps else None
  | REol => match s with EmptyString => k pos s caps | _ => None end
  | RSeq a b =>
      rmatch ic a pos s caps (fun p' s' c' => rmatch ic b p' s' c' k)
  | RAlt a b =>
      match rmatch ic a pos s caps k with
      | Some x => Some x
      | None => rmatch ic b pos s caps k
      end
  | RGroup None r' => rmatch ic r' pos s caps k
  | RGroup (Some n) r' =>
      rmatch ic r' pos s caps
             (fun p' s' c' => k p' s' (cap_set n (take (p' - pos) s) c'))
  | RStar r' =>
      star_loop
        (fun p0 s0 c0 k0 =>
           rmatch ic r' p0 s0 (cap_clear (groups_of r') c0) k0)
        k (String.length s) pos s caps
  | RPlus r' =>
      rmatch ic r' pos s (cap_clear (groups_of r') caps)
             (fun p1 s1 c1 =>
                star_loop
                  (fun p0 s0 c0 k0 =>
                     rmatch ic r' p0 s0 (cap_clear (groups_of r') c0) k0)
                  k (String.length s1) p1 s1 c1)
  | ROpt r' =>
      match
        rmatch ic r' pos s (cap_clear (groups_of r') caps)
               (fun p' s' c' => if pos <? p' then k p' s' c' else None)
      with
      | Some x => Some x
      | None => k pos s caps
      end
  end.

(** A successful match: where it starts, where it ends, what it captured. *)
Record rmatch_result : Type := MatchAt {
  m_start : nat;
  m_end : nat;
  m_caps : captures
}.

(** The leftmost match at or after the current position: [s] is the subject
    from index [pos] on. *)
Fixpoint exec_from (ic : bool) (r : regex) (pos : nat) (s : string)
  : option rmatch_result :=
  match rmatch ic r pos s [] (fun e _ c => Some (e, c)) with
  | Some (e, c) => Some (MatchAt pos e c)
  | None =>
      match s with
      | EmptyString => None
      | String _ s' => exec_from ic r (S pos) s'
      end
  end.

(** [re.test(s)] and [s.match(re)] being non-null, for a pattern without the
    [g] flag: is there a match somewhere in [s]. *)
Definition regex_test (ic : bool) (r : regex) (s : string) : bool :=
  match exec_from ic r 0 s with
  | Some _ => true
  | None => false
  end.

(** [s.replace(re, rep)] for a pattern without the [g] flag and a
    replacement text without [$]: the leftmost match is replaced. *)
Definition replace_first (ic : bool) (r : regex) (rep s : string) : string :=
  match exec_from ic r 0 s with
  | Some m => take (m_start m) s +++ rep +++ drop (m_end m) s
  | None => s
  end.

(** [s.replace(re, empty)] with the [g] flag.  [s] is the subject from index
    [pos] on.  After an empty match the search resumes one character later
    and that character is kept.  Every round consumes a character or
    ends the loop, so [fuel] above the length of [s] is never used up. *)
Fixpoint replace_all_from (fuel : nat) (ic : bool) (r : regex) (pos : nat)
         (s : string) : string :=
  match fuel with
  | O => s
  | S fuel' =>
      match exec_from ic r pos s with
      | None => s
      | Some m =>
          let pre := take (m_start m - pos) s in
          if m_end m =? m_start m then
            match drop (m_start m - pos) s with
            | EmptyString => pre
            | String c rest =>
                pre +++ String c
                    (replace_all_from fuel' ic r (S (m_start m)) rest)
            end
          else
            pre +++ replace_all_from fuel' ic r (m_end m)
                (drop (m_end m - pos) s)
      end
  end.

Definition replace_all (ic : bool) (r : regex) (s : string) : string :=
  replace_all_from (S (String.length s)) ic r 0 s.

(** ** The RegExp constructor: from pattern text to [regex]

    One pass over the pattern, with a stack of the groups still open.
    Syntax that JavaScript accepts but that lies outside the fragment above
    (escapes made of a letter or a digit, braces, lazy quantifiers, whatever
    follows [(?] other than a colon) is reported as [Unsupported], never
    parsed as something else.  [Unsupported] is no exception of JavaScript:
    it says that the pattern is not covered, and nothing is claimed about
    what the code does with it.  [SyntaxError] is given only where the
    constructor throws it: a quantifier with nothing to repeat, a closing
    parenthesis without an opening one, a class range out of order, and a
    pattern that ends inside a group, a class or an escape. *)

Inductive pending : Type :=
| PNone
| PChar (c : ascii)
| PDash (c : ascii).

Inductive pmode : Type :=
| MNormal
| MEscape
| MGroupOpen
| MGroupQ
| MClassStart
| MClass (neg : bool) (items : list cset_item) (p : pending)
| MClassEscape (neg : bool) (items : list cset_item) (p : pending).

Inductive qstate : Type :=
| QNone          (* nothing to repeat *)
| QAtom          (* the last term can take a quantifier *)
| QQuantified.   (* the last term already has one *)

(** An open group: its capture index, the alternatives already closed and
    the terms of the current one, both latest first. *)
Record frame : Type := Frame {
  fr_group : option nat;
  fr_alts : list regex;
  fr_seq : list regex
}.

Record pstate : Type := PState {
  ps_mode : pmode;
  ps_stack : list frame;
  ps_cur : frame;
  ps_ngroups : nat;
  ps_quant : qstate
}.

Fixpoint mk_seq (l : list regex) : regex :=
  match l with
  | [] => REmpty
  | [x] => x
  | x :: l' => RSeq x (mk_seq l')
  end.

Fixpoint mk_alt (l : list regex) : regex :=
  match l with
  | [] => REmpty
  | [x] => x
  | x :: l' => RAlt x (mk_alt l')
  end.

Definition close_frame (f : frame) : regex :=
  mk_alt (rev (mk_seq (rev (fr_seq f)) :: fr_alts f)).

Definition init_pstate : pstate :=
  PState MNormal [] (Frame None [] []) 0 QNone.

Definition push_atom (a : regex) (q : qstate) (st : pstate) : pstate :=
  let f := ps_cur st in
  PState MNormal (ps_stack st)
         (Frame (fr_group f) (fr_alts f) (a :: fr_seq f))
         (ps_ngroups st) q.

Definition is_special (c : ascii) : bool :=
  existsb (Ascii.eqb c)
          (list_ascii_of_string "()|*+?[\.^${").

Definition is_alnum (c : ascii) : bool :=
  let n := nat_of_ascii c in
  ((48 <=? n) && (n <=? 57)) || ((65 <=? n) && (n <=? 90))
  || ((97 <=? n) && (n <=? 122)).

Definition quantify (c : ascii) (st : pstate) : res pstate :=
  match ps_quant st, fr_seq (ps_cur st) with
  | QAtom, a :: l =>
      let q := if Ascii.eqb c "*" then RStar a
               else if Ascii.eqb c "+" then RPlus a else ROpt a in
      Ok (push_atom q QQuantified
            (PState MNormal (ps_stack st)
               (Frame (fr_group (ps_cur st)) (fr_alts (ps_cur st)) l)
               (ps_ngroups st) QNone))
  | QQuantified, _ =>
      if Ascii.eqb c "?" then Throw Unsupported else Throw SyntaxError
  | _, _ => Throw SyntaxError
  end.

Definition step_normal (st : pstate) (c : ascii) : res pstate :=
  if negb (is_special c) then Ok (push_atom (RChar c) QAtom st)
  else if Ascii.eqb c "(" then
    Ok (PState MGroupOpen (ps_stack st) (ps_cur st) (ps_ngroups st) QNone)
  else if Ascii.eqb c ")" then
    match ps_stack st with
    | [] => Throw SyntaxError
    | parent :: rest =>
        Ok (PState MNormal rest
              (Frame (fr_group parent) (fr_alts parent)
                 (RGroup (fr_group (ps_cur st)) (close_frame (ps_cur st))
                  :: fr_seq parent))
              (ps_ngroups st) QAtom)
    end
  else if Ascii.eqb c "|" then
    let f := ps_cur st in
    Ok (PState MNormal (ps_stack st)
          (Frame (fr_group f) (mk_seq (rev (fr_seq f)) :: fr_alts f) [])
          (ps_ngroups st) QNone)
  else if Ascii.eqb c "*" || Ascii.eqb c "+" || Ascii.eqb c "?" then
    quantify c st
  else if Ascii.eqb c "[" then
    Ok (PState MClassStart (ps_stack st) (ps_cur st) (ps_ngroups st) QNone)
  else if Ascii.eqb c "\" then
    Ok (PState MEscape (ps_stack st) (ps_cur st) (ps_ngroups st) QNone)
  else if Ascii.eqb c "." then Ok (push_atom RAny QAtom st)
  else if Ascii.eqb c "^" then Ok (push_atom RBol QNone st)
  else if Ascii.eqb c "$" then Ok (push_atom REol QNone st)
  else Throw Unsupported.

Definition open_group (g : option nat) (n : nat) (st : pstate) : pstate :=
  PState MNormal (ps_cur st :: ps_stack st) (Frame g [] []) n QNone.

Definition with_mode (m : pmode) (st : pstate) : pstate :=
  PState m (ps_stack st) (ps_cur st) (ps_ngroups st) (ps_quant st).

Definition flush_pending (items : list cset_item) (p : pending)
  : list cset_item :=
  match p with
  | PNone => items
  | PChar c => CChar c :: items
  | PDash c => CChar "-" :: CChar c :: items
  end.

(** One more member [x] of the class being read. *)
Definition class_char (neg : bool) (items : list cset_item) (p : pending)
           (x : ascii) (st : pstate) : res pstate :=
  match p with
  | PNone => Ok (with_mode (MClass neg items (PChar x)) st)
  | PChar c => Ok (with_mode (MClass neg (CChar c :: items) (PChar x)) st)
  | PDash c =>
      if nat_of_ascii c <=? nat_of_ascii x
      then Ok (with_mode (MClass neg (CRange c x :: items) PNone) st)
      else Throw SyntaxError
  end.

Definition step_class (neg : bool) (items : list cset_item) (p : pending)
           (st : pstate) (c : ascii) : res pstate :=
  if Ascii.eqb c "]" then
    Ok (push_atom (RClass neg (rev (flush_pending items p))) QAtom st)
  else if Ascii.eqb c "\" then Ok (with_mode (MClassEscape neg items p) st)
  else if Ascii.eqb c "-" then
    match p with
    | PChar a => Ok (with_mode (MClass neg items (PDash a)) st)
    | _ => class_char neg items p c st
    end
  else class_char neg items p c st.

Definition step (st : pstate) (c : ascii) : res pstate :=
  match ps_mode st with
  | MNormal => step_normal st c
  | MEscape =>
      if is_alnum c then Throw Unsupported
      else Ok (push_atom (RChar c) QAtom st)
  | MGroupOpen =>
      if Ascii.eqb c "?" then Ok (with_mode MGroupQ st)
      else step_normal
             (open_group (Some (S (ps_ngroups st))) (S (ps_ngroups st)) st) c
  | MGroupQ =>
      if Ascii.eqb c ":" then Ok (open_group None (ps_ngroups st) st)
      else Throw Unsupported
  | MClassStart =>
      if Ascii.eqb c "^" then Ok (with_mode (MClass true [] PNone) st)
      else step_class false [] PNone st c
  | MClass neg items p => step_class neg items p st c
  | MClassEscape neg items p =>
      if is_alnum c then Throw Unsupported
      else class_char neg items p c st
  end.

Fixpoint parse_from (st : pstate) (s : string) : res pstate :=
  match s with
  | EmptyString => Ok st
  | String c s' => res_bind (step st c) (fun st' => parse_from st' s')
  end.

Definition finish (st : pstate) : res regex :=
  match ps_mode st, ps_stack st with
  | MNormal, [] => Ok (close_frame (ps_cur st))
  | _, _ => Throw SyntaxError
  end.

(** [new RegExp(pattern, flags)]: the syntax tree, or the exception. *)
Definition RegExp (pattern : string) : res regex :=
  res_bind (parse_from init_pstate pattern) finish.

(** ** Objects used as rule collections

    [enabled_rules], [disabled_rules] and their siblings are plain objects
    whose values are all [true]: what matters is which keys are present and
    the order in which [Object.keys] and [for ... in] list them.  An object is
    kept as the list of its own keys in the order of their creation.  The
    listing puts the keys that are array indices first, in ascending numeric
    order, and the other keys after them in the order of creation.
    [Object.prototype] is taken to have no enumerable property. *)

Definition jsobj : Type := list string.

Definition is_digit (c : ascii) : bool :=
  let n := nat_of_ascii c in (48 <=? n) && (n <=? 57).

(** The number written by a string of digits, after the digits [acc]. *)
Fixpoint digits_value (s : string) (acc : N) : option N :=
  match s with
  | EmptyString => Some acc
  | String c s' =>
      if is_digit c
      then digits_value s' (10 * acc + N.of_nat (nat_of_ascii c - 48))%N
      else None
  end.

(** An array index: the decimal numeral, without leading zero, of a number
    below 2^32 - 1. *)
Definition array_index (k : string) : option N :=
  match k with
  | EmptyString => None
  | String c rest =>
      if Ascii.eqb c "0" && negb (str_eqb rest EmptyString) then None
      else match digits_value k 0 with
           | Some n => if (n <? 4294967295)%N then Some n else None
           | None => None
           end
  end.

Definition is_index (k : string) : bool :=
  match array_index k with
  | Some _ => true
  | None => false
  end.

Definition index_value (k : string) : N :=
  match array_index k with
  | Some n => n
  | None => 0%N
  end.

Fixpoint insert_index (k : string) (l : list string) : list string :=
  match l with
  | [] => [k]
  | x :: l' =>
      if (index_value k <=? index_value x)%N then k :: l
      else x :: insert_index k l'
  end.

(** Index keys in ascending numeric order. *)
Definition sort_index (l : list string) : list string :=
  fold_right insert_index [] l.

Definition proto : string := "__proto__".

(** Own property [k]. *)
Definition obj_has (k : string) (o : jsobj) : bool :=
  existsb (str_eqb k) o.

(** [o[k] = true].  The name [__proto__] reaches the setter inherited from
    [Object.prototype], which ignores a value that is not an object: no
    property is created. *)
Definition obj_set (k : string) (o : jsobj) : jsobj :=
  if str_eqb k proto then o
  else if obj_has k o then o else o ++ [k].

(** [delete o[k]] *)
Definition obj_delete (k : string) (o : jsobj) : jsobj :=
  filter (fun x => negb (str_eqb k x)) o.

(** The order in which the own keys [l] of an object are listed. *)
Definition own_keys (l : list string) : list string :=
  sort_index (filter is_index l) ++ filter (fun k => negb (is_index k)) l.

(** [Object.keys(o)], which is also the order of [for (k in o)].  A
    collection is made by [{}] and written by assignment only, so that
    [__proto__] is never one of its own keys. *)
Definition obj_keys (o : jsobj) : list string :=
  own_keys (filter (fun k => negb (str_eqb k proto)) o).

(** [Object.assign(target, source)]: the target itself receives the keys of
    the source, in the order in which the source lists them; the result is
    the updated target. *)
Definition obj_assign (target source : jsobj) : jsobj :=
  fold_left (fun t k => obj_set k t) (obj_keys source) target.

(** ** Provider *)

(** What [getRedirection] can return: [null], or element 1 of the match
    array, which is [undefined] when group 1 did not take part. *)
Inductive jsval : Type :=
| JNull
| JUndefined
| JStr (s : string).

Record Provider : Type := MkProvider {
  name : string;
  forceRedirection : bool;
  urlPattern : option regex;
  enabled_rules : jsobj;
  disabled_rules : jsobj;
  enabled_exceptions : jsobj;
  disabled_exceptions : jsobj;
  canceling : bool;
  enabled_redirections : jsobj;
  disabled_redirections : jsobj;
  active : bool;
  enabled_rawRules : jsobj;
  disabled_rawRules : jsobj;
  enabled_referralMarketing : jsobj;
  disabled_referralMarketing : jsobj
}.

(** The constructor; a complete provider starts with the rule [.*]. *)
Definition new_Provider (_name : string)
           (_completeProvider _forceRedirection _isActive : bool) : Provider :=
  {| name := _name;
     forceRedirection := _forceRedirection;
     urlPattern := None;
     enabled_rules := if _completeProvider then obj_set ".*" [] else [];
     disabled_rules := [];
     enabled_exceptions := [];
     disabled_exceptions := [];
     canceling := _completeProvider;
     enabled_redirections := [];
     disabled_redirections := [];
     active := _isActive;
     enabled_rawRules := [];
     disabled_rawRules := [];
     enabled_referralMarketing := [];
     disabled_referralMarketing := [] |}.

Definition shouldForceRedirect (p : Provider) : bool := forceRedirection p.
Definition getName (p : Provider) : string := name p.
Definition isCaneling (p : Provider) : bool := canceling p.

Definition set_urlPattern (r : option regex) (p : Provider) : Provider :=
  MkProvider (name p) (forceRedirection p) r (enabled_rules p)
    (disabled_rules p) (enabled_exceptions p) (disabled_exceptions p)
    (canceling p) (enabled_redirections p) (disabled_redirections p)
    (active p) (enabled_rawRules p) (disabled_rawRules p)
    (enabled_referralMarketing p) (disabled_referralMarketing p).

Definition set_rules (en dis : jsobj) (p : Provider) : Provider :=
  MkProvider (name p) (forceRedirection p) (urlPattern p) en dis
    (enabled_exceptions p) (disabled_exceptions p)
    (canceling p) (enabled_redirections p) (disabled_redirections p)
    (active p) (enabled_rawRules p) (disabled_rawRules p)
    (enabled_referralMarketing p) (disabled_referralMarketing p).

Definition set_exceptions (en dis : jsobj) (p : Provider) : Provider :=
  MkProvider (name p) (forceRedirection p) (urlPattern p) (enabled_rules p)
    (disabled_rules p) en dis
    (canceling p) (enabled_redirections p) (disabled_redirections p)
    (active p) (enabled_rawRules p) (disabled_rawRules p)
    (enabled_referralMarketing p) (disabled_referralMarketing p).

Definition set_redirections (en dis : jsobj) (p : Provider) : Provider :=
  MkProvider (name p) (forceRedirection p) (urlPattern p) (enabled_rules p)
    (disabled_rules p) (enabled_exceptions p) (disabled_exceptions p)
    (canceling p) en dis
    (active p) (enabled_rawRules p) (disabled_rawRules p)
    (enabled_referralMarketing p) (disabled_referralMarketing p).

Definition set_rawRules (en dis : jsobj) (p : Provider) : Provider :=
  MkProvider (name p) (forceRedirection p) (urlPattern p) (enabled_rules p)
    (disabled_rules p) (enabled_exceptions p) (disabled_exceptions p)
    (canceling p) (enabled_redirections p) (disabled_redirections p)
    (active p) en dis
    (enabled_referralMarketing p) (disabled_referralMarketing p).

Definition set_referralMarketing (en dis : jsobj) (p : Provider) : Provider :=
  MkProvider (name p) (forceRedirection p) (urlPattern p) (enabled_rules p)
    (disabled_rules p) (enabled_exceptions p) (disabled_exceptions p)
    (canceling p) (enabled_redirections p) (disabled_redirections p)
    (active p) (enabled_rawRules p) (disabled_rawRules p) en dis.

(** [setURLPattern]: compiled once, with the flag [i]. *)
Definition setURLPattern (urlPatterns : string) (p : Provider)
  : res Provider :=
  res_bind (RegExp urlPatterns) (fun r => Ok (set_urlPattern (Some r) p)).

(** [applyRule]: the rule goes to one collection and leaves the other.  The
    test [o[rule] !== undefined] also succeeds for a name that [o] only
    inherits, such as [__proto__]; [delete] then finds no own property and
    removes nothing, which is what the test on the own keys gives. *)
Definition applyRule (enabledRuleArray disabledRulesArray : jsobj)
           (rule : string) (isActive : bool) : jsobj * jsobj :=
  if isActive then
    (obj_set rule enabledRuleArray,
     if obj_has rule disabledRulesArray
     then obj_delete rule disabledRulesArray else disabledRulesArray)
  else
    (if obj_has rule enabledRuleArray
     then obj_delete rule enabledRuleArray else enabledRuleArray,
     obj_set rule disabledRulesArray).

Definition rule_prefix : string := "([\/\?#]|(&|&amp;))+(".
Definition rule_suffix : string := "=[^&]*)".
Definition referral_suffix : string := "=[^\/\?&]*)".

Definition wrap_rule (rule : string) : string :=
  rule_prefix +++ rule +++ rule_suffix.

Definition wrap_referral (rule : string) : string :=
  rule_prefix +++ rule +++ referral_suffix.

Definition addRule (rule : string) (isActive : bool) (p : Provider)
  : Provider :=
  let '(en, dis) :=
    applyRule (enabled_rules p) (disabled_rules p) (wrap_rule rule) isActive
  in set_rules en dis p.

Definition addRawRule (rule : string) (isActive : bool) (p : Provider)
  : Provider :=
  let '(en, dis) :=
    applyRule (enabled_rawRules p) (disabled_rawRules p) rule isActive
  in set_rawRules en dis p.

Definition addReferralMarketing (rule : string) (isActive : bool)
           (p : Provider) : Provider :=
  let '(en, dis) :=
    applyRule (enabled_referralMarketing p) (disabled_referralMarketing p)
              (wrap_referral rule) isActive
  in set_referralMarketing en dis p.

Definition addException (exception : string) (isActive : bool)
           (p : Provider) : Provider :=
  let '(en, dis) :=
    applyRule (enabled_exceptions p) (disabled_exceptions p) exception
              isActive
  in set_exceptions en dis p.

Definition addRedirection (redirection : string) (isActive : bool)
           (p : Provider) : Provider :=
  let '(en, dis) :=
    applyRule (enabled_redirections p) (disabled_redirections p) redirection
              isActive
  in set_redirections en dis p.

(** [getRules]: with referral marketing allowed ([storage.referralMarketing]
    false) [Object.assign] writes the referral rules into [enabled_rules]
    itself, so the provider changes. *)
Definition getRules (referralMarketing : bool) (p : Provider)
  : list string * Provider :=
  if negb referralMarketing then
    let merged := obj_assign (enabled_rules p) (enabled_referralMarketing p) in
    (obj_keys merged, set_rules merged (disabled_rules p) p)
  else (obj_keys (enabled_rules p), p).

Definition getRawRules (p : Provider) : list string :=
  obj_keys (enabled_rawRules p).

Definition siteBlockedAlert : string := "javascript:void(0)".

(** The loop of [matchException] over the enabled exceptions: it stops at the
    first match and compiles each pattern it reaches. *)
Fixpoint matchException_loop (keys : list string) (url : string) : res bool :=
  match keys with
  | [] => Ok false
  | exception :: rest =>
      res_bind (RegExp exception) (fun exception_regex =>
        if regex_test true exception_regex url then Ok true
        else matchException_loop rest url)
  end.

Definition matchException (p : Provider) (url : string) : res bool :=
  if str_eqb url siteBlockedAlert then Ok true
  else matchException_loop (obj_keys (enabled_exceptions p)) url.

(** [urlPattern.test(url) && !this.matchException(url)]; calling [test] on
    a pattern never set is a TypeError. *)
Definition matchURL (p : Provider) (url : string) : res bool :=
  match urlPattern p with
  | None => Throw TypeError
  | Some r =>
      if regex_test true r url
      then res_bind (matchException p url) (fun b => Ok (negb b))
      else Ok false
  end.

(** Element 1 of the array returned by [exec]. *)
Definition group1 (m : rmatch_result) : jsval :=
  match cap_get 1 (m_caps m) with
  | Some s => JStr s
  | None => JUndefined
  end.

(** [getRedirection]: the first enabled, non-empty redirection pattern that
    matches gives its first group. *)
Fixpoint getRedirection_loop (keys : list string) (url : string)
  : res jsval :=
  match keys with
  | [] => Ok JNull
  | redirection :: rest =>
      res_bind (RegExp redirection) (fun r =>
        match exec_from true r 0 url with
        | Some m =>
            if negb (str_eqb redirection EmptyString) then Ok (group1 m)
            else getRedirection_loop rest url
        | None => getRedirection_loop rest url
        end)
  end.

Definition getRedirection (p : Provider) (url : string) : res jsval :=
  getRedirection_loop (obj_keys (enabled_redirections p)) url.

(** ** The rule-set document and the shared state *)

(** One provider entry of the rule-set document; every member is optional. *)
Record ProviderSpec : Type := MkSpec {
  sp_completeProvider : option bool;
  sp_forceRedirection : option bool;
  sp_urlPattern : option string;
  sp_rules : option (list string);
  sp_rawRules : option (list string);
  sp_referralMarketing : option (list string);
  sp_exceptions : option (list string);
  sp_redirections : option (list string)
}.

(** The member [providers] of the parsed document: its names, each once and
    in the order of their creation, with their entries. *)
Definition RuleSet : Type := list (string * ProviderSpec).

(** [storage.ClearURLsData] holds the text of the document or the parsed
    object. *)
Inductive datav : Type :=
| DataText (s : string)
| DataObj (d : RuleSet).

(** [dataHash] and [localDataHash]: not yet set, [false], or a text. *)
Inductive hashval : Type :=
| HUndefined
| HFalse
| HStr (s : string).

(** The statuses of the rule update. *)
Inductive UpdateStatus : Type :=
| unavailable
| up_to_date
| updated
| hash_mismatch.

(** A number of JavaScript, as far as it is compared: [NaN], an infinity,
    or a finite value, every one of which is a rational. *)
Inductive jsnum : Type :=
| NaN
| Infinity (negative : bool)
| Num (q : Q).

(** [x !== 0] is false for the zeros only. *)
Definition num_is_zero (x : jsnum) : bool :=
  match x with
  | Num q => Qeq_bool q 0
  | _ => false
  end.

(** [x > 0] *)
Definition num_positive (x : jsnum) : bool :=
  match x with
  | Num q => negb (Qle_bool q 0)
  | Infinity negative => negb negative
  | NaN => false
  end.

Definition isNaN (x : jsnum) : bool :=
  match x with
  | NaN => true
  | _ => false
  end.

(** [n >= x] for a length [n]. *)
Definition length_ge (n : nat) (x : jsnum) : bool :=
  match x with
  | Num q => Qle_bool q (inject_Z (Z.of_nat n))
  | Infinity negative => negative
  | NaN => false
  end.

Record LogEntry : Type := MkLog {
  log_before : string;
  log_after : string;
  log_rule : string;
  log_timestamp : nat
}.

Record Storage : Type := MkStorage {
  globalStatus : bool;
  localHostsSkipping : bool;
  loggingStatus : bool;
  logLimit : jsnum;
  log : list LogEntry;
  referralMarketing : bool;
  domainBlocking : bool;
  pingBlocking : bool;
  pingRequestTypes : list string;
  badgedStatus : bool;
  ClearURLsData : datav;
  st_dataHash : hashval;
  hashStatus : option UpdateStatus;
  hashURL : string;
  ruleURL : string
}.

(** Calls that leave the engine, in the order they are made.  [BadgeJob] is
    the callback that [increaseBadged] hands to [checkOSAndroid().then]: it
    runs after the current request has been answered. *)
Inductive HostCall : Type :=
| DeferSaveOnDisk (key : string)
| SaveOnDisk (keys : list string)
| IncreaseURLCounter
| IncreaseGlobalURLCounter (n : nat)
| TabsUpdate (tabId : nat) (url : string)
| BadgeJob (quiet : bool)
| Fetch (url : string).

Record World : Type := MkWorld {
  storage : Storage;
  providers : list Provider;
  prvKeys : list string;
  badges : list (nat * nat);
  tabid : nat;
  dataHash : hashval;
  localDataHash : hashval;
  now : nat;
  calls : list HostCall
}.

Definition set_storage (s : Storage) (w : World) : World :=
  MkWorld s (providers w) (prvKeys w) (badges w) (tabid w) (dataHash w)
          (localDataHash w) (now w) (calls w).

Definition set_providers (ps : list Provider) (w : World) : World :=
  MkWorld (storage w) ps (prvKeys w) (badges w) (tabid w) (dataHash w)
          (localDataHash w) (now w) (calls w).

Definition set_prvKeys (ks : list string) (w : World) : World :=
  MkWorld (storage w) (providers w) ks (badges w) (tabid w) (dataHash w)
          (localDataHash w) (now w) (calls w).

Definition set_badges (b : list (nat * nat)) (w : World) : World :=
  MkWorld (storage w) (providers w) (prvKeys w) b (tabid w) (dataHash w)
          (localDataHash w) (now w) (calls w).

Definition set_dataHash (h : hashval) (w : World) : World :=
  MkWorld (storage w) (providers w) (prvKeys w) (badges w) (tabid w) h
          (localDataHash w) (now w) (calls w).

Definition call (c : HostCall) (w : World) : World :=
  MkWorld (storage w) (providers w) (prvKeys w) (badges w) (tabid w)
          (dataHash w) (localDataHash w) (now w) (calls w ++ [c]).

Definition set_log (l : list LogEntry) (s : Storage) : Storage :=
  MkStorage (globalStatus s) (localHostsSkipping s) (loggingStatus s)
    (logLimit s) l (referralMarketing s) (domainBlocking s) (pingBlocking s)
    (pingRequestTypes s) (badgedStatus s) (ClearURLsData s) (st_dataHash s)
    (hashStatus s) (hashURL s) (ruleURL s).

Definition set_ClearURLsData (d : datav) (s : Storage) : Storage :=
  MkStorage (globalStatus s) (localHostsSkipping s) (loggingStatus s)
    (logLimit s) (log s) (referralMarketing s) (domainBlocking s)
    (pingBlocking s) (pingRequestTypes s) (badgedStatus s) d (st_dataHash s)
    (hashStatus s) (hashURL s) (ruleURL s).

Definition set_st_dataHash (h : hashval) (s : Storage) : Storage :=
  MkStorage (globalStatus s) (localHostsSkipping s) (loggingStatus s)
    (logLimit s) (log s) (referralMarketing s) (domainBlocking s)
    (pingBlocking s) (pingRequestTypes s) (badgedStatus s) (ClearURLsData s)
    h (hashStatus s) (hashURL s) (ruleURL s).

Definition set_hashStatus (h : option UpdateStatus) (s : Storage) : Storage :=
  MkStorage (globalStatus s) (localHostsSkipping s) (loggingStatus s)
    (logLimit s) (log s) (referralMarketing s) (domainBlocking s)
    (pingBlocking s) (pingRequestTypes s) (badgedStatus s) (ClearURLsData s)
    (st_dataHash s) h (hashURL s) (ruleURL s).

(** ** Stateful computations that may throw *)

Definition M (A : Type) : Type := World -> res A * World.

Definition ret {A} (a : A) : M A := fun w => (Ok a, w).

(** A throw ends the computation; what was written before it stays. *)
Definition bind {A B} (m : M A) (f : A -> M B) : M B :=
  fun w => match m w with
           | (Ok a, w') => f a w'
           | (Throw e, w') => (Throw e, w')
           end.

Definition lift {A} (r : res A) : M A := fun w => (r, w).

Definition modify (f : World -> World) : M unit := fun w => (Ok tt, f w).
Definition gets {A} (f : World -> A) : M A := fun w => (Ok (f w), w).

Notation "x <- m ;; k" := (bind m (fun x => k))
  (at level 61, m at next level, right associativity).
Notation "m ;;; k" := (bind m (fun _ => k))
  (at level 61, right associativity).
Notation "' pat <- m ;; k" := (bind m (fun x => let 'pat := x in k))
  (at level 61, pat pattern, m at next level, right associativity).

(** ** Logging and the badge *)

(** [while (log.length >= limit) log.shift()] *)
Fixpoint shift_while (limit : jsnum) (l : list LogEntry) : list LogEntry :=
  if length_ge (List.length l) limit then
    match l with
    | [] => []
    | _ :: l' => shift_while limit l'
    end
  else l.

(** [pushToLog]: [storage.logLimit] is taken to hold a number.  A limit that
    is negative or not a number bounds nothing; the limit 0 switches the log
    off. *)
Definition pushToLog (beforeProcessing afterProcessing rule : string)
  : M unit :=
  modify (fun w =>
    let s := storage w in
    let limit := logLimit s in
    if loggingStatus s && negb (num_is_zero limit) then
      let kept := if num_positive limit && negb (isNaN limit)
                  then shift_while limit (log s) else log s in
      call (DeferSaveOnDisk "log")
        (set_storage
           (set_log (kept ++ [MkLog beforeProcessing afterProcessing rule
                                    (now w)]) s) w)
    else w).

Fixpoint badge_get (t : nat) (b : list (nat * nat)) : option nat :=
  match b with
  | [] => None
  | (k, v) :: b' => if k =? t then Some v else badge_get t b'
  end.

(** [increaseBadged]: the counter of the tab is created at 0, the URL counter
    is increased unless quiet, and the badge text is left to the callback. *)
Definition increaseBadged (quiet : bool) : M unit :=
  modify (fun w =>
    let w1 := match badge_get (tabid w) (badges w) with
              | None => set_badges ((tabid w, 0) :: badges w) w
              | Some _ => w
              end in
    let w2 := if negb quiet then call IncreaseURLCounter w1 else w1 in
    call (BadgeJob quiet) w2).

(** ** Helpers defined outside [clearurls.js]

    The engine calls helpers of the add-on that live in other scripts.  They
    are taken as a parameter of the model. *)

Record Tools : Type := MkTools {
  checkLocalURL : string -> res bool;
  existsFragments : string -> bool;
  existsFields : string -> bool;
  extractFileds : string -> list string;
  extractFragments : string -> list string;
  decodeURL : jsval -> res string;
  countFields : string -> nat;
  translate : string -> string;
  blockingPageURL : string -> string;
  trim : hashval -> string;
  sha256 : string -> string;
  JSON_parse : string -> res RuleSet
}.

(** ** The rule engine: [removeFieldsFormURL] *)

Inductive CleaningResult : Type :=
| Cleaned (changes : bool) (url : string) (cancel : bool)
| Redirect (url : string).

(** The constant patterns of the function, as compiled. *)
Definition re_fragment : regex := RSeq (RChar "#") (RStar RAny).
Definition re_query : regex := RSeq (RChar "?") (RStar RAny).
Definition re_qamp : regex := RSeq (RChar "?") (RChar "&").
Definition re_hamp : regex := RSeq (RChar "#") (RChar "&").

Definition when (b : bool) (m : M unit) : M unit :=
  if b then m else ret tt.

(** The raw-rule pass: every raw rule is compiled with [gi] and its matches
    are cut out of the whole URL. *)
Fixpoint rawRules_pass (quiet : bool) (rawRules : list string)
         (url : string) (changes : bool) : M (string * bool) :=
  match rawRules with
  | [] => ret (url, changes)
  | rawRule :: rest =>
      let beforeReplace := url in
      r <- lift (RegExp rawRule) ;;
      let url := replace_all true r url in
      if negb (str_eqb beforeReplace url) then
        logging <- gets (fun w => loggingStatus (storage w)) ;;
        when (logging && negb quiet) (pushToLog beforeReplace url rawRule) ;;;
        increaseBadged quiet ;;;
        rawRules_pass quiet rest url true
      else rawRules_pass quiet rest url changes
  end.

(** Lines 78 to 83: the base of the URL. *)
Definition extract_domain (T : Tools) (url : string) : string :=
  let domain := EmptyString in
  let domain := if existsFragments T url
                then replace_first true re_fragment EmptyString url
                else domain in
  let domain := if existsFields T url
                then replace_first true re_query EmptyString url else domain in
  domain.

(** The URL shown in the log for one field rule. *)
Definition log_url (domain fields fragments : string) : string :=
  let u := domain in
  let u := if negb (str_eqb fields EmptyString)
           then u +++ "?" +++ replace_first_str "?" EmptyString
                   (replace_first_str "?&" "?" fields)
           else u in
  if negb (str_eqb fragments EmptyString)
  then u +++ "#" +++ replace_first_str "#" EmptyString
         (replace_first_str "#&" "#" fragments)
  else u.

(** The field-rule pass over the query text and the fragment text. *)
Fixpoint rules_pass (quiet : bool) (domain : string) (rules : list string)
         (fields fragments : string) (changes : bool)
  : M (string * string * bool) :=
  match rules with
  | [] => ret (fields, fragments, changes)
  | rule :: rest =>
      let beforeReplace := fields in
      let beforeReplaceFragments := fragments in
      r <- lift (RegExp rule) ;;
      let fields := replace_all true r fields in
      r2 <- lift (RegExp rule) ;;
      let fragments := replace_all true r2 fragments in
      if negb (str_eqb beforeReplace fields)
         || negb (str_eqb beforeReplaceFragments fragments) then
        logging <- gets (fun w => loggingStatus (storage w)) ;;
        when (logging && negb quiet)
             (pushToLog (log_url domain beforeReplace beforeReplaceFragments)
                        (log_url domain fields fragments) rule) ;;;
        increaseBadged quiet ;;;
        rules_pass quiet domain rest fields fragments true
      else rules_pass quiet domain rest fields fragments changes
  end.

(** Lines 139 to 144: the URL put together again. *)
Definition reassemble (domain fields fragments : string) : string :=
  let finalURL := domain in
  let finalURL := if negb (str_eqb fields EmptyString)
                  then finalURL +++ "?"
                       +++ replace_first_str "?" EmptyString fields
                  else finalURL in
  let finalURL := if negb (str_eqb fragments EmptyString)
                  then finalURL +++ "#"
                       +++ replace_first_str "#" EmptyString fragments
                  else finalURL in
  replace_first false re_hamp "#" (replace_first false re_qamp "?" finalURL).

(** Lines 102 to 108: the query and the fragment as the field rules see
    them, [EmptyString] when the URL has none. *)
Definition query_text (T : Tools) (url : string) : string :=
  if existsFields T url
  then "?" +++ join "&" (rmEmpty (extractFileds T url))
  else EmptyString.

Definition fragment_text (T : Tools) (url : string) : string :=
  if existsFragments T url
  then "#" +++ join "&" (rmEmpty (extractFragments T url))
  else EmptyString.

(** The provider is an object: the call has an outcome, a state in which it
    leaves the object, and a world.  Only [getRules], the first statement that
    uses the object, assigns to it; what it assigned is there also when a
    later statement throws. *)
Definition removeFieldsFormURL (T : Tools) (provider : Provider)
           (pureUrl : string) (quiet : bool)
  : World -> res CleaningResult * Provider * World :=
  fun w =>
  let url := pureUrl in
  let called := getRules (referralMarketing (storage w)) provider in
  let rules := fst called in
  let provider := snd called in
  let rawRules := getRawRules provider in
  let rest : M CleaningResult :=
    skipping <- gets (fun w => localHostsSkipping (storage w)) ;;
    isLocal <- (if skipping then lift (checkLocalURL T pureUrl)
                else ret false) ;;
    if isLocal then ret (Cleaned false url false)
    else
      '(url, changes) <- rawRules_pass quiet rawRules url false ;;
      let domain := extract_domain T url in
      re <- lift (getRedirection provider url) ;;
      match re with
      | JUndefined | JStr _ =>
          url <- lift (decodeURL T re) ;;
          when (negb quiet)
               (pushToLog pureUrl url (translate T "log_redirect")) ;;;
          ret (Redirect url)
      | JNull =>
          let fields := query_text T url in
          let fragments := fragment_text T url in
          '(url, changes) <-
            (if negb (str_eqb fields EmptyString)
                || negb (str_eqb fragments EmptyString) then
               '(fields, fragments, changes) <-
                 rules_pass quiet domain rules fields fragments changes ;;
               ret (reassemble domain fields fragments, changes)
             else ret (url, changes)) ;;
          blocking <- gets (fun w => domainBlocking (storage w)) ;;
          if isCaneling provider && blocking then
            when (negb quiet)
                 (pushToLog pureUrl pureUrl
                            (translate T "log_domain_blocked")) ;;;
            increaseBadged quiet ;;;
            ret (Cleaned changes url true)
          else ret (Cleaned changes url false)
      end in
  (fst (rest w), provider, snd (rest w)).

(** ** The request dispatcher: [clearUrl] *)

Record Request : Type := MkRequest {
  req_url : string;
  req_type : string;
  req_tabId : nat
}.

(** What the listener answers: [{}], [{redirectUrl}] or [{cancel: true}]. *)
Inductive Action : Type :=
| PassThrough
| RedirectUrl (url : string)
| Cancel.

Fixpoint set_nth (i : nat) (p : Provider) (l : list Provider)
  : list Provider :=
  match i, l with
  | O, _ :: l' => p :: l'
  | S i', x :: l' => x :: set_nth i' p l'
  | _, [] => []
  end.

(** A call that is handed [providers[i]]: the object is the element of the
    registry, so the state in which the call leaves it is the state of the
    element, whether the call returns or throws. *)
Definition on_provider {A} (i : nat)
           (f : World -> res A * Provider * World) : M A :=
  fun w =>
    let out := f w in
    (fst (fst out),
     set_providers (set_nth i (snd (fst out)) (providers (snd out)))
                   (snd out)).

(** The loop over [providers]; [result] is kept from one provider to the
    next.  [todo] lists [providers[i]], [providers[i+1]], ... *)
Fixpoint providers_loop (T : Tools) (request : Request) (i : nat)
         (todo : list Provider) (result : CleaningResult) : M Action :=
  match todo with
  | [] => ret PassThrough
  | provider :: rest =>
      matched <- lift (matchURL provider (req_url request)) ;;
      result <-
        (if matched
         then on_provider i
                (removeFieldsFormURL T provider (req_url request) false)
         else ret result) ;;
      match result with
      | Redirect url =>
          if shouldForceRedirect provider
             && str_eqb (req_type request) "main_frame" then
            modify (call (TabsUpdate (req_tabId request) url)) ;;;
            ret Cancel
          else ret (RedirectUrl url)
      | Cleaned changes url cancel =>
          if cancel then
            if str_eqb (req_type request) "main_frame" then
              modify (call (TabsUpdate (req_tabId request)
                              (blockingPageURL T (req_url request)))) ;;;
              ret Cancel
            else ret (RedirectUrl siteBlockedAlert)
          else if changes then ret (RedirectUrl url)
          else providers_loop T request (S i) rest result
      end
  end.

Definition default_result : CleaningResult := Cleaned false EmptyString false.

Definition clearUrl (T : Tools) (request : Request) : M Action :=
  let URLbeforeReplaceCount := countFields T (req_url request) in
  modify (call (IncreaseGlobalURLCounter URLbeforeReplaceCount)) ;;;
  st <- gets storage ;;
  if globalStatus st then
    if pingBlocking st
       && existsb (str_eqb (req_type request)) (pingRequestTypes st) then
      pushToLog (req_url request) (req_url request)
                (translate T "log_ping_blocked") ;;;
      increaseBadged false ;;;
      ret Cancel
    else
      ps <- gets providers ;;
      providers_loop T request 0 ps default_result
  else ret PassThrough.

(** [isDataURL] and the listener [promise]. *)
Definition isDataURL (requestDetails : Request) : bool :=
  str_eqb (take 4 (req_url requestDetails)) "data".

Definition promise (T : Tools) (requestDetails : Request) : M Action :=
  if isDataURL requestDetails then ret PassThrough
  else clearUrl T requestDetails.

(** ** Building the registry: [toObject] *)

Definition getOrDefault {A} (o : option A) (defaultValue : A) : A :=
  match o with
  | Some v => v
  | None => defaultValue
  end.

Fixpoint lookup_spec (k : string) (d : RuleSet) : option ProviderSpec :=
  match d with
  | [] => None
  | (k', v) :: d' => if str_eqb k k' then Some v else lookup_spec k d'
  end.

(** [data.providers]: [undefined] unless the data is a parsed document. *)
Definition data_providers (d : datav) : option RuleSet :=
  match d with
  | DataObj r => Some r
  | DataText _ => None
  end.

(** [getKeys]: the names of the object in the order of [for ... in]; a loop
    over [undefined] adds nothing. *)
Definition getKeys (obj : option RuleSet) : M unit :=
  modify (fun w =>
    set_prvKeys (prvKeys w ++ own_keys (map fst (getOrDefault obj []))) w).

(** [providers[p].f(...)] for every element of an array of the document. *)
Definition update_provider (p : nat) (f : Provider -> res Provider)
  : M unit :=
  ps <- gets providers ;;
  match nth_error ps p with
  | None => lift (Throw TypeError)
  | Some pr =>
      pr' <- lift (f pr) ;;
      modify (fun w => set_providers (set_nth p pr' (providers w)) w)
  end.

Fixpoint add_all (f : string -> bool -> Provider -> Provider)
         (l : list string) (p : nat) : M unit :=
  match l with
  | [] => ret tt
  | x :: l' =>
      update_provider p (fun pr => Ok (f x true pr)) ;;;
      add_all f l' p
  end.

(** The body of the loop of [createProviders] for the index [p]. *)
Definition createProvider (data : datav) (p : nat) (key : string) : M unit :=
  match data_providers data with
  | None => lift (Throw TypeError)
  | Some provs =>
      match lookup_spec key provs with
      | None => lift (Throw TypeError)
      | Some sp =>
          modify (fun w =>
            set_providers
              (providers w ++
                 [new_Provider key
                    (getOrDefault (sp_completeProvider sp) false)
                    (getOrDefault (sp_forceRedirection sp) false) true]) w) ;;;
          update_provider p
            (setURLPattern (getOrDefault (sp_urlPattern sp) EmptyString)) ;;;
          add_all addRule (getOrDefault (sp_rules sp) []) p ;;;
          add_all addRawRule (getOrDefault (sp_rawRules sp) []) p ;;;
          add_all addReferralMarketing
                  (getOrDefault (sp_referralMarketing sp) []) p ;;;
          add_all addException (getOrDefault (sp_exceptions sp) []) p ;;;
          add_all addRedirection (getOrDefault (sp_redirections sp) []) p
      end
  end.

Fixpoint createProviders_loop (data : datav) (p : nat) (keys : list string)
  : M unit :=
  match keys with
  | [] => ret tt
  | key :: rest =>
      createProvider data p key ;;;
      createProviders_loop data (S p) rest
  end.

Definition createProviders : M unit :=
  data <- gets (fun w => ClearURLsData (storage w)) ;;
  keys <- gets prvKeys ;;
  createProviders_loop data 0 keys.

Definition toObject : M unit :=
  data <- gets (fun w => ClearURLsData (storage w)) ;;
  getKeys (data_providers data) ;;;
  createProviders.

(** ** The rule update: [getHash] and [fetchFromURL] *)

(** What a [fetch] leads to: a rejected promise, or a response with its
    [ok] flag and its body. *)
Inductive FetchOutcome : Type :=
| Rejected
| Response (ok : bool) (body : string).

Definition Network : Type := string -> FetchOutcome.

(** Modelled from the spec: [storeHashStatus], defined outside
    [clearurls.js], records the update status; the codes 1, 2 and 3 passed
    by the update chain stand for up_to_date, updated and hash_mismatch, and
    any other code for unavailable. *)
Definition storeHashStatus (status_code : nat) : M unit :=
  modify (fun w =>
    let st := match status_code with
              | 1 => up_to_date
              | 2 => updated
              | 3 => hash_mismatch
              | _ => unavailable
              end in
    set_storage (set_hashStatus (Some st) (storage w)) w).

Definition saveOnDisk (keys : list string) : M unit :=
  modify (call (SaveOnDisk keys)).

(** [JSON.parse(storage.ClearURLsData)]: an object is first turned into the
    text [[object Object]], which is not JSON. *)
Definition parse_data (T : Tools) (d : datav) : res datav :=
  match d with
  | DataText s => res_bind (JSON_parse T s) (fun r => Ok (DataObj r))
  | DataObj _ => Throw SyntaxError
  end.

(** [checkResponse], the callback of [fetchFromURL]. *)
Definition checkResponse (T : Tools) (ok : bool) (responseText : string)
  : M unit :=
  if ok && negb (str_eqb (trim T (HStr responseText)) EmptyString) then
    let downloadedFileHash := sha256 T responseText in
    dh <- gets dataHash ;;
    (if str_eqb (trim T (HStr downloadedFileHash)) (trim T dh) then
       modify (fun w =>
         set_storage
           (set_st_dataHash (HStr downloadedFileHash)
              (set_ClearURLsData (DataText responseText) (storage w))) w) ;;;
       storeHashStatus 2
     else storeHashStatus 3) ;;;
    data <- gets (fun w => ClearURLsData (storage w)) ;;
    parsed <- lift (parse_data T data) ;;
    modify (fun w => set_storage (set_ClearURLsData parsed (storage w)) w) ;;;
    toObject ;;;
    saveOnDisk ["ClearURLsData"; "dataHash"; "hashStatus"]
  else ret tt.

Definition fetchFromURL (T : Tools) (net : Network) : M unit :=
  url <- gets (fun w => ruleURL (storage w)) ;;
  modify (call (Fetch url)) ;;;
  match net url with
  | Rejected => ret tt
  | Response ok body => checkResponse T ok body
  end.

Definition getHash (T : Tools) (net : Network) : M unit :=
  url <- gets (fun w => hashURL (storage w)) ;;
  modify (call (Fetch url)) ;;;
  match net url with
  | Rejected => ret tt
  | Response ok responseTextHash =>
      if ok && negb (str_eqb (trim T (HStr responseTextHash)) EmptyString) then
        modify (set_dataHash (HStr responseTextHash)) ;;;
        dh <- gets dataHash ;;
        ldh <- gets localDataHash ;;
        if negb (str_eqb (trim T dh) (trim T ldh)) then fetchFromURL T net
        else
          toObject ;;;
          storeHashStatus 1 ;;;
          saveOnDisk ["hashStatus"]
      else modify (set_dataHash HFalse)
  end.

(** The promise chain started by [getHash], run to its end: an exception in
    a callback rejects a promise that nobody observes. *)
Definition run_getHash (T : Tools) (net : Network) (w : World) : World :=
  snd (getHash T net w).

(** The URLs fetched so far, oldest first. *)
Definition fetched (w : World) : list string :=
  flat_map (fun c => match c with
                     | Fetch u => [u]
                     | _ => []
                     end) (calls w).

(** ** An instance of the helpers *)

Module SpecTools.

Definition contains (p s : string) : bool :=
  match index_of p s with Some _ => true | None => false end.

(** The text after the first occurrence of [p], if any. *)
Definition after (p s : string) : option string :=
  option_map (fun i => drop (i + String.length p) s) (index_of p s).

Definition before (p s : string) : string :=
  match index_of p s with Some i => take i s | None => s end.

(** Splitting on [&amp;] and on [&]; [acc] is the token being read,
    latest character first. *)
Fixpoint split_amp (acc : string) (s : string) : list string :=
  let flush := fun (a : string) =>
    string_of_list_ascii (rev (list_ascii_of_string a)) in
  match s with
  | EmptyString => [flush acc]
  | String c s' =>
      if Ascii.eqb c "&" then
        flush acc ::
          (if starts_with "amp;" s'
           then match s' with
                | String _ (String _ (String _ (String _ s''))) =>
                    split_amp EmptyString s''
                | _ => split_amp EmptyString s'
                end
           else split_amp EmptyString s')
      else split_amp (String c acc) s'
  end.

(** Modelled from the spec: [existsFields] (not among the sources) tells
    whether the URL has a query part, a [?] followed by the query. *)
Definition existsFields (url : string) : bool := contains "?" url.

(** Modelled from the spec: [existsFragments] (not among the sources)
    tells whether the URL has a fragment part, introduced by [#]. *)
Definition existsFragments (url : string) : bool := contains "#" url.

(** Modelled from the spec: [extractFileds] (not among the sources) gives
    the query, up to the fragment, split into its tokens on the ampersand
    and the HTML-escaped ampersand, in order. *)
Definition extractFileds (url : string) : list string :=
  match after "?" url with
  | Some q => split_amp EmptyString (before "#" q)
  | None => []
  end.

(** Modelled from the spec: [extractFragments] (not among the sources)
    gives the fragment split into its tokens in the same way. *)
Definition extractFragments (url : string) : list string :=
  match after "#" url with
  | Some f => split_amp EmptyString f
  | None => []
  end.

(** The host of a URL: what stands between [://] and the next delimiter. *)
Fixpoint host_end (s : string) : string :=
  match s with
  | EmptyString => EmptyString
  | String c s' =>
      if existsb (Ascii.eqb c) (list_ascii_of_string "/?#:")
      then EmptyString else String c (host_end s')
  end.

Definition extractHost (url : string) : string :=
  host_end (getOrDefault (after "://" url) url).

(** Modelled from the spec: [checkLocalURL] (not among the sources) tells
    whether the URL names a loopback, private or link-local host. *)
Definition checkLocalURL (url : string) : res bool :=
  let host := extractHost url in
  Ok (str_eqb host "localhost"
      || existsb (fun p => starts_with p host)
           ["127."; "10."; "192.168."; "169.254."; "172.16."; "172.17.";
            "172.18."; "172.19."; "172.20."; "172.21."; "172.22.";
            "172.23."; "172.24."; "172.25."; "172.26."; "172.27.";
            "172.28."; "172.29."; "172.30."; "172.31."]).

Definition hex_val (c : ascii) : option nat :=
  let n := nat_of_ascii c in
  if (48 <=? n) && (n <=? 57) then Some (n - 48)
  else if (65 <=? n) && (n <=? 70) then Some (n - 55)
  else if (97 <=? n) && (n <=? 102) then Some (n - 87)
  else None.

(** Percent-decoding of the code units below 128; a [%] that does not
    start an escape is a URIError. *)
Fixpoint percent_decode (s : string) : res string :=
  match s with
  | EmptyString => Ok EmptyString
  | String c s' =>
      if Ascii.eqb c "%" then
        match s' with
        | String a (String b rest) =>
            match hex_val a, hex_val b with
            | Some x, Some y =>
                if 16 * x + y <? 128 then
                  res_bind (percent_decode rest) (fun r =>
                    Ok (String (ascii_of_nat (16 * x + y)) r))
                else Throw Unsupported
            | _, _ => Throw URIError
            end
        | _ => Throw URIError
        end
      else res_bind (percent_decode s') (fun r => Ok (String c r))
  end.

(** Modelled from the spec: [decodeURL] (not among the sources) URL-decodes
    the captured target; [undefined] is first turned into text. *)
Definition decodeURL (re : jsval) : res string :=
  match re with
  | JStr s => percent_decode s
  | JUndefined => Ok "undefined"
  | JNull => Ok "null"
  end.

(** Modelled from the spec: [countFields] (not among the sources) counts
    the fields of the URL for the statistics. *)
Definition countFields (url : string) : nat :=
  List.length (extractFileds url).

Definition is_space (c : ascii) : bool :=
  existsb (Nat.eqb (nat_of_ascii c)) [9; 10; 11; 12; 13; 32; 160].

Fixpoint trim_left (s : string) : string :=
  match s with
  | String c s' => if is_space c then trim_left s' else s
  | EmptyString => EmptyString
  end.

Definition str_rev (s : string) : string :=
  string_of_list_ascii (rev (list_ascii_of_string s)).

(** [$.trim]: [null] and [undefined] give the empty text, any other value
    its text without the white space at both ends. *)
Definition trim (v : hashval) : string :=
  match v with
  | HUndefined => EmptyString
  | HFalse => "false"
  | HStr s => str_rev (trim_left (str_rev (trim_left s)))
  end.

(** A stand-in for the content hash: any deterministic function serves. *)
Definition sha256 (s : string) : string := "h:" +++ s.

(** A stand-in for [JSON.parse] that knows the document without
    providers. *)
Definition JSON_parse (s : string) : res RuleSet :=
  if str_eqb s "{}" then Ok [] else Throw SyntaxError.

(** A variant of [decodeURL] that keeps a text it cannot decode. *)
Definition decodeURL_lenient (re : jsval) : res string :=
  match decodeURL re, re with
  | Ok s, _ => Ok s
  | Throw _, JStr s => Ok s
  | Throw _, _ => Ok EmptyString
  end.

Definition tools_lenient : Tools :=
  MkTools checkLocalURL existsFragments existsFields extractFileds
          extractFragments decodeURL_lenient countFields (fun key => key)
          (fun u => "html/siteBlockedAlert.html?source=" +++ u)
          trim sha256 JSON_parse.

Definition tools : Tools :=
  MkTools checkLocalURL existsFragments existsFields extractFileds
          extractFragments decodeURL countFields (fun key => key)
          (fun u => "html/siteBlockedAlert.html?source=" +++ u)
          trim sha256 JSON_parse.

End SpecTools.

(** ** Sample data *)

Module Sample.

Definition st : Storage :=
  {| globalStatus := true;
     localHostsSkipping := true;
     loggingStatus := true;
     logLimit := Num 100;
     log := [];
     referralMarketing := true;
     domainBlocking := true;
     pingBlocking := true;
     pingRequestTypes := ["ping"; "beacon"];
     badgedStatus := true;
     ClearURLsData := DataObj [];
     st_dataHash := HStr "h:{}";
     hashStatus := None;
     hashURL := "https://rules.example/data.hash";
     ruleURL := "https://rules.example/data.json" |}.

Definition world (ps : list Provider) : World :=
  {| storage := st;
     providers := ps;
     prvKeys := map name ps;
     badges := [];
     tabid := 1;
     dataHash := HUndefined;
     localDataHash := HStr "h:{}";
     now := 0;
     calls := [] |}.

(** A provider with the given URL pattern, as [createProviders] makes
    it. *)
Definition provider (key urlPatterns : string) : Provider :=
  match setURLPattern urlPatterns (new_Provider key false false true) with
  | Ok p => p
  | Throw _ => new_Provider key false false true
  end.

Definition main_frame (url : string) : Request :=
  {| req_url := url; req_type := "main_frame"; req_tabId := 1 |}.

(** A shop whose links carry a tracking field. *)
Definition shop : Provider :=
  addException "shop\.example\/login" true
    (addRule "utm_source" true (provider "shop" "shop\.example")).

(** A provider with a raw rule. *)
Definition tracker : Provider :=
  addRawRule "track" true (provider "tracker" ".*").

(** A search engine that wraps its results in a redirection. *)
Definition search : Provider :=
  addRedirection "search\.example\/url\?.*q=([^&]*)" true
    (addRule "ved" true (provider "search" "search\.example")).

(** The same redirector, served from a host of the local network. *)
Definition intranet : Provider :=
  addRedirection "\/url\?.*q=([^&]*)" true
    (addRule "ved" true (provider "intranet" "192\.168\.")).

(** A provider whose raw rule is not a pattern. *)
Definition broken : Provider :=
  addRawRule "(" true (provider "broken" ".*").

(** A provider with referral marketing rules. *)
Definition affiliate : Provider :=
  addReferralMarketing "tag" true
    (addRule "ref" true (provider "affiliate" "store\.example")).

(** The cached document of a previous session and the world at start-up,
    before the registry is built. *)
Definition document : RuleSet :=
  [("shop",
    {| sp_completeProvider := None;
       sp_forceRedirection := None;
       sp_urlPattern := Some "shop\.example";
       sp_rules := Some ["utm_source"];
       sp_rawRules := None;
       sp_referralMarketing := None;
       sp_exceptions := Some ["shop\.example\/login"];
       sp_redirections := None |})].

Definition startup : World :=
  {| storage := set_hashStatus (Some updated)
                  (set_ClearURLsData (DataObj document) st);
     providers := [];
     prvKeys := [];
     badges := [];
     tabid := 1;
     dataHash := HUndefined;
     localDataHash := HStr "h:{}";
     now := 0;
     calls := [] |}.

(** Networks: the hash endpoint is down; the hash is the cached one; a new
    hash is announced and the document served does not have it. *)
Definition net_down : Network := fun _ => Response false EmptyString.

Definition net_same : Network := fun _ => Response true "h:{} ".

Definition net_tampered : Network :=
  fun u => if str_eqb u "https://rules.example/data.hash"
           then Response true "h:new" else Response true "{}".

End Sample.

(** * Properties *)

(** ** Words of the claims, as definitions *)

(** An enabled exception pattern of the provider matches the URL, the
    block-notice sentinel counting as matched by every provider. *)
Definition exception_matches (p : Provider) (url : string) : bool :=
  str_eqb url siteBlockedAlert
  || existsb (fun e => match RegExp e with
                       | Ok re => regex_test true re url
                       | Throw _ => false
                       end) (obj_keys (enabled_exceptions p)).

Definition compiles (pattern : string) : Prop :=
  exists r, RegExp pattern = Ok r.

(** The request is of a type that ping blocking cancels. *)
Definition ping_blocked (st : Storage) (request : Request) : bool :=
  pingBlocking st
  && existsb (str_eqb (req_type request)) (pingRequestTypes st).

(** The provider after a series of calls of [getRules], one for each value
    that [storage.referralMarketing] has at the time of the call. *)
Fixpoint getRules_calls (flags : list bool) (p : Provider) : Provider :=
  match flags with
  | [] => p
  | f :: fs => getRules_calls fs (snd (getRules f p))
  end.

(** Two worlds that differ at most in the registry ([providers] and
    [prvKeys]). *)
Definition outside_eq (w w' : World) : Prop :=
  storage w' = storage w /\ calls w' = calls w
  /\ dataHash w' = dataHash w /\ localDataHash w' = localDataHash w.

(** A computation that writes nothing but the registry. *)
Definition keeps_outside {A} (m : M A) : Prop :=
  forall w, outside_eq w (snd (m w)).

(** Two worlds with the same registry and the same cached document. *)
Definition same_registry (w v : World) : Prop :=
  ClearURLsData (storage w) = ClearURLsData (storage v)
  /\ providers w = providers v /\ prvKeys w = prvKeys v.

(** A computation that reads nothing but the registry and the cached
    document. *)
Definition registry_fn {A} (m : M A) : Prop :=
  forall w v, same_registry w v ->
              fst (m w) = fst (m v) /\ same_registry (snd (m w)) (snd (m v)).

(** A computation that leaves an observation of the world as it was, also
    when it throws. *)
Definition preserves {A X} (obs : World -> X) (m : M A) : Prop :=
  forall w, obs (snd (m w)) = obs w.

(** Every pattern stored in the provider compiles, and its URL pattern has
    been set. *)
Definition provider_compiles (p : Provider) : Prop :=
  urlPattern p <> None
  /\ Forall compiles (obj_keys (enabled_rules p))
  /\ Forall compiles (obj_keys (enabled_rawRules p))
  /\ Forall compiles (obj_keys (enabled_referralMarketing p))
  /\ Forall compiles (obj_keys (enabled_exceptions p))
  /\ Forall compiles (obj_keys (enabled_redirections p)).

(** The helpers that may throw do not. *)
Definition tools_total (T : Tools) : Prop :=
  (forall url, exists b, checkLocalURL T url = Ok b)
  /\ (forall v, exists s, decodeURL T v = Ok s).

(** A computation that returns, whatever the world is. *)
Definition total {A} (m : M A) : Prop :=
  forall w, exists a w', m w = (Ok a, w').

(** No raw rule changes the URL: each one compiles and its substitution
    leaves the text as it is. *)
Definition raw_rules_fixed (rawRules : list string) (url : string) : Prop :=
  Forall (fun rule => exists r, RegExp rule = Ok r
                                /\ replace_all true r url = url) rawRules.

(** No field rule changes the query text or the fragment text. *)
Definition field_rules_fixed (rules : list string)
           (fields fragments : string) : Prop :=
  Forall (fun rule => exists r, RegExp rule = Ok r
                                /\ replace_all true r fields = fields
                                /\ replace_all true r fragments = fragments)
         rules.

(** The texts a pattern can consume, captures and anchors left aside: what
    a match of the pattern looks like. *)
Inductive matches (ic : bool) : regex -> string -> Prop :=
| M_empty : matches ic REmpty EmptyString
| M_char c d :
    canon ic c = canon ic d -> matches ic (RChar c) (String d EmptyString)
| M_any d :
    is_line_terminator d = false -> matches ic RAny (String d EmptyString)
| M_class neg items d :
    class_matches ic neg items d = true ->
    matches ic (RClass neg items) (String d EmptyString)
| M_bol : matches ic RBol EmptyString
| M_eol : matches ic REol EmptyString
| M_seq a b s1 s2 :
    matches ic a s1 -> matches ic b s2 -> matches ic (RSeq a b) (s1 +++ s2)
| M_alt_l a b s : matches ic a s -> matches ic (RAlt a b) s
| M_alt_r a b s : matches ic b s -> matches ic (RAlt a b) s
| M_group n r s : matches ic r s -> matches ic (RGroup n r) s
| M_star_nil r : matches ic (RStar r) EmptyString
| M_star_cons r s1 s2 :
    matches ic r s1 -> matches ic (RStar r) s2 ->
    matches ic (RStar r) (s1 +++ s2)
| M_plus r s1 s2 :
    matches ic r s1 -> matches ic (RStar r) s2 ->
    matches ic (RPlus r) (s1 +++ s2)
| M_opt_none r : matches ic (ROpt r) EmptyString
| M_opt_some r s : matches ic r s -> matches ic (ROpt r) s.

(** What it means for a matcher to be sound for a pattern: a success
    splits the text into a part the pattern can consume and the rest, on
    which the continuation succeeded. *)
Definition sound_for (ic : bool) (r : regex)
           (m : nat -> string -> captures -> cont -> option mstate) : Prop :=
  forall pos s caps k x,
    m pos s caps k = Some x ->
    exists s1 s2 caps',
      s = s1 +++ s2 /\ matches ic r s1
      /\ k (pos + String.length s1) s2 caps' = Some x.

(** A field name without pattern syntax: none of its characters is
    special in a pattern. *)
Fixpoint is_literal (r : string) : bool :=
  match r with
  | EmptyString => true
  | String c r' => negb (is_special c) && is_literal r'
  end.

(** Equality of two texts up to the case of the letters, as the flag [i]
    compares them. *)
Fixpoint ci_eqb (a b : string) : bool :=
  match a, b with
  | EmptyString, EmptyString => true
  | String x a', String y b' =>
      (canon true x =? canon true y) && ci_eqb a' b'
  | _, _ => false
  end.

(** One separator: a slash, a question mark, a hash, an ampersand or the
    HTML-escaped ampersand. *)
Definition is_separator (x : string) : bool :=
  existsb (str_eqb x) ["/"; "?"; "#"; "&"] || ci_eqb x "&amp;".

(** A non-empty run of separators. *)
Inductive separators : string -> Prop :=
| Sep_one x : is_separator x = true -> separators x
| Sep_more x rest :
    is_separator x = true -> separators rest -> separators (x +++ rest).

(** A text without ampersand. *)
Fixpoint no_amp (v : string) : bool :=
  match v with
  | EmptyString => true
  | String c v' => negb (Ascii.eqb c "&") && no_amp v'
  end.

(** The terms of a literal name, pushed on the terms read so far. *)
Fixpoint lits (r : string) (seq : list regex) : list regex :=
  match r with
  | EmptyString => seq
  | String c r' => lits r' (RChar c :: seq)
  end.

(** The terms of a literal name, in order. *)
Fixpoint chars_regex (r : string) : list regex :=
  match r with
  | EmptyString => []
  | String c r' => RChar c :: chars_regex r'
  end.

(** The pattern of the separators, [([\/\?#]|(&|&amp;))+]. *)
Definition sep_regex : regex :=
  RPlus (RGroup (Some 1)
           (RAlt (RClass false [CChar "/"; CChar "?"; CChar "#"])
                 (RGroup (Some 2)
                    (RAlt (RChar "&")
                          (RSeq (RChar "&") (RSeq (RChar "a")
                             (RSeq (RChar "m") (RSeq (RChar "p")
                                (RChar ";"))))))))).

(** The syntax tree of the rule stored for a literal field name. *)
Definition rule_regex (r : string) : regex :=
  RSeq sep_regex
       (RGroup (Some 3)
          (mk_seq (rev (RStar (RClass true [CChar "&"])
                        :: RChar "=" :: lits r [])))).

(** The five kinds of rule collection of a provider, and the operations
    that store a rule in them. *)
Inductive RuleKind : Type :=
| KField
| KRaw
| KReferral
| KException
| KRedirection.

Definition add_op (k : RuleKind) (rule : string) (isActive : bool)
           (p : Provider) : Provider :=
  match k with
  | KField => addRule rule isActive p
  | KRaw => addRawRule rule isActive p
  | KReferral => addReferralMarketing rule isActive p
  | KException => addException rule isActive p
  | KRedirection => addRedirection rule isActive p
  end.

(** The key under which a rule is stored: field and referral rules are
    wrapped, the others are kept as they are. *)
Definition stored_key (k : RuleKind) (rule : string) : string :=
  match k with
  | KField => wrap_rule rule
  | KReferral => wrap_referral rule
  | _ => rule
  end.

Definition enabled_of (k : RuleKind) (p : Provider) : jsobj :=
  match k with
  | KField => enabled_rules p
  | KRaw => enabled_rawRules p
  | KReferral => enabled_referralMarketing p
  | KException => enabled_exceptions p
  | KRedirection => enabled_redirections p
  end.

Definition disabled_of (k : RuleKind) (p : Provider) : jsobj :=
  match k with
  | KField => disabled_rules p
  | KRaw => disabled_rawRules p
  | KReferral => disabled_referralMarketing p
  | KException => disabled_exceptions p
  | KRedirection => disabled_redirections p
  end.

(** A series of such operations, first one first. *)
Fixpoint apply_ops (ops : list (RuleKind * string * bool)) (p : Provider)
  : Provider :=
  match ops with
  | [] => p
  | (k, rule, isActive) :: rest => apply_ops rest (add_op k rule isActive p)
  end.

(** No key twice in a collection, and none both enabled and disabled. *)
Definition collections_kept (p : Provider) : Prop :=
  forall k, NoDup (enabled_of k p) /\ NoDup (disabled_of k p)
            /\ forall x, In x (enabled_of k p) -> ~ In x (disabled_of k p).

(** What a quiet run may not change: the storage, the names of the
    registry, and the calls other than the badge updates. *)
Definition is_badge_job (c : HostCall) : bool :=
  match c with
  | BadgeJob _ => true
  | _ => false
  end.

Definition quiet_view (w : World)
  : Storage * list string * list HostCall :=
  (storage w, prvKeys w,
   filter (fun c => negb (is_badge_job c)) (calls w)).

(** The settings of the storage, the log left aside. *)
Definition settings (w : World) : Storage := set_log [] (storage w).

(** The pattern compiles and does not match the URL. *)
Definition compiles_without_match (url pattern : string) : Prop :=
  exists re, RegExp pattern = Ok re /\ regex_test true re url = false.

(** The redirection pattern compiles and is passed over: it is empty or it
    does not match the URL. *)
Definition redirection_passed_over (url pattern : string) : Prop :=
  exists re, RegExp pattern = Ok re
             /\ (pattern = EmptyString \/ exec_from true re 0 url = None).

(** The provider that [createProviders] makes of one entry of the
    document, as a function of the entry: the constructor, the URL pattern,
    then the rules, raw rules, referral marketing rules, exceptions and
    redirections in the order of their arrays. *)
Definition add_list (f : string -> bool -> Provider -> Provider)
           (l : list string) (p : Provider) : Provider :=
  fold_left (fun q x => f x true q) l p.

Definition provider_of_spec (key : string) (sp : ProviderSpec)
  : res Provider :=
  res_bind
    (setURLPattern (getOrDefault (sp_urlPattern sp) EmptyString)
       (new_Provider key (getOrDefault (sp_completeProvider sp) false)
                     (getOrDefault (sp_forceRedirection sp) false) true))
    (fun p =>
       Ok (add_list addRedirection (getOrDefault (sp_redirections sp) [])
            (add_list addException (getOrDefault (sp_exceptions sp) [])
              (add_list addReferralMarketing
                 (getOrDefault (sp_referralMarketing sp) [])
                (add_list addRawRule (getOrDefault (sp_rawRules sp) [])
                  (add_list addRule (getOrDefault (sp_rules sp) [])
                     p)))))).

(** A start-up world whose cached hash is out of date, and a network that
    serves a new document together with its hash. *)
Definition stale_startup : World :=
  MkWorld (storage Sample.startup) [] [] [] 1 HUndefined (HStr "h:old") 0 [].

Definition net_fresh : Network :=
  fun u => if str_eqb u "https://rules.example/data.hash"
           then Response true "h:{}" else Response true "{}".

(** A document with the names [shop], [7] and [10]. *)
Definition numbered_document : RuleSet :=
  [("shop", MkSpec None None (Some "shop\.example") None (Some ["ab"; "1"])
              None None None);
   ("10", MkSpec None None (Some "ten\.example") None None None None None);
   ("7", MkSpec None None (Some "seven\.example") None None None None None)].

(** ** The popup: [popup.js]

    What the popup reads and writes: the key [globalStatus] of the local
    storage, [None] while nothing is stored ([null] or [undefined]), and the
    class of the status element. *)

Module Popup.

Record State : Type := MkState {
  stored_globalStatus : option bool;
  element_class : option string
}.

Definition statusEnabled : string := "status statusEnabled".
Definition statusDisabled : string := "status statusDisabled".

(** [if (data)]: only a stored [true] counts. *)
Definition truthy (data : option bool) : bool :=
  match data with
  | Some true => true
  | _ => false
  end.

(** [setStatus]: a missing value is stored as [true]; the class is chosen
    from the value that was read. *)
Definition setStatus (s : State) : State :=
  let data := stored_globalStatus s in
  let stored := match data with
                | None => Some true
                | Some _ => data
                end in
  MkState stored
          (Some (if truthy data then statusEnabled else statusDisabled)).

(** [changeStatus]: the stored value and the class are switched together. *)
Definition changeStatus (s : State) : State :=
  let data := stored_globalStatus s in
  if truthy data then MkState (Some false) (Some statusDisabled)
  else MkState (Some true) (Some statusEnabled).

(** The class shows what is stored. *)
Definition shows_stored (s : State) : Prop :=
  element_class s
  = Some (if truthy (stored_globalStatus s)
          then statusEnabled else statusDisabled).

End Popup.

(** ** Basic facts *)

Ltac unfold_m := unfold bind, ret, lift, gets, modify, when in *.

Lemma set_nth_same (l : list Provider) :
  forall i p, nth_error l i = Some p -> set_nth i p l = l.
Proof.
  induction l as [|x l IH]; intros [|i] p H; simpl in *; try discriminate.
  - congruence.
  - now rewrite IH.
Qed.

Lemma str_eqb_refl (s : string) : str_eqb s s = true.
Proof. apply String.eqb_refl. Qed.

Lemma str_eqb_eq (a b : string) : str_eqb a b = true <-> a = b.
Proof. apply String.eqb_eq. Qed.

Lemma str_eqb_neq (a b : string) : str_eqb a b = false <-> a <> b.
Proof. apply String.eqb_neq. Qed.

(** ** The dispatcher when no provider matches *)

Lemma providers_loop_no_match (T : Tools) (request : Request) :
  forall todo i w,
    Forall (fun p => matchURL p (req_url request) = Ok false) todo ->
    providers_loop T request i todo default_result w = (Ok PassThrough, w).
Proof.
  induction todo as [|p rest IH]; intros i w Hall; simpl.
  - reflexivity.
  - inversion Hall as [|? ? Hp Hrest]; subst.
    unfold_m. rewrite Hp. simpl.
    now apply IH.
Qed.

Lemma clearUrl_no_match (T : Tools) (request : Request) (w : World) :
  ping_blocked (storage w) request = false ->
  Forall (fun p => matchURL p (req_url request) = Ok false) (providers w) ->
  clearUrl T request w =
  (Ok PassThrough,
   call (IncreaseGlobalURLCounter (countFields T (req_url request))) w).
Proof.
  intros Hping Hall. unfold clearUrl. unfold_m. simpl.
  unfold ping_blocked in Hping.
  destruct (globalStatus (storage w)); [|reflexivity].
  rewrite Hping.
  now apply providers_loop_no_match.
Qed.

(** C5: with the global switch off, and also with it on when the request is
    not a blocked ping and no provider of the registry matches its URL,
    [clearUrl] answers the pass-through action; nothing is written but the
    global URL counter. *)
Theorem clearUrl_pass_through (T : Tools) (request : Request) (w : World) :
  globalStatus (storage w) = false \/
  (ping_blocked (storage w) request = false /\
   Forall (fun p => matchURL p (req_url request) = Ok false) (providers w)) ->
  clearUrl T request w =
  (Ok PassThrough,
   call (IncreaseGlobalURLCounter (countFields T (req_url request))) w).
Proof.
  intros [Hoff | [Hping Hall]].
  - unfold clearUrl. unfold_m. simpl. now rewrite Hoff.
  - now apply clearUrl_no_match.
Qed.

Lemma clearUrl_pass_through_witness :
  let w := Sample.world [Sample.shop] in
  let request := Sample.main_frame "https://other.example/?utm_source=a" in
  (globalStatus (storage w) = false \/
   (ping_blocked (storage w) request = false /\
    Forall (fun p => matchURL p (req_url request) = Ok false) (providers w)))
  /\ clearUrl SpecTools.tools request w =
     (Ok PassThrough,
      call (IncreaseGlobalURLCounter
              (countFields SpecTools.tools (req_url request))) w).
Proof.
  intros w request.
  assert (H : globalStatus (storage w) = false \/
    (ping_blocked (storage w) request = false /\
     Forall (fun p => matchURL p (req_url request) = Ok false)
            (providers w))).
  { right. split; [reflexivity|]. repeat constructor. }
  split; [exact H|].
  apply (clearUrl_pass_through SpecTools.tools request w H).
Defined.

(** ** Matching a provider *)

Lemma matchException_loop_spec (url : string) :
  forall keys,
    Forall compiles keys ->
    matchException_loop keys url =
    Ok (existsb (fun e => match RegExp e with
                          | Ok re => regex_test true re url
                          | Throw _ => false
                          end) keys).
Proof.
  induction keys as [|e keys IH]; intros Hall; simpl.
  - reflexivity.
  - inversion Hall as [|? ? [re Hre] Hrest]; subst.
    rewrite Hre. simpl.
    destruct (regex_test true re url); [reflexivity|].
    now apply IH.
Qed.

Lemma matchException_sentinel (p : Provider) :
  matchException p siteBlockedAlert = Ok true.
Proof. reflexivity. Qed.

Lemma matchURL_sentinel (p : Provider) (r : regex) :
  urlPattern p = Some r -> matchURL p siteBlockedAlert = Ok false.
Proof.
  intros Hr. unfold matchURL. rewrite Hr, matchException_sentinel.
  now destruct (regex_test true r siteBlockedAlert).
Qed.

(** The loop stops at the first exception that matches, and throws at the
    first one that is no pattern, whichever comes first. *)
Lemma matchException_loop_first (url : string) (e : string)
      (post : list string) :
  forall pre,
    Forall (compiles_without_match url) pre ->
    (forall re, RegExp e = Ok re -> regex_test true re url = true ->
                matchException_loop (pre ++ e :: post) url = Ok true)
    /\ (RegExp e = Throw SyntaxError ->
        matchException_loop (pre ++ e :: post) url = Throw SyntaxError).
Proof.
  intros pre Hpre.
  induction Hpre as [|k pre (rk & Hk & Hno) Hpre IH]; simpl.
  - split.
    + intros re Hre Hm. now rewrite Hre; simpl; rewrite Hm.
    + intros Hx. now rewrite Hx.
  - rewrite Hk. simpl. rewrite Hno. exact IH.
Qed.

(** C3, as stated, fails for a provider one of whose enabled exceptions
    is not a pattern: the URL pattern matches and no exception matches, but
    [matchURL] does not return true, it throws the SyntaxError of the RegExp
    constructor. *)
Lemma matchURL_throws_on_broken_exception :
  let p := addException "(" true (Sample.provider "shop" "shop\.example") in
  let url := "https://shop.example/cart" in
  option_map (fun r => regex_test true r url) (urlPattern p) = Some true
  /\ obj_keys (enabled_exceptions p) = ["("]
  /\ RegExp "(" = Throw SyntaxError
  /\ exception_matches p url = false
  /\ matchURL p url = Throw SyntaxError.
Proof. vm_compute. repeat split. Qed.

(** C3, amended: for a provider whose URL pattern has been set, [matchURL]
    is true exactly when the URL pattern matches and no enabled exception
    matches, provided the enabled exception patterns compile, the
    block-notice sentinel counting as an exception match.  Whatever the
    exceptions are, also when some of them do not compile, [matchURL] is
    false on a URL that the URL pattern does not match and on the sentinel,
    and a request for the sentinel passes through every registry.  On a
    URL that the URL pattern matches, an enabled exception that the RegExp
    constructor rejects and that is reached before any exception matches
    makes [matchURL] throw. *)
Theorem matchURL_exception_precedence (p : Provider) (url : string)
        (r : regex) :
  urlPattern p = Some r ->
  (Forall compiles (obj_keys (enabled_exceptions p)) ->
   matchURL p url =
   Ok (regex_test true r url && negb (exception_matches p url)))
  /\ (regex_test true r url = false -> matchURL p url = Ok false)
  /\ exception_matches p siteBlockedAlert = true
  /\ matchURL p siteBlockedAlert = Ok false
  /\ (forall (T : Tools) (w : World) (request : Request),
        req_url request = siteBlockedAlert ->
        ping_blocked (storage w) request = false ->
        Forall (fun q => urlPattern q <> None) (providers w) ->
        fst (clearUrl T request w) = Ok PassThrough)
  /\ forall (pre post : list string) (e : string),
       regex_test true r url = true ->
       url <> siteBlockedAlert ->
       obj_keys (enabled_exceptions p) = pre ++ e :: post ->
       Forall (compiles_without_match url) pre ->
       RegExp e = Throw SyntaxError ->
       matchURL p url = Throw SyntaxError.
Proof.
  intros Hr. split; [|split; [|split; [|split; [|split]]]].
  6: { intros pre post e Hm Hns Hkeys Hpre Hbad.
       unfold matchURL, matchException. rewrite Hr, Hm.
       apply str_eqb_neq in Hns. rewrite Hns, Hkeys.
       now rewrite (proj2 (matchException_loop_first e post Hpre) Hbad). }
  - intros Hall.
    unfold matchURL, matchException, exception_matches. rewrite Hr.
    destruct (regex_test true r url); [|reflexivity]. simpl.
    destruct (str_eqb url siteBlockedAlert); [reflexivity|].
    now rewrite (matchException_loop_spec url Hall).
  - intros Hno. unfold matchURL. now rewrite Hr, Hno.
  - reflexivity.
  - now apply matchURL_sentinel with r.
  - intros T w request Hurl Hping Hpat.
    rewrite clearUrl_no_match; [reflexivity|assumption|].
    rewrite Hurl. eapply Forall_impl; [|exact Hpat].
    intros q Hq. simpl in Hq.
    destruct (urlPattern q) as [rq|] eqn:E; [|congruence].
    now apply matchURL_sentinel with rq.
Qed.

Lemma matchURL_exception_precedence_witness :
  let p := Sample.shop in
  let broken := addException "(" true Sample.shop in
  let url := "https://shop.example/login?utm_source=mail" in
  let r := RSeq (RChar "s") (RSeq (RChar "h") (RSeq (RChar "o")
             (RSeq (RChar "p") (RSeq (RChar ".") (RSeq (RChar "e")
             (RSeq (RChar "x") (RSeq (RChar "a") (RSeq (RChar "m")
             (RSeq (RChar "p") (RSeq (RChar "l") (RChar "e"))))))))))) in
  urlPattern p = Some r
  /\ Forall compiles (obj_keys (enabled_exceptions p))
  /\ regex_test true r url = true
  /\ matchURL p url = Ok false
  /\ matchURL broken siteBlockedAlert = Ok false.
Proof.
  intros p broken url r.
  assert (Hr : urlPattern p = Some r) by (vm_compute; reflexivity).
  assert (Hb : urlPattern broken = Some r) by (vm_compute; reflexivity).
  assert (Hall : Forall compiles (obj_keys (enabled_exceptions p))).
  { let l := eval vm_compute in (obj_keys (enabled_exceptions p)) in
    change (Forall compiles l).
    apply Forall_cons; [|apply Forall_nil].
    eexists. vm_compute. reflexivity. }
  split; [exact Hr|]. split; [exact Hall|].
  split; [vm_compute; reflexivity|].
  destruct (matchURL_exception_precedence p url Hr) as [H _].
  destruct (matchURL_exception_precedence broken url Hb)
    as (_ & _ & _ & Hs & _ & _).
  split; [|exact Hs].
  rewrite (H Hall). vm_compute. reflexivity.
Defined.

(** ** The rule collections *)

Lemma obj_has_In (k : string) (o : jsobj) : obj_has k o = true <-> In k o.
Proof.
  unfold obj_has. rewrite existsb_exists. split.
  - intros [x [Hx He]]. apply str_eqb_eq in He. now subst.
  - intros H. exists k. split; [assumption|apply str_eqb_refl].
Qed.

Lemma insert_index_In (x k : string) (l : list string) :
  In x (insert_index k l) <-> x = k \/ In x l.
Proof.
  induction l as [|y l IH]; simpl.
  - split; [intros [H|[]]; now left|intros [H|[]]; now left].
  - destruct (index_value k <=? index_value y)%N; simpl.
    + split; [intros [H|H]; auto|intros [H|H]; auto].
    + rewrite IH. split.
      * intros [H|[H|H]]; auto.
      * intros [H|[H|H]]; auto.
Qed.

Lemma sort_index_In (x : string) (l : list string) :
  In x (sort_index l) <-> In x l.
Proof.
  unfold sort_index. induction l as [|y l IH]; simpl; [reflexivity|].
  rewrite insert_index_In, IH. split; intros [H|H]; auto.
Qed.

Lemma own_keys_In (x : string) (l : list string) :
  In x (own_keys l) <-> In x l.
Proof.
  unfold own_keys. rewrite in_app_iff, sort_index_In, !filter_In. split.
  - intros [[H _]|[H _]]; exact H.
  - intros H. destruct (is_index x) eqn:E; [left|right]; now split.
Qed.

Lemma obj_keys_In (x : string) (o : jsobj) :
  In x (obj_keys o) <-> In x o /\ x <> proto.
Proof.
  unfold obj_keys. rewrite own_keys_In, filter_In.
  rewrite negb_true_iff, str_eqb_neq. reflexivity.
Qed.

(** Without index keys the listing is the order of creation. *)
Lemma own_keys_plain (l : list string) :
  Forall (fun k => is_index k = false) l -> own_keys l = l.
Proof.
  unfold own_keys. induction 1 as [|k l Hk Hl IH]; [reflexivity|].
  simpl. rewrite Hk. simpl. simpl in IH.
  destruct (sort_index (filter is_index l)) eqn:E.
  - simpl in *. now rewrite IH.
  - exfalso. assert (Hin : In s (filter is_index l)).
    { apply sort_index_In. rewrite E. now left. }
    apply filter_In in Hin. destruct Hin as [Hin Hs].
    rewrite Forall_forall in Hl. rewrite (Hl _ Hin) in Hs. discriminate.
Qed.

Lemma obj_set_In (k x : string) (o : jsobj) :
  In x (obj_set k o) <-> (x = k /\ k <> proto) \/ In x o.
Proof.
  unfold obj_set. destruct (str_eqb k proto) eqn:Ep.
  - apply str_eqb_eq in Ep. split; [now right|].
    intros [[_ H]|H]; [contradiction|assumption].
  - apply str_eqb_neq in Ep. destruct (obj_has k o) eqn:E.
    + apply obj_has_In in E. split; [now right|].
      intros [[-> _]|H]; assumption.
    + rewrite in_app_iff. simpl. split.
      * intros [H|[H|[]]]; [now right|left; now subst].
      * intros [[H _]|H]; [right; now left|now left].
Qed.

Lemma fold_obj_set_In (x : string) :
  forall keys target,
    In x (fold_left (fun t k => obj_set k t) keys target)
    <-> In x target \/ (In x keys /\ x <> proto).
Proof.
  induction keys as [|k keys IH]; intros target; simpl.
  - split; [now left|]. now intros [H|[[] _]].
  - rewrite IH, obj_set_In. split.
    + intros [[[-> Hk]|H]|[H Hp]]; auto.
    + intros [H|[[->|H] Hp]]; auto.
Qed.

Lemma obj_assign_In (x : string) (source target : jsobj) :
  In x (obj_assign target source)
  <-> In x target \/ (In x source /\ x <> proto).
Proof.
  unfold obj_assign. rewrite fold_obj_set_In, obj_keys_In. tauto.
Qed.

(** A wrapped rule is an ordinary key. *)
Lemma wrap_rule_plain (r : string) :
  wrap_rule r <> proto /\ is_index (wrap_rule r) = false.
Proof. split; [discriminate|reflexivity]. Qed.

Lemma wrap_referral_plain (r : string) :
  wrap_referral r <> proto /\ is_index (wrap_referral r) = false.
Proof. split; [discriminate|reflexivity]. Qed.

Lemma getRules_grows (f : bool) (p : Provider) :
  incl (enabled_rules p) (enabled_rules (snd (getRules f p))).
Proof.
  unfold getRules. destruct f; simpl.
  - apply incl_refl.
  - intros x Hx. apply obj_assign_In. now left.
Qed.

Lemma getRules_calls_grows :
  forall flags p,
    incl (enabled_rules p) (enabled_rules (getRules_calls flags p)).
Proof.
  induction flags as [|f fs IH]; intros p; simpl.
  - apply incl_refl.
  - eapply incl_tran; [apply getRules_grows|apply IH].
Qed.

(** C10: [getRules] called while referral marketing enforcement is off
    writes the enabled referral marketing patterns into the collection of
    enabled field rules itself, so every later call on that provider
    returns them, also once enforcement is on again. *)
Theorem getRules_mutates_provider (p : Provider) :
  enabled_rules (snd (getRules false p)) =
  obj_assign (enabled_rules p) (enabled_referralMarketing p)
  /\ forall (flags : list bool) (f : bool),
       incl (obj_keys (enabled_referralMarketing p))
            (fst (getRules f
                    (getRules_calls flags (snd (getRules false p))))).
Proof.
  split; [reflexivity|].
  intros flags f x Hx. apply obj_keys_In in Hx. destruct Hx as [Hx Hp].
  assert (Hin : In x (enabled_rules
                        (getRules_calls flags (snd (getRules false p))))).
  { apply getRules_calls_grows. simpl. apply obj_assign_In. now right. }
  unfold getRules at 1. destruct f; simpl; apply obj_keys_In.
  - now split.
  - split; [|assumption]. apply obj_assign_In. now left.
Qed.

Example getRules_after_enforcement_is_back :
  fst (getRules true Sample.affiliate)
  = ["([\/\?#]|(&|&amp;))+(ref=[^&]*)"]
  /\ fst (getRules true (snd (getRules false Sample.affiliate)))
     = ["([\/\?#]|(&|&amp;))+(ref=[^&]*)";
        "([\/\?#]|(&|&amp;))+(tag=[^\/\?&]*)"].
Proof. vm_compute. split; reflexivity. Qed.

(** ** Redirections *)

(** C2, as stated, fails on a URL of the local network: with local host
    skipping on, the function returns the URL untouched before it looks for
    a redirection, although the provider's redirection pattern matches. *)
Lemma redirection_skipped_for_local_url :
  let p := Sample.intranet in
  let url := "http://192.168.0.1/url?ved=1&q=http%3A%2F%2Fe.example%2F" in
  let w := Sample.world [p] in
  rawRules_pass false (getRawRules p) url false w = (Ok (url, false), w)
  /\ getRedirection p url = Ok (JStr "http%3A%2F%2Fe.example%2F")
  /\ decodeURL SpecTools.tools (JStr "http%3A%2F%2Fe.example%2F")
     = Ok "http://e.example/"
  /\ fst (removeFieldsFormURL SpecTools.tools p url false w)
     = (Ok (Cleaned false url false), p).
Proof. vm_compute. repeat split. Qed.

Lemma run_intro {A} (m : res A * World) (p : Provider) (r : res A)
      (w : World) :
  m = (r, w) -> (fst m, p, snd m) = (r, p, w).
Proof. now intros ->. Qed.

Lemma run_inv {A} (m : res A * World) (p q : Provider) (r : res A)
      (w : World) :
  (fst m, p, snd m) = (r, q, w) -> m = (r, w) /\ p = q.
Proof. destruct m. simpl. intros H. injection H as -> -> ->. now split. Qed.

(** C2, amended: unless the local host bypass applies, a URL in which the
    provider finds a redirection target after the raw-rule pass gives the
    result [{redirect: true, url: decoded target}]; beyond the raw-rule pass
    the call only writes the log entry of the redirection (unless quiet), so
    no field or fragment is cleaned, whatever the field rules are. *)
Theorem redirection_precedes_cleaning (T : Tools) (p : Provider)
        (pureUrl : string) (quiet : bool) (w w1 : World) (url1 : string)
        (ch : bool) (re : jsval) (target : string) :
  let p' := snd (getRules (referralMarketing (storage w)) p) in
  localHostsSkipping (storage w) = false
  \/ checkLocalURL T pureUrl = Ok false ->
  rawRules_pass quiet (getRawRules p') pureUrl false w = (Ok (url1, ch), w1) ->
  getRedirection p' url1 = Ok re ->
  re <> JNull ->
  decodeURL T re = Ok target ->
  removeFieldsFormURL T p pureUrl quiet w =
  (Ok (Redirect target), p',
   if quiet then w1
   else snd (pushToLog pureUrl target (translate T "log_redirect") w1)).
Proof.
  intros p' Hlocal Hraw Hre Hnn Hdec.
  unfold removeFieldsFormURL. cbv zeta. fold p'. apply run_intro.
  unfold bind, gets.
  assert (Hskip :
    (if localHostsSkipping (storage w)
     then lift (checkLocalURL T pureUrl) else ret false) w = (Ok false, w)).
  { destruct Hlocal as [H|H].
    - now rewrite H.
    - destruct (localHostsSkipping (storage w)); [|reflexivity].
      unfold lift. now rewrite H. }
  rewrite Hskip, Hraw. unfold lift at 1. rewrite Hre.
  destruct re as [| |s]; [congruence| |]; unfold lift; rewrite Hdec;
    destruct quiet; reflexivity.
Qed.

Lemma redirection_precedes_cleaning_witness :
  let p := Sample.search in
  let url := "https://search.example/url?ved=1&q=http%3A%2F%2Fe.example%2F" in
  let w := Sample.world [p] in
  fst (removeFieldsFormURL SpecTools.tools p url true w)
  = (Ok (Redirect "http://e.example/"), p).
Proof.
  intros p url w.
  rewrite (@redirection_precedes_cleaning SpecTools.tools p url true w w url
             false (JStr "http%3A%2F%2Fe.example%2F") "http://e.example/").
  - reflexivity.
  - right. vm_compute. reflexivity.
  - vm_compute. reflexivity.
  - vm_compute. reflexivity.
  - discriminate.
  - vm_compute. reflexivity.
Defined.

(** ** The base of the URL *)

(** When the URL has a query, the base is the URL cut at its first [?]: the
    second assignment overwrites what the first one computed. *)
Lemma extract_domain_query (T : Tools) (url : string) :
  existsFields T url = true ->
  extract_domain T url = replace_first true re_query EmptyString url.
Proof. intros H. unfold extract_domain. now rewrite H. Qed.

Lemma extract_domain_query_then_fragment :
  extract_domain SpecTools.tools "https://shop.example/cart?utm_source=m#top"
  = "https://shop.example/cart".
Proof. vm_compute. reflexivity. Qed.

(** C9 fails on a URL whose fragment comes before a [?]: the base keeps the
    fragment, and the URL put together again carries it twice. *)
Theorem domain_keeps_fragment_before_query :
  let T := SpecTools.tools in
  let url := "https://shop.example/#/cart?utm_source=mail" in
  existsFragments T url = true
  /\ existsFields T url = true
  /\ extract_domain T url = "https://shop.example/#/cart"
  /\ fst (removeFieldsFormURL T Sample.shop url false
            (Sample.world [Sample.shop]))
     = (Ok (Cleaned true "https://shop.example/#/cart#/cart" false),
        Sample.shop).
Proof. vm_compute. repeat split. Qed.

(** ** Building the registry writes the registry only *)

Lemma outside_eq_refl (w : World) : outside_eq w w.
Proof. repeat split. Qed.

Lemma outside_eq_trans (a b c : World) :
  outside_eq a b -> outside_eq b c -> outside_eq a c.
Proof.
  unfold outside_eq. intros (H1 & H2 & H3 & H4) (K1 & K2 & K3 & K4).
  repeat split; congruence.
Qed.

Lemma keeps_outside_bind {A B} (m : M A) (f : A -> M B) :
  keeps_outside m -> (forall a, keeps_outside (f a)) ->
  keeps_outside (bind m f).
Proof.
  intros Hm Hf w. unfold bind. specialize (Hm w).
  destruct (m w) as [[a|e] w1]; simpl in *; [|assumption].
  eapply outside_eq_trans; [exact Hm|apply Hf].
Qed.

Lemma keeps_outside_lift {A} (r : res A) : keeps_outside (lift r).
Proof. intros w. apply outside_eq_refl. Qed.

Lemma keeps_outside_ret {A} (a : A) : keeps_outside (ret a).
Proof. intros w. apply outside_eq_refl. Qed.

Lemma keeps_outside_gets {A} (f : World -> A) : keeps_outside (gets f).
Proof. intros w. apply outside_eq_refl. Qed.

Lemma keeps_outside_set_providers (f : World -> list Provider) :
  keeps_outside (modify (fun w => set_providers (f w) w)).
Proof. intros w. repeat split. Qed.

Lemma keeps_outside_set_prvKeys (f : World -> list string) :
  keeps_outside (modify (fun w => set_prvKeys (f w) w)).
Proof. intros w. repeat split. Qed.

Lemma keeps_outside_update_provider (p : nat)
      (f : Provider -> res Provider) :
  keeps_outside (update_provider p f).
Proof.
  unfold update_provider. apply keeps_outside_bind.
  - apply keeps_outside_gets.
  - intros ps. destruct (nth_error ps p).
    + apply keeps_outside_bind; [apply keeps_outside_lift|].
      intros q. apply keeps_outside_set_providers.
    + apply keeps_outside_lift.
Qed.

Lemma keeps_outside_add_all (f : string -> bool -> Provider -> Provider)
      (p : nat) :
  forall l, keeps_outside (add_all f l p).
Proof.
  induction l as [|x l IH]; simpl.
  - apply keeps_outside_ret.
  - apply keeps_outside_bind; [apply keeps_outside_update_provider|].
    intros _. exact IH.
Qed.

Lemma keeps_outside_createProvider (data : datav) (p : nat) (key : string) :
  keeps_outside (createProvider data p key).
Proof.
  unfold createProvider.
  destruct (data_providers data) as [provs|]; [|apply keeps_outside_lift].
  destruct (lookup_spec key provs) as [sp|]; [|apply keeps_outside_lift].
  repeat (apply keeps_outside_bind; [|intros _]);
    first [ apply keeps_outside_set_providers
          | apply keeps_outside_update_provider
          | apply keeps_outside_add_all ].
Qed.

Lemma keeps_outside_createProviders_loop (data : datav) :
  forall keys p, keeps_outside (createProviders_loop data p keys).
Proof.
  induction keys as [|k keys IH]; intros p; simpl.
  - apply keeps_outside_ret.
  - apply keeps_outside_bind; [apply keeps_outside_createProvider|].
    intros _. apply IH.
Qed.

Lemma keeps_outside_toObject : keeps_outside toObject.
Proof.
  unfold toObject, createProviders, getKeys.
  apply keeps_outside_bind; [apply keeps_outside_gets|]. intros data.
  apply keeps_outside_bind; [apply keeps_outside_set_prvKeys|]. intros _.
  apply keeps_outside_bind; [apply keeps_outside_gets|]. intros d.
  apply keeps_outside_bind; [apply keeps_outside_gets|]. intros ks.
  apply keeps_outside_createProviders_loop.
Qed.

Section Preserves.

Context {X : Type} (obs : World -> X).

Lemma preserves_bind {A B} (m : M A) (f : A -> M B) :
  preserves obs m -> (forall a, preserves obs (f a)) ->
  preserves obs (bind m f).
Proof.
  intros Hm Hf w. unfold bind. specialize (Hm w).
  destruct (m w) as [[a|e] w1]; simpl in *; [|assumption].
  now rewrite Hf.
Qed.

Lemma preserves_ret {A} (a : A) : preserves obs (ret a).
Proof. intros w. reflexivity. Qed.

Lemma preserves_lift {A} (r : res A) : preserves obs (lift r).
Proof. intros w. reflexivity. Qed.

Lemma preserves_gets {A} (f : World -> A) : preserves obs (gets f).
Proof. intros w. reflexivity. Qed.

Lemma preserves_modify (f : World -> World) :
  (forall w, obs (f w) = obs w) -> preserves obs (modify f).
Proof. intros H w. apply H. Qed.

End Preserves.

Lemma preserves_apply {A X} (obs : World -> X) (m : M A) (w : World) :
  preserves obs m -> obs (snd (m w)) = obs w.
Proof. intros H. apply H. Qed.

Lemma toObject_preserves_storage : preserves storage toObject.
Proof. intros w. apply keeps_outside_toObject. Qed.

Lemma toObject_preserves_calls : preserves calls toObject.
Proof. intros w. apply keeps_outside_toObject. Qed.

(** ** Building the registry reads the registry and the document only *)

Lemma registry_fn_bind {A B} (m : M A) (f : A -> M B) :
  registry_fn m -> (forall a, registry_fn (f a)) -> registry_fn (bind m f).
Proof.
  intros Hm Hf w v Hwv. unfold bind.
  destruct (Hm w v Hwv) as [H1 H2].
  destruct (m w) as [[a|e] w1], (m v) as [[b|e'] v1]; simpl in *;
    try discriminate.
  - injection H1 as ->. now apply Hf.
  - injection H1 as ->. split; [reflexivity|assumption].
Qed.

Lemma registry_fn_ret {A} (a : A) : registry_fn (ret a).
Proof. intros w v H. now split. Qed.

Lemma registry_fn_lift {A} (r : res A) : registry_fn (lift r).
Proof. intros w v H. now split. Qed.

Lemma registry_fn_gets_providers : registry_fn (gets providers).
Proof. intros w v H. split; [|exact H]. simpl. f_equal. apply H. Qed.

Lemma registry_fn_gets_prvKeys : registry_fn (gets prvKeys).
Proof. intros w v H. split; [|exact H]. simpl. f_equal. apply H. Qed.

Lemma registry_fn_gets_data :
  registry_fn (gets (fun w => ClearURLsData (storage w))).
Proof. intros w v H. split; [|exact H]. simpl. f_equal. apply H. Qed.

Lemma registry_fn_set_providers (g : list Provider -> list Provider) :
  registry_fn (modify (fun w => set_providers (g (providers w)) w)).
Proof.
  intros w v (H1 & H2 & H3). split; [reflexivity|].
  repeat split; simpl; congruence.
Qed.

Lemma registry_fn_set_prvKeys (g : list string -> list string) :
  registry_fn (modify (fun w => set_prvKeys (g (prvKeys w)) w)).
Proof.
  intros w v (H1 & H2 & H3). split; [reflexivity|].
  repeat split; simpl; congruence.
Qed.

Lemma registry_fn_update_provider (p : nat) (f : Provider -> res Provider) :
  registry_fn (update_provider p f).
Proof.
  unfold update_provider.
  apply registry_fn_bind; [apply registry_fn_gets_providers|].
  intros ps. destruct (nth_error ps p); [|apply registry_fn_lift].
  apply registry_fn_bind; [apply registry_fn_lift|].
  intros q. apply (registry_fn_set_providers (set_nth p q)).
Qed.

Lemma registry_fn_add_all (f : string -> bool -> Provider -> Provider)
      (p : nat) :
  forall l, registry_fn (add_all f l p).
Proof.
  induction l as [|x l IH]; simpl.
  - apply registry_fn_ret.
  - apply registry_fn_bind; [apply registry_fn_update_provider|].
    intros _. exact IH.
Qed.

Lemma registry_fn_createProvider (data : datav) (p : nat) (key : string) :
  registry_fn (createProvider data p key).
Proof.
  unfold createProvider.
  destruct (data_providers data) as [provs|]; [|apply registry_fn_lift].
  destruct (lookup_spec key provs) as [sp|]; [|apply registry_fn_lift].
  apply registry_fn_bind.
  { apply (registry_fn_set_providers (fun ps => ps ++ [_])). }
  intros _.
  repeat (apply registry_fn_bind; [|intros _]);
    first [ apply registry_fn_update_provider
          | apply registry_fn_add_all ].
Qed.

Lemma registry_fn_createProviders_loop (data : datav) :
  forall keys p, registry_fn (createProviders_loop data p keys).
Proof.
  induction keys as [|k keys IH]; intros p; simpl.
  - apply registry_fn_ret.
  - apply registry_fn_bind; [apply registry_fn_createProvider|].
    intros _. apply IH.
Qed.

Lemma registry_fn_toObject : registry_fn toObject.
Proof.
  unfold toObject, createProviders, getKeys.
  apply registry_fn_bind; [apply registry_fn_gets_data|]. intros data.
  apply registry_fn_bind.
  { apply (registry_fn_set_prvKeys (fun ks => ks ++ _)). }
  intros _.
  apply registry_fn_bind; [apply registry_fn_gets_data|]. intros d.
  apply registry_fn_bind; [apply registry_fn_gets_prvKeys|]. intros ks.
  apply registry_fn_createProviders_loop.
Qed.

(** ** The rule update *)

Lemma fetched_call (c : HostCall) (w : World) :
  fetched (call c w) =
  fetched w ++ match c with Fetch u => [u] | _ => [] end.
Proof.
  unfold fetched, call. simpl. rewrite flat_map_app. simpl.
  now rewrite app_nil_r.
Qed.

Lemma preserves_calls_fetched {A} (m : M A) :
  preserves calls m -> preserves fetched m.
Proof. intros H w. unfold fetched. now rewrite H. Qed.

Lemma storeHashStatus_preserves_fetched (n : nat) :
  preserves fetched (storeHashStatus n).
Proof. intros w. reflexivity. Qed.

Lemma saveOnDisk_preserves_fetched (keys : list string) :
  preserves fetched (saveOnDisk keys).
Proof.
  intros w. unfold saveOnDisk, modify. simpl.
  rewrite fetched_call. apply app_nil_r.
Qed.

Lemma checkResponse_preserves_fetched (T : Tools) (ok : bool)
      (text : string) :
  preserves fetched (checkResponse T ok text).
Proof.
  unfold checkResponse.
  destruct (ok && negb (str_eqb (trim T (HStr text)) EmptyString));
    [|apply preserves_ret].
  apply preserves_bind; [apply preserves_gets|]. intros dh.
  apply preserves_bind.
  { destruct (str_eqb _ _).
    - apply preserves_bind; [now apply preserves_modify|].
      intros _. apply storeHashStatus_preserves_fetched.
    - apply storeHashStatus_preserves_fetched. }
  intros _. apply preserves_bind; [apply preserves_gets|]. intros data.
  apply preserves_bind; [apply preserves_lift|]. intros parsed.
  apply preserves_bind; [now apply preserves_modify|]. intros _.
  apply preserves_bind.
  { apply preserves_calls_fetched, toObject_preserves_calls. }
  intros _. apply saveOnDisk_preserves_fetched.
Qed.

Lemma checkResponse_mismatch (T : Tools) (text : string) (w : World) :
  trim T (HStr text) <> EmptyString ->
  trim T (HStr (sha256 T text)) <> trim T (dataHash w) ->
  hashStatus (storage (snd (checkResponse T true text w)))
  = Some hash_mismatch.
Proof.
  intros Hne Hdiff. unfold checkResponse.
  apply str_eqb_neq in Hne. rewrite Hne. simpl.
  apply str_eqb_neq in Hdiff.
  unfold bind at 1. unfold gets at 1. rewrite Hdiff.
  unfold bind at 1. unfold storeHashStatus at 1. unfold modify at 1.
  set (w1 := set_storage _ w).
  assert (Hw1 : hashStatus (storage w1) = Some hash_mismatch)
    by reflexivity.
  rewrite <- Hw1.
  apply (@preserves_apply _ _ (fun v => hashStatus (storage v))).
  apply preserves_bind; [apply preserves_gets|]. intros data.
  apply preserves_bind; [apply preserves_lift|]. intros parsed.
  apply preserves_bind; [now apply preserves_modify|]. intros _.
  apply preserves_bind.
  { intros v. now rewrite toObject_preserves_storage. }
  intros _. now apply preserves_modify.
Qed.

Lemma getHash_step (T : Tools) (net : Network) (w : World) (body : string) :
  net (hashURL (storage w)) = Response true body ->
  trim T (HStr body) <> EmptyString ->
  let w2 := set_dataHash (HStr body) (call (Fetch (hashURL (storage w))) w) in
  getHash T net w =
  if negb (str_eqb (trim T (HStr body)) (trim T (localDataHash w)))
  then fetchFromURL T net w2
  else (toObject ;;; storeHashStatus 1 ;;; saveOnDisk ["hashStatus"]) w2.
Proof.
  intros Hnet Hne w2. unfold getHash.
  unfold bind at 1. unfold gets at 1.
  unfold bind at 1. unfold modify at 1.
  change (hashURL (storage (call (Fetch (hashURL (storage w))) w)))
    with (hashURL (storage w)).
  rewrite Hnet. apply str_eqb_neq in Hne. rewrite Hne. simpl.
  unfold bind at 1. unfold modify at 1.
  unfold bind at 1. unfold gets at 1.
  unfold bind at 1. unfold gets at 1.
  fold w2.
  change (dataHash w2) with (HStr body).
  change (localDataHash w2) with (localDataHash w).
  now destruct (str_eqb (trim T (HStr body)) (trim T (localDataHash w))).
Qed.

Lemma fetchFromURL_fetched (T : Tools) (net : Network) (w : World) :
  fetched (snd (fetchFromURL T net w)) = fetched w ++ [ruleURL (storage w)].
Proof.
  unfold fetchFromURL.
  unfold bind at 1. unfold gets at 1.
  unfold bind at 1. unfold modify at 1.
  destruct (net (ruleURL (storage w))) as [|ok text].
  - simpl. apply fetched_call.
  - rewrite (checkResponse_preserves_fetched T ok text). apply fetched_call.
Qed.

(** C8, as stated, fails when the hash endpoint is down: no status is
    recorded (the one of the previous session stays) and the registry is not
    built from the cached document. *)
Lemma hash_failure_records_nothing :
  let w := Sample.startup in
  let w' := run_getHash SpecTools.tools Sample.net_down w in
  hashStatus (storage w) = Some updated
  /\ hashStatus (storage w') = Some updated
  /\ hashStatus (storage w') <> Some unavailable
  /\ providers w' = []
  /\ map name (providers (snd (toObject w))) = ["shop"].
Proof. vm_compute. repeat split. discriminate. Qed.

(** C8, amended: if the fetch of the hash fails, or its response is not ok
    or has an empty body after trimming, the update is skipped: nothing is
    downloaded and the storage, with the cached rule-set document and the
    recorded status in it, is left as it was. *)
Theorem hash_failure_skips_update (T : Tools) (net : Network) (w : World) :
  net (hashURL (storage w)) = Rejected
  \/ (exists ok body,
        net (hashURL (storage w)) = Response ok body
        /\ (ok = false \/ trim T (HStr body) = EmptyString)) ->
  let w' := run_getHash T net w in
  fetched w' = fetched w ++ [hashURL (storage w)]
  /\ storage w' = storage w.
Proof.
  intros H w'. subst w'. unfold run_getHash.
  assert (Hrun : exists h,
    snd (getHash T net w)
    = set_dataHash h (call (Fetch (hashURL (storage w))) w)).
  { unfold getHash.
    unfold bind at 1. unfold gets at 1.
    unfold bind at 1. unfold modify at 1.
    change (hashURL (storage (call (Fetch (hashURL (storage w))) w)))
      with (hashURL (storage w)).
    destruct H as [H | (ok & body & H & Hbad)]; rewrite H.
    - exists (dataHash w). now destruct w.
    - assert (Hc : ok && negb (str_eqb (trim T (HStr body)) EmptyString)
                   = false).
      { destruct Hbad as [-> | Ht]; [reflexivity|].
        rewrite Ht, str_eqb_refl. apply andb_false_r. }
      rewrite Hc. exists HFalse. reflexivity. }
  destruct Hrun as [h ->]. split; [|reflexivity].
  apply (fetched_call (Fetch (hashURL (storage w))) w).
Qed.

Lemma hash_failure_skips_update_witness :
  let w := Sample.startup in
  let w' := run_getHash SpecTools.tools Sample.net_down w in
  fetched w' = fetched w ++ [hashURL (storage w)] /\ storage w' = storage w.
Proof.
  intros w w'.
  apply (hash_failure_skips_update SpecTools.tools Sample.net_down w).
  right. exists false, EmptyString. split; [reflexivity|]. now left.
Defined.

(** ** Exceptions on the request path *)

Lemma total_bind {A B} (m : M A) (f : A -> M B) :
  total m -> (forall a, total (f a)) -> total (bind m f).
Proof.
  intros Hm Hf w. unfold bind.
  destruct (Hm w) as (a & w1 & ->). apply Hf.
Qed.

Lemma total_ret {A} (a : A) : total (ret a).
Proof. intros w. now exists a, w. Qed.

Lemma total_gets {A} (f : World -> A) : total (gets f).
Proof. intros w. now exists (f w), w. Qed.

Lemma total_modify (f : World -> World) : total (modify f).
Proof. intros w. now exists tt, (f w). Qed.

Lemma total_lift {A} (r : res A) (a : A) : r = Ok a -> total (lift r).
Proof. intros -> w. now exists a, w. Qed.

Lemma total_when (b : bool) (m : M unit) : total m -> total (when b m).
Proof. intros H. destruct b; [exact H|apply total_ret]. Qed.

Lemma total_pushToLog (a b c : string) : total (pushToLog a b c).
Proof. apply total_modify. Qed.

Lemma total_increaseBadged (quiet : bool) : total (increaseBadged quiet).
Proof. apply total_modify. Qed.

Lemma total_rawRules_pass (quiet : bool) :
  forall rawRules url changes,
    Forall compiles rawRules ->
    total (rawRules_pass quiet rawRules url changes).
Proof.
  induction rawRules as [|r rest IH]; intros url changes Hall; simpl.
  - apply total_ret.
  - inversion Hall as [|? ? [re Hre] Hrest]; subst.
    apply total_bind; [now apply total_lift with re|]. intros re'.
    destruct (negb (str_eqb url (replace_all true re' url))).
    + apply total_bind; [apply total_gets|]. intros logging.
      apply total_bind; [apply total_when, total_pushToLog|]. intros _.
      apply total_bind; [apply total_increaseBadged|]. intros _.
      now apply IH.
    + now apply IH.
Qed.

Lemma total_rules_pass (quiet : bool) (domain : string) :
  forall rules fields fragments changes,
    Forall compiles rules ->
    total (rules_pass quiet domain rules fields fragments changes).
Proof.
  induction rules as [|r rest IH]; intros fields fragments changes Hall;
    simpl.
  - apply total_ret.
  - inversion Hall as [|? ? [re Hre] Hrest]; subst.
    apply total_bind; [now apply total_lift with re|]. intros re1.
    apply total_bind; [now apply total_lift with re|]. intros re2.
    destruct (negb (str_eqb fields (replace_all true re1 fields))
              || negb (str_eqb fragments (replace_all true re2 fragments))).
    + apply total_bind; [apply total_gets|]. intros logging.
      apply total_bind; [apply total_when, total_pushToLog|]. intros _.
      apply total_bind; [apply total_increaseBadged|]. intros _.
      now apply IH.
    + now apply IH.
Qed.

Lemma getRedirection_loop_ok (url : string) :
  forall keys, Forall compiles keys ->
               exists v, getRedirection_loop keys url = Ok v.
Proof.
  induction keys as [|k keys IH]; intros Hall; simpl.
  - now exists JNull.
  - inversion Hall as [|? ? [re Hre] Hrest]; subst.
    rewrite Hre. simpl.
    destruct (exec_from true re 0 url) as [m|]; [|now apply IH].
    destruct (negb (str_eqb k EmptyString)); [|now apply IH].
    now exists (group1 m).
Qed.

Lemma matchURL_ok (p : Provider) (url : string) :
  provider_compiles p -> exists b, matchURL p url = Ok b.
Proof.
  intros (Hpat & _ & _ & _ & Hexc & _). unfold matchURL.
  destruct (urlPattern p) as [r|]; [|congruence].
  destruct (regex_test true r url); [|now exists false].
  unfold matchException.
  destruct (str_eqb url siteBlockedAlert); [now exists false|].
  rewrite (matchException_loop_spec url Hexc). simpl. eauto.
Qed.

Lemma getRules_compiles (refm : bool) (p : Provider) :
  provider_compiles p -> Forall compiles (fst (getRules refm p)).
Proof.
  intros (_ & Hr & _ & Hm & _). unfold getRules.
  destruct refm; simpl; [assumption|].
  rewrite Forall_forall in *. intros x Hx.
  apply obj_keys_In in Hx. destruct Hx as [Hx Hp].
  apply obj_assign_In in Hx.
  destruct Hx as [Hx|[Hx _]]; [apply Hr|apply Hm]; apply obj_keys_In;
    now split.
Qed.

Lemma total_removeFieldsFormURL (T : Tools) (p : Provider) (url : string)
      (quiet : bool) (w : World) :
  tools_total T -> provider_compiles p ->
  exists r w',
    removeFieldsFormURL T p url quiet w
    = (Ok r, snd (getRules (referralMarketing (storage w)) p), w').
Proof.
  intros [Hlocal Hdec] Hp. unfold removeFieldsFormURL. cbv zeta.
  set (refm := referralMarketing (storage w)).
  pose proof (getRules_compiles refm Hp) as Hrules.
  assert (Hraw : Forall compiles (getRawRules (snd (getRules refm p)))).
  { destruct Hp as (_ & _ & H & _). unfold getRules.
    now destruct refm. }
  assert (Hred : Forall compiles
                   (obj_keys (enabled_redirections (snd (getRules refm p))))).
  { destruct Hp as (_ & _ & _ & _ & _ & H). unfold getRules.
    now destruct refm. }
  destruct (getRules refm p) as [rules q]. cbn [fst snd] in *.
  match goal with
  | |- exists r w', (fst (?m w), _, snd (?m w)) = _ =>
      assert (Ht : total m); [|destruct (Ht w) as (a & w' & E); rewrite E;
                                now exists a, w']
  end.
  apply total_bind; [apply total_gets|]. intros skipping.
  apply total_bind.
  { destruct skipping; [|apply total_ret].
    destruct (Hlocal url) as [b Hb]. now apply total_lift with b. }
  intros [|]; [apply total_ret|].
  apply total_bind; [now apply total_rawRules_pass|]. intros [url1 ch].
  destruct (getRedirection_loop_ok url1 Hred) as [v Hv].
  apply total_bind; [now apply total_lift with v|]. intros re.
  assert (Hredirect : forall v',
    total (u <- lift (decodeURL T v') ;;
           when (negb quiet)
                (pushToLog url u (translate T "log_redirect")) ;;;
           ret (Redirect u))).
  { intros v'. destruct (Hdec v') as [s Hs].
    apply total_bind; [now apply total_lift with s|]. intros u.
    apply total_bind; [apply total_when, total_pushToLog|]. intros _.
    apply total_ret. }
  destruct re as [| |s]; [|apply Hredirect|apply Hredirect].
  apply total_bind.
  { match goal with |- total (if ?c then _ else _) => destruct c end.
    - apply total_bind; [now apply total_rules_pass|].
      intros [[f g] c]. apply total_ret.
    - apply total_ret. }
  intros [u c].
  apply total_bind; [apply total_gets|]. intros blocking.
  destruct (isCaneling q && blocking); [|apply total_ret].
  apply total_bind; [apply total_when, total_pushToLog|]. intros _.
  apply total_bind; [apply total_increaseBadged|]. intros _.
  apply total_ret.
Qed.

Lemma total_providers_loop (T : Tools) (request : Request) :
  tools_total T ->
  forall todo i result,
    Forall provider_compiles todo ->
    total (providers_loop T request i todo result).
Proof.
  intros HT. induction todo as [|p rest IH]; intros i result Hall; simpl.
  - apply total_ret.
  - inversion Hall as [|? ? Hp Hrest]; subst.
    destruct (matchURL_ok (req_url request) Hp) as [b Hb].
    apply total_bind; [now apply total_lift with b|]. intros matched.
    apply total_bind.
    { destruct matched; [|apply total_ret]. intros w.
      destruct (total_removeFieldsFormURL (req_url request) false w HT Hp)
        as (r & w' & E).
      unfold on_provider. rewrite E. simpl. eauto. }
    intros res.
    destruct res as [changes url cancel|url].
    + destruct cancel.
      * destruct (str_eqb (req_type request) "main_frame");
          [|apply total_ret].
        apply total_bind; [apply total_modify|]. intros _. apply total_ret.
      * destruct changes; [apply total_ret|]. now apply IH.
    + destruct (shouldForceRedirect p
                && str_eqb (req_type request) "main_frame");
        [|apply total_ret].
      apply total_bind; [apply total_modify|]. intros _. apply total_ret.
Qed.

(** C7, as stated, fails: a raw rule that is not a pattern makes the
    RegExp constructor throw inside [removeFieldsFormURL], and nothing on the
    way out of [clearUrl] catches the exception. *)
Lemma clearUrl_throws_on_broken_rule :
  RegExp "(" = Throw SyntaxError
  /\ getRawRules Sample.broken = ["("]
  /\ fst (clearUrl SpecTools.tools
            (Sample.main_frame "https://site.example/")
            (Sample.world [Sample.broken]))
     = Throw SyntaxError.
Proof. vm_compute. repeat split. Qed.

(** C7, amended: when every pattern stored in the providers of the registry
    compiles and the helpers [checkLocalURL] and [decodeURL] do not throw,
    [clearUrl] returns one of the actions [{}], redirect or cancel for every
    request. *)
Theorem clearUrl_returns_action (T : Tools) (request : Request) (w : World) :
  tools_total T ->
  Forall provider_compiles (providers w) ->
  exists (a : Action) (w' : World), clearUrl T request w = (Ok a, w').
Proof.
  intros HT Hall. unfold clearUrl. unfold bind at 1. unfold modify at 1.
  unfold bind at 1. unfold gets at 1.
  set (w1 := call _ w).
  destruct (globalStatus (storage w1)); [|now exists PassThrough, w1].
  destruct (pingBlocking (storage w1) && _).
  - apply total_bind; [apply total_pushToLog|]. intros _.
    apply total_bind; [apply total_increaseBadged|]. intros _.
    apply total_ret.
  - unfold bind, gets.
    now apply total_providers_loop.
Qed.

Lemma tools_lenient_total : tools_total SpecTools.tools_lenient.
Proof.
  split.
  - intros url. eexists. reflexivity.
  - intros v. simpl. unfold SpecTools.decodeURL_lenient.
    destruct (SpecTools.decodeURL v) as [s|e]; [now exists s|].
    destruct v; eauto.
Qed.

Ltac forall_compiles :=
  match goal with
  | |- Forall compiles ?l =>
      let l' := eval vm_compute in l in change (Forall compiles l')
  end;
  repeat (apply Forall_cons; [eexists; vm_compute; reflexivity|]);
  apply Forall_nil.

Ltac prove_compiles :=
  unfold provider_compiles;
  repeat match goal with |- _ /\ _ => split end;
  [ vm_compute; discriminate | forall_compiles .. ].

Lemma clearUrl_returns_action_witness :
  exists (a : Action) (w' : World),
    clearUrl SpecTools.tools_lenient
             (Sample.main_frame "https://shop.example/cart?utm_source=mail")
             (Sample.world [Sample.search; Sample.shop])
    = (Ok a, w').
Proof.
  apply clearUrl_returns_action.
  - exact tools_lenient_total.
  - apply Forall_cons; [prove_compiles|].
    apply Forall_cons; [prove_compiles|]. apply Forall_nil.
Defined.

Example clearUrl_cleans_shop_link :
  fst (clearUrl SpecTools.tools
         (Sample.main_frame "https://shop.example/cart?utm_source=mail&id=7")
         (Sample.world [Sample.search; Sample.shop]))
  = Ok (RedirectUrl "https://shop.example/cart?id=7").
Proof. vm_compute. reflexivity. Qed.

(** ** When a run reports no change *)

Lemma bind_ok_inv {A B} (m : M A) (f : A -> M B) (w w' : World) (b : B) :
  bind m f w = (Ok b, w') ->
  exists a w1, m w = (Ok a, w1) /\ f a w1 = (Ok b, w').
Proof.
  unfold bind. destruct (m w) as [[a|e] w1]; intros H.
  - now exists a, w1.
  - discriminate.
Qed.

Lemma lift_ok_inv {A} (r : res A) (w w' : World) (a : A) :
  lift r w = (Ok a, w') -> r = Ok a /\ w' = w.
Proof. unfold lift. intros H. injection H as -> ->. now split. Qed.

Lemma rawRules_pass_fixed (quiet : bool) (url : string) :
  forall rawRules changes w,
    raw_rules_fixed rawRules url ->
    rawRules_pass quiet rawRules url changes w = (Ok (url, changes), w).
Proof.
  induction rawRules as [|rule rest IH]; intros changes w Hfix; simpl.
  - reflexivity.
  - inversion Hfix as [|? ? (r & Hr & Hsame) Hrest]; subst.
    unfold bind, lift. rewrite Hr, Hsame, str_eqb_refl. simpl.
    now apply IH.
Qed.

Lemma rawRules_pass_changed (quiet : bool) :
  forall rawRules url w u c w',
    rawRules_pass quiet rawRules url true w = (Ok (u, c), w') -> c = true.
Proof.
  induction rawRules as [|rule rest IH]; intros url w u c w' H; simpl in H.
  - unfold ret in H. congruence.
  - apply bind_ok_inv in H. destruct H as (r & w1 & _ & H).
    destruct (negb (str_eqb url (replace_all true r url))).
    + apply bind_ok_inv in H. destruct H as (? & ? & _ & H).
      apply bind_ok_inv in H. destruct H as (? & ? & _ & H).
      apply bind_ok_inv in H. destruct H as (? & ? & _ & H).
      eapply IH; eassumption.
    + eapply IH; eassumption.
Qed.

Lemma rawRules_pass_unchanged (quiet : bool) :
  forall rawRules url changes w u w',
    rawRules_pass quiet rawRules url changes w = (Ok (u, false), w') ->
    raw_rules_fixed rawRules url.
Proof.
  induction rawRules as [|rule rest IH]; intros url changes w u w' H;
    simpl in H.
  - constructor.
  - apply bind_ok_inv in H. destruct H as (r & w1 & Hr & H).
    apply lift_ok_inv in Hr. destruct Hr as [Hr ->].
    destruct (str_eqb url (replace_all true r url)) eqn:E; simpl in H.
    + apply str_eqb_eq in E. rewrite <- E in H.
      constructor; [|eapply IH; eassumption].
      exists r. split; [assumption|now symmetry].
    + apply bind_ok_inv in H. destruct H as (? & ? & _ & H).
      apply bind_ok_inv in H. destruct H as (? & ? & _ & H).
      apply bind_ok_inv in H. destruct H as (? & ? & _ & H).
      apply rawRules_pass_changed in H. discriminate.
Qed.

Lemma rules_pass_fixed (quiet : bool) (domain fields fragments : string) :
  forall rules changes w,
    field_rules_fixed rules fields fragments ->
    rules_pass quiet domain rules fields fragments changes w
    = (Ok (fields, fragments, changes), w).
Proof.
  induction rules as [|rule rest IH]; intros changes w Hfix; simpl.
  - reflexivity.
  - inversion Hfix as [|? ? (r & Hr & Hf & Hg) Hrest]; subst.
    unfold bind, lift. rewrite Hr, Hf, Hg, !str_eqb_refl. simpl.
    now apply IH.
Qed.

Lemma rules_pass_changed (quiet : bool) (domain : string) :
  forall rules fields fragments w f g c w',
    rules_pass quiet domain rules fields fragments true w
    = (Ok (f, g, c), w') -> c = true.
Proof.
  induction rules as [|rule rest IH]; intros fields fragments w f g c w' H;
    simpl in H.
  - unfold ret in H. congruence.
  - apply bind_ok_inv in H. destruct H as (r & w1 & _ & H).
    apply bind_ok_inv in H. destruct H as (r2 & w2 & _ & H).
    destruct (negb (str_eqb fields (replace_all true r fields))
              || negb (str_eqb fragments (replace_all true r2 fragments))).
    + apply bind_ok_inv in H. destruct H as (? & ? & _ & H).
      apply bind_ok_inv in H. destruct H as (? & ? & _ & H).
      apply bind_ok_inv in H. destruct H as (? & ? & _ & H).
      eapply IH; eassumption.
    + eapply IH; eassumption.
Qed.

Lemma rules_pass_unchanged (quiet : bool) (domain : string) :
  forall rules fields fragments changes w f g w',
    rules_pass quiet domain rules fields fragments changes w
    = (Ok (f, g, false), w') ->
    field_rules_fixed rules fields fragments.
Proof.
  induction rules as [|rule rest IH];
    intros fields fragments changes w f g w' H; simpl in H.
  - constructor.
  - apply bind_ok_inv in H. destruct H as (r & w1 & Hr & H).
    apply lift_ok_inv in Hr. destruct Hr as [Hr ->].
    apply bind_ok_inv in H. destruct H as (r2 & w2 & Hr2 & H).
    apply lift_ok_inv in Hr2. destruct Hr2 as [Hr2 ->].
    assert (r2 = r) by congruence. subst r2.
    destruct (str_eqb fields (replace_all true r fields)) eqn:E1;
      destruct (str_eqb fragments (replace_all true r fragments)) eqn:E2;
      simpl in H.
    1: { apply str_eqb_eq in E1. apply str_eqb_eq in E2.
         rewrite <- E1, <- E2 in H.
         constructor; [|eapply IH; eassumption].
         exists r. repeat split; [assumption|now symmetry|now symmetry]. }
    all: apply bind_ok_inv in H; destruct H as (? & ? & _ & H);
      apply bind_ok_inv in H; destruct H as (? & ? & _ & H);
      apply bind_ok_inv in H; destruct H as (? & ? & _ & H);
      apply rules_pass_changed in H; discriminate.
Qed.

Lemma getRules_rawRules (refm : bool) (p : Provider) :
  getRawRules (snd (getRules refm p)) = getRawRules p.
Proof. unfold getRules. now destruct refm. Qed.

Lemma gets_ok_inv {A} (f : World -> A) (w w' : World) (a : A) :
  gets f w = (Ok a, w') -> a = f w /\ w' = w.
Proof. unfold gets. intros H. injection H as <- <-. now split. Qed.

(** C1, amended: a run of [removeFieldsFormURL] that returns a cleaning
    result reports no change exactly when the local host bypass applies, or
    when no raw rule alters the URL and no field rule alters its query text
    or its fragment text.  This holds of a run on any URL, in particular on
    the URL returned by an earlier run; one run does not establish it for
    the next. *)
Theorem no_change_iff_rules_fixed (T : Tools) (p p' : Provider)
        (url out : string) (quiet changes cancel : bool) (w w' : World) :
  removeFieldsFormURL T p url quiet w
  = (Ok (Cleaned changes out cancel), p', w') ->
  (changes = false <->
   (localHostsSkipping (storage w) = true /\ checkLocalURL T url = Ok true)
   \/ (raw_rules_fixed (getRawRules p) url
       /\ ((query_text T url = EmptyString
            /\ fragment_text T url = EmptyString)
           \/ field_rules_fixed
                (fst (getRules (referralMarketing (storage w)) p))
                (query_text T url) (fragment_text T url)))).
Proof.
  intros H. unfold removeFieldsFormURL in H. cbv zeta in H.
  apply run_inv in H. destruct H as [H _].
  pose proof (getRules_rawRules (referralMarketing (storage w)) p) as Hrr.
  destruct (getRules (referralMarketing (storage w)) p) as [rules q].
  cbn [fst snd] in *.
  apply bind_ok_inv in H. destruct H as (skipping & w0 & Hs & H).
  apply gets_ok_inv in Hs. destruct Hs as [-> ->].
  apply bind_ok_inv in H. destruct H as (isLocal & w1 & Hloc & H).
  assert (Hlocal : isLocal = true <->
            localHostsSkipping (storage w) = true
            /\ checkLocalURL T url = Ok true).
  { destruct (localHostsSkipping (storage w)).
    - apply lift_ok_inv in Hloc. destruct Hloc as [Hloc _]. rewrite Hloc.
      split; [intros ->; now split|intros [_ E]; congruence].
    - unfold ret in Hloc. injection Hloc as <- _.
      split; [discriminate|intros [E _]; discriminate]. }
  assert (Hw1 : w1 = w).
  { destruct (localHostsSkipping (storage w)).
    - now apply lift_ok_inv in Hloc.
    - unfold ret in Hloc. congruence. }
  subst w1.
  destruct isLocal.
  - unfold ret in H. injection H as <- _ _ _.
    split; [intros _; left; now apply Hlocal|reflexivity].
  - apply bind_ok_inv in H. destruct H as ([url1 ch] & w2 & Hraw & H).
    rewrite Hrr in Hraw.
    apply bind_ok_inv in H. destruct H as (re & w3 & Hre & H).
    apply lift_ok_inv in Hre. destruct Hre as [Hre ->].
    destruct re as [| |s].
    2,3: apply bind_ok_inv in H; destruct H as (? & ? & _ & H);
         apply bind_ok_inv in H; destruct H as (? & ? & _ & H);
         unfold ret in H; discriminate.
    apply bind_ok_inv in H. destruct H as ([u c] & w4 & Hpass & H).
    apply bind_ok_inv in H. destruct H as (blocking & w5 & _ & H).
    assert (Hc : c = changes).
    { destruct (isCaneling q && blocking).
      - apply bind_ok_inv in H. destruct H as (? & ? & _ & H).
        apply bind_ok_inv in H. destruct H as (? & ? & _ & H).
        unfold ret in H. congruence.
      - unfold ret in H. congruence. }
    subst c. clear H.
    split.
    + intros ->. right.
      assert (Hch : ch = false).
      { destruct ch; [|reflexivity].
        destruct (negb (str_eqb (query_text T url1) EmptyString)
                  || negb (str_eqb (fragment_text T url1) EmptyString)).
        - apply bind_ok_inv in Hpass.
          destruct Hpass as ([[f g] c] & ? & Hp & Hret).
          apply rules_pass_changed in Hp. subst c.
          unfold ret in Hret. discriminate.
        - unfold ret in Hpass. discriminate. }
      subst ch.
      pose proof (rawRules_pass_unchanged _ _ _ _ _ Hraw) as Hfix.
      rewrite (rawRules_pass_fixed quiet false w Hfix) in Hraw.
      injection Hraw as <- _.
      split; [assumption|].
      destruct (str_eqb (query_text T url) EmptyString) eqn:E1;
        destruct (str_eqb (fragment_text T url) EmptyString) eqn:E2;
        simpl in Hpass.
      1: { left. split; now apply str_eqb_eq. }
      all: right; apply bind_ok_inv in Hpass;
        destruct Hpass as ([[f g] c] & ? & Hp & Hret);
        unfold ret in Hret; injection Hret as _ -> _;
        eapply rules_pass_unchanged; eassumption.
    + intros [Hl | [Hfix Hfields]].
      { apply Hlocal in Hl. discriminate. }
      rewrite (rawRules_pass_fixed quiet false w Hfix) in Hraw.
      injection Hraw as <- <- <-.
      destruct Hfields as [[E1 E2] | Hff].
      * rewrite E1, E2 in Hpass. simpl in Hpass.
        unfold ret in Hpass. congruence.
      * destruct (negb (str_eqb (query_text T url) EmptyString)
                  || negb (str_eqb (fragment_text T url) EmptyString)).
        -- unfold bind in Hpass.
           rewrite (rules_pass_fixed quiet (extract_domain T url)
                      false w Hff) in Hpass.
           unfold ret in Hpass. congruence.
        -- unfold ret in Hpass. congruence.
Qed.

Lemma no_change_iff_rules_fixed_witness :
  let T := SpecTools.tools in
  let p := Sample.tracker in
  let url := "https://site.example/" in
  let w := Sample.world [p] in
  (localHostsSkipping (storage w) = true /\ checkLocalURL T url = Ok true)
  \/ (raw_rules_fixed (getRawRules p) url
      /\ ((query_text T url = EmptyString
           /\ fragment_text T url = EmptyString)
          \/ field_rules_fixed
               (fst (getRules (referralMarketing (storage w)) p))
               (query_text T url) (fragment_text T url))).
Proof.
  intros T p url w.
  assert (H : removeFieldsFormURL T p url false w
              = (Ok (Cleaned false url false), p, w))
    by (vm_compute; reflexivity).
  exact (proj1 (no_change_iff_rules_fixed H) eq_refl).
Defined.

(** C1, as stated, fails: cutting the matches of a raw rule out of a URL can
    bring a new match together, which the second run then removes and
    reports as a change. *)
Lemma second_run_changes_again :
  let T := SpecTools.tools in
  let p := Sample.tracker in
  let w := Sample.world [p] in
  let w1 := snd (removeFieldsFormURL T p "https://site.example/ttrackrack"
                   false w) in
  getRawRules p = ["track"]
  /\ fst (removeFieldsFormURL T p "https://site.example/ttrackrack" false w)
     = (Ok (Cleaned true "https://site.example/track" false), p)
  /\ fst (removeFieldsFormURL T p "https://site.example/track" false w1)
     = (Ok (Cleaned true "https://site.example/" false), p).
Proof. vm_compute. repeat split. Qed.

(** ** The matcher finds only what the pattern describes *)

Lemma sapp_assoc (a b c : string) : (a +++ b) +++ c = a +++ (b +++ c).
Proof. induction a as [|x a IH]; simpl; [reflexivity|now rewrite IH]. Qed.

Lemma sapp_nil_r (a : string) : a +++ EmptyString = a.
Proof. induction a as [|x a IH]; simpl; [reflexivity|now rewrite IH]. Qed.

Lemma slength_app (a b : string) :
  String.length (a +++ b) = String.length a + String.length b.
Proof. induction a as [|x a IH]; simpl; [reflexivity|now rewrite IH]. Qed.

Lemma star_loop_sound (ic : bool) (r : regex)
      (body : nat -> string -> captures -> cont -> option mstate) :
  sound_for ic r body ->
  forall (k : cont) n pos s caps x,
    star_loop body k n pos s caps = Some x ->
    exists s1 s2 caps',
      s = s1 +++ s2 /\ matches ic (RStar r) s1
      /\ k (pos + String.length s1) s2 caps' = Some x.
Proof.
  unfold sound_for. intros Hbody k.
  assert (Hstop : forall pos s caps x,
            k pos s caps = Some x ->
            exists s1 s2 caps',
              s = s1 +++ s2 /\ matches ic (RStar r) s1
              /\ k (pos + String.length s1) s2 caps' = Some x).
  { intros pos s caps x Hk. exists EmptyString, s, caps. simpl.
    rewrite Nat.add_0_r. repeat split; [constructor|assumption]. }
  induction n as [|n IH]; intros pos s caps x H; simpl in H.
  - eapply Hstop; exact H.
  - destruct (body pos s caps _) as [y|] eqn:Hb;
      [|eapply Hstop; exact H].
    injection H as ->.
    apply Hbody in Hb. destruct Hb as (s1 & s2 & c1 & -> & Hm & Hk).
    destruct (pos <? pos + String.length s1); [|discriminate].
    apply IH in Hk. destruct Hk as (t1 & t2 & c2 & -> & Hstar & Hk).
    exists (s1 +++ t1), t2, c2. repeat split.
    + now rewrite sapp_assoc.
    + now constructor.
    + now rewrite slength_app, Nat.add_assoc.
Qed.

Lemma rmatch_sound (ic : bool) :
  forall r, sound_for ic r (rmatch ic r).
Proof.
  induction r as [ |c| |neg items| | |a IHa b IHb|a IHa b IHb|n r IH
                 |r IH|r IH|r IH];
    unfold sound_for in *; intros pos s caps k x H; simpl in H.
  - exists EmptyString, s, caps. simpl. rewrite Nat.add_0_r.
    repeat split; [constructor|assumption].
  - destruct s as [|d s']; [discriminate|].
    destruct (canon ic c =? canon ic d) eqn:E; [|discriminate].
    apply Nat.eqb_eq in E.
    exists (String d EmptyString), s', caps. simpl.
    rewrite Nat.add_1_r. repeat split; [now constructor|assumption].
  - destruct s as [|d s']; [discriminate|].
    destruct (is_line_terminator d) eqn:E; [discriminate|].
    exists (String d EmptyString), s', caps. simpl.
    rewrite Nat.add_1_r. repeat split; [now constructor|assumption].
  - destruct s as [|d s']; [discriminate|].
    destruct (class_matches ic neg items d) eqn:E; [|discriminate].
    exists (String d EmptyString), s', caps. simpl.
    rewrite Nat.add_1_r. repeat split; [now constructor|assumption].
  - destruct (pos =? 0); [|discriminate].
    exists EmptyString, s, caps. simpl. rewrite Nat.add_0_r.
    repeat split; [constructor|assumption].
  - destruct s; [|discriminate].
    exists EmptyString, EmptyString, caps. simpl. rewrite Nat.add_0_r.
    repeat split; [constructor|assumption].
  - apply IHa in H. destruct H as (s1 & s2 & c1 & -> & Ha & H).
    apply IHb in H. destruct H as (t1 & t2 & c2 & -> & Hb & H).
    exists (s1 +++ t1), t2, c2. repeat split.
    + now rewrite sapp_assoc.
    + now constructor.
    + now rewrite slength_app, Nat.add_assoc.
  - destruct (rmatch ic a pos s caps k) as [y|] eqn:Ea.
    + injection H as ->. apply IHa in Ea.
      destruct Ea as (s1 & s2 & c1 & -> & Ha & H).
      exists s1, s2, c1. repeat split; [now apply M_alt_l|assumption].
    + apply IHb in H. destruct H as (s1 & s2 & c1 & -> & Hb & H).
      exists s1, s2, c1. repeat split; [now apply M_alt_r|assumption].
  - destruct n as [n|].
    + apply IH in H. destruct H as (s1 & s2 & c1 & -> & Hr & H).
      eexists s1, s2, _. repeat split; [now constructor|exact H].
    + apply IH in H. destruct H as (s1 & s2 & c1 & -> & Hr & H).
      exists s1, s2, c1. repeat split; [now constructor|assumption].
  - eapply star_loop_sound; [|exact H].
    intros p0 s0 c0 k0 y Hy. now apply IH in Hy.
  - apply IH in H. destruct H as (s1 & s2 & c1 & -> & Hr & H).
    eapply star_loop_sound in H.
    2: { intros p0 s0 c0 k0 y Hy. apply IH in Hy. exact Hy. }
    destruct H as (t1 & t2 & c2 & -> & Hstar & H).
    exists (s1 +++ t1), t2, c2. repeat split.
    + now rewrite sapp_assoc.
    + now constructor.
    + now rewrite slength_app, Nat.add_assoc.
  - destruct (rmatch ic r pos s _ _) as [y|] eqn:Er.
    + injection H as ->. apply IH in Er.
      destruct Er as (s1 & s2 & c1 & -> & Hr & H).
      destruct (pos <? pos + String.length s1); [|discriminate].
      exists s1, s2, c1. repeat split; [now apply M_opt_some|assumption].
    + exists EmptyString, s, caps. simpl. rewrite Nat.add_0_r.
      repeat split; [constructor|assumption].
Qed.

Lemma exec_from_sound (ic : bool) (r : regex) :
  forall s pos m,
    exec_from ic r pos s = Some m ->
    exists pre mid post,
      s = pre +++ mid +++ post
      /\ m_start m = pos + String.length pre
      /\ m_end m = m_start m + String.length mid
      /\ matches ic r mid.
Proof.
  assert (Hhere : forall s pos e c,
            rmatch ic r pos s [] (fun e _ c => Some (e, c)) = Some (e, c) ->
            exists pre mid post,
              s = pre +++ mid +++ post
              /\ pos = pos + String.length pre
              /\ e = pos + String.length mid
              /\ matches ic r mid).
  { intros s pos e c H. apply rmatch_sound in H.
    destruct H as (s1 & s2 & c1 & -> & Hm & H). injection H as <- _.
    exists EmptyString, s1, s2. simpl. rewrite Nat.add_0_r. auto. }
  induction s as [|d s IH]; intros pos m H; simpl in H.
  - destruct (rmatch ic r pos EmptyString [] _) as [[e c]|] eqn:E;
      [|discriminate].
    injection H as <-. simpl.
    destruct (Hhere _ _ _ _ E) as (pre & mid & post & H1 & H2 & H3 & H4).
    exists pre, mid, post. repeat split; try assumption.
  - destruct (rmatch ic r pos (String d s) [] _) as [[e c]|] eqn:E.
    + injection H as <-. simpl.
      destruct (Hhere _ _ _ _ E) as (pre & mid & post & H1 & H2 & H3 & H4).
      exists pre, mid, post. repeat split; try assumption.
    + apply IH in H.
      destruct H as (pre & mid & post & -> & H2 & H3 & H4).
      exists (String d pre), mid, post. simpl.
      rewrite Nat.add_succ_r. repeat split; assumption.
Qed.

(** ** The rule stored by [addRule] for a literal field name *)

Lemma parse_from_app (a b : string) :
  forall st,
    parse_from st (a +++ b)
    = res_bind (parse_from st a) (fun st' => parse_from st' b).
Proof.
  induction a as [|c a IH]; intros st; simpl.
  - reflexivity.
  - destruct (step st c) as [st'|e]; simpl; [apply IH|reflexivity].
Qed.

Lemma parse_literal (rest : string) :
  forall r stack g alts seq n q,
    is_literal r = true ->
    parse_from (PState MNormal stack (Frame g alts seq) n q)
               (r +++ String "=" rest)
    = parse_from (PState MNormal stack
                    (Frame g alts (RChar "=" :: lits r seq)) n QAtom) rest.
Proof.
  induction r as [|c r IH]; intros stack g alts seq n q Hlit; simpl.
  - reflexivity.
  - simpl in Hlit. apply andb_prop in Hlit. destruct Hlit as [Hc Hr].
    unfold step, step_normal. simpl. rewrite Hc. simpl.
    unfold push_atom. simpl. now apply IH.
Qed.

Lemma RegExp_wrap_rule (r : string) :
  is_literal r = true -> RegExp (wrap_rule r) = Ok (rule_regex r).
Proof.
  intros Hlit. unfold RegExp, wrap_rule.
  rewrite parse_from_app.
  replace (parse_from init_pstate rule_prefix)
    with (Ok (PState MGroupOpen [] (Frame None [] [sep_regex]) 2 QNone))
    by (vm_compute; reflexivity).
  simpl res_bind. unfold rule_suffix.
  destruct r as [|c r].
  - vm_compute. reflexivity.
  - simpl in Hlit. apply andb_prop in Hlit. destruct Hlit as [Hc Hr].
    assert (Hq : Ascii.eqb c "?" = false).
    { destruct (Ascii.eqb c "?") eqn:E; [|reflexivity].
      apply Ascii.eqb_eq in E. subst c. vm_compute in Hc. discriminate. }
    simpl. unfold step at 1. simpl. rewrite Hq.
    unfold step_normal. simpl. rewrite Hc. simpl.
    unfold push_atom, open_group. simpl.
    rewrite (parse_literal "[^&]*)" r _ _ _ _ _ _ Hr).
    reflexivity.
Qed.

Ltac inv H := inversion H; subst; clear H.

Lemma lits_spec :
  forall r seq, lits r seq = rev (chars_regex r) ++ seq.
Proof.
  induction r as [|c r IH]; intros seq; simpl.
  - reflexivity.
  - now rewrite IH, <- app_assoc.
Qed.

Lemma rule_body_spec (r : string) (a b : regex) :
  rev (a :: b :: lits r []) = chars_regex r ++ [b; a].
Proof.
  rewrite lits_spec, app_nil_r. simpl.
  now rewrite rev_involutive, <- app_assoc.
Qed.

Lemma no_amp_app (a b : string) :
  no_amp (a +++ b) = no_amp a && no_amp b.
Proof.
  induction a as [|c a IH]; simpl; [reflexivity|].
  now rewrite IH, andb_assoc.
Qed.

Lemma value_has_no_amp (v : string) :
  matches true (RStar (RClass true [CChar "&"])) v -> no_amp v = true.
Proof.
  intros H. remember (RStar (RClass true [CChar "&"])) as e eqn:He.
  induction H; try discriminate.
  - reflexivity.
  - injection He as ->. rewrite no_amp_app, IHmatches2 by reflexivity.
    inv H. simpl. rewrite andb_true_r.
    destruct (Ascii.eqb d "&") eqn:E; [|reflexivity].
    apply Ascii.eqb_eq in E. subst d.
    match goal with
    | Hc : class_matches _ _ _ _ = true |- _ =>
        vm_compute in Hc; discriminate
    end.
Qed.

Lemma char_matches (c : ascii) (s : string) :
  matches true (RChar c) s ->
  exists d, s = String d EmptyString /\ canon true c = canon true d.
Proof. intros H. inv H. eauto. Qed.

Lemma seq_matches (a b : regex) (s : string) :
  matches true (RSeq a b) s ->
  exists s1 s2, s = s1 +++ s2 /\ matches true a s1 /\ matches true b s2.
Proof. intros H. inv H. eauto. Qed.

Lemma canon_equals (d : ascii) :
  canon true "=" = canon true d -> d = "="%char.
Proof.
  intros H.
  destruct d as [[|] [|] [|] [|] [|] [|] [|] [|]];
    vm_compute in H; try discriminate; reflexivity.
Qed.

Lemma name_matches (tail : regex) :
  forall r s,
    matches true (mk_seq (chars_regex r ++ [RChar "="; tail])) s ->
    exists name v,
      s = name +++ String "=" v /\ ci_eqb name r = true
      /\ matches true tail v.
Proof.
  induction r as [|c r IH]; intros s H.
  - simpl in H. apply seq_matches in H.
    destruct H as (s1 & s2 & -> & H1 & H2).
    apply char_matches in H1. destruct H1 as (d & -> & Hd).
    apply canon_equals in Hd. subst d.
    exists EmptyString, s2. simpl. repeat split. assumption.
  - assert (E : mk_seq (chars_regex (String c r) ++ [RChar "="; tail])
                = RSeq (RChar c)
                       (mk_seq (chars_regex r ++ [RChar "="; tail]))).
    { simpl. destruct (chars_regex r ++ [RChar "="; tail]) eqn:El;
        [|reflexivity].
      destruct (chars_regex r); discriminate. }
    rewrite E in H. apply seq_matches in H.
    destruct H as (s1 & s2 & -> & H1 & H2).
    apply char_matches in H1. destruct H1 as (d & -> & Hd).
    apply IH in H2. destruct H2 as (name & v & -> & Hci & Hv).
    exists (String d name), v. simpl. repeat split; [|assumption].
    rewrite Hci, andb_true_r. apply Nat.eqb_eq. now symmetry.
Qed.

Lemma alt_matches (a b : regex) (s : string) :
  matches true (RAlt a b) s -> matches true a s \/ matches true b s.
Proof. intros H. inv H; auto. Qed.

Lemma group_matches (n : option nat) (r : regex) (s : string) :
  matches true (RGroup n r) s -> matches true r s.
Proof. intros H. now inv H. Qed.

Lemma class_separator (d : ascii) :
  class_matches true false [CChar "/"; CChar "?"; CChar "#"] d = true ->
  is_separator (String d EmptyString) = true.
Proof.
  intros H.
  destruct d as [[|] [|] [|] [|] [|] [|] [|] [|]];
    vm_compute in H; try discriminate H; vm_compute; reflexivity.
Qed.

Lemma canon_amp (d : ascii) :
  canon true "&" = canon true d -> d = "&"%char.
Proof.
  intros H.
  destruct d as [[|] [|] [|] [|] [|] [|] [|] [|]];
    vm_compute in H; try discriminate; reflexivity.
Qed.

Lemma token_is_separator (x : string) :
  matches true
    (RGroup (Some 1)
       (RAlt (RClass false [CChar "/"; CChar "?"; CChar "#"])
             (RGroup (Some 2)
                (RAlt (RChar "&")
                      (RSeq (RChar "&") (RSeq (RChar "a")
                         (RSeq (RChar "m") (RSeq (RChar "p")
                            (RChar ";"))))))))) x ->
  is_separator x = true.
Proof.
  intros H. apply group_matches, alt_matches in H. destruct H as [H|H].
  - inv H. now apply class_separator.
  - apply group_matches, alt_matches in H. destruct H as [H|H].
    + apply char_matches in H. destruct H as (d & -> & Hd).
      apply canon_amp in Hd. now subst d.
    + apply seq_matches in H. destruct H as (x1 & r1 & -> & H1 & H).
      apply seq_matches in H. destruct H as (x2 & r2 & -> & H2 & H).
      apply seq_matches in H. destruct H as (x3 & r3 & -> & H3 & H).
      apply seq_matches in H. destruct H as (x4 & r4 & -> & H4 & H5).
      apply char_matches in H1. destruct H1 as (d1 & -> & E1).
      apply char_matches in H2. destruct H2 as (d2 & -> & E2).
      apply char_matches in H3. destruct H3 as (d3 & -> & E3).
      apply char_matches in H4. destruct H4 as (d4 & -> & E4).
      apply char_matches in H5. destruct H5 as (d5 & -> & E5).
      unfold is_separator. apply orb_true_iff. right. simpl.
      rewrite <- E1, <- E2, <- E3, <- E4, <- E5. reflexivity.
Qed.

Lemma star_separators (g : regex) :
  (forall x, matches true g x -> is_separator x = true) ->
  forall s, matches true (RStar g) s -> s = EmptyString \/ separators s.
Proof.
  intros Hg s H. remember (RStar g) as e eqn:He.
  induction H; try discriminate.
  - now left.
  - injection He as ->. right.
    destruct (IHmatches2 eq_refl) as [-> | Hs].
    + rewrite sapp_nil_r. apply Sep_one. now apply Hg.
    + apply Sep_more; [now apply Hg|assumption].
Qed.

Lemma sep_regex_separators (x : string) :
  matches true sep_regex x -> separators x.
Proof.
  intros H. unfold sep_regex in H. inv H.
  match goal with
  | H1 : matches true (RGroup _ _) _, H2 : matches true (RStar _) _ |- _ =>
      apply token_is_separator in H1;
      apply (star_separators token_is_separator) in H2;
      destruct H2 as [-> | Hs];
      [rewrite sapp_nil_r; now apply Sep_one | now apply Sep_more]
  end.
Qed.

(** C4, as stated, fails for a name with pattern syntax: the rule stored
    for [a|b] matches the path segment [/a], which no equals sign follows,
    and in a query it cuts [/a] out of the value of another field. *)
Lemma rule_with_alternation_matches_path :
  let p := addRule "a|b" true (Sample.provider "site" "site\.example") in
  let url := "https://site.example/a/b?x=1" in
  fst (getRules true p) = ["([\/\?#]|(&|&amp;))+(a|b=[^&]*)"]
  /\ res_bind (RegExp (wrap_rule "a|b"))
       (fun re => Ok (option_map (fun m => (m_start m, m_end m))
                        (exec_from true re 0 url)))
     = Ok (Some (20, 22))
  /\ take 2 (drop 20 url) = "/a"
  /\ fst (removeFieldsFormURL SpecTools.tools p
            "https://site.example/p?x=/a&y=2" false (Sample.world [p]))
     = (Ok (Cleaned true "https://site.example/p?x=&y=2" false), p).
Proof. vm_compute. repeat split. Qed.

(** C4, amended: for a field name [r] without pattern syntax, the rule that
    [addRule] stores compiles, and every match of it in a text is a
    non-empty run of separators (slash, question mark, hash, ampersand or
    the HTML-escaped ampersand), then [r] up to the case of its letters,
    then an equals sign, then a run of characters without ampersand. *)
Theorem rule_match_is_bounded (r : string) :
  is_literal r = true ->
  RegExp (wrap_rule r) = Ok (rule_regex r)
  /\ (forall p, In (wrap_rule r) (fst (getRules true (addRule r true p))))
  /\ forall url pos m,
       exec_from true (rule_regex r) pos url = Some m ->
       exists pre seps name value post,
         url = pre +++ (seps +++ name +++ String "=" value) +++ post
         /\ m_start m = pos + String.length pre
         /\ m_end m
            = m_start m
              + String.length (seps +++ name +++ String "=" value)
         /\ separators seps
         /\ ci_eqb name r = true
         /\ no_amp value = true.
Proof.
  intros Hlit. split; [now apply RegExp_wrap_rule|]. split.
  - intros p. unfold addRule, applyRule, getRules. simpl.
    apply obj_keys_In. split; [|apply wrap_rule_plain].
    apply obj_set_In. left. split; [reflexivity|apply wrap_rule_plain].
  - intros url pos m H. apply exec_from_sound in H.
    destruct H as (pre & mid & post & -> & Hs & He & Hm).
    unfold rule_regex in Hm. rewrite rule_body_spec in Hm.
    apply seq_matches in Hm. destruct Hm as (seps & body & -> & Hsep & Hb).
    apply group_matches, name_matches in Hb.
    destruct Hb as (name & value & -> & Hci & Hv).
    exists pre, seps, name, value, post.
    repeat split; try assumption.
    + now apply sep_regex_separators.
    + now apply value_has_no_amp.
Qed.

Lemma rule_match_is_bounded_witness :
  RegExp (wrap_rule "utm_source") = Ok (rule_regex "utm_source")
  /\ replace_all true (rule_regex "utm_source")
       "?id=7&amp;UTM_Source=mail&utm_sources=x"
     = "?id=7&utm_sources=x".
Proof.
  split.
  - apply (rule_match_is_bounded "utm_source"). reflexivity.
  - vm_compute. reflexivity.
Defined.

(** ** The substitution loop never runs out of rounds *)

Lemma drop_length (s : string) :
  forall n, String.length (drop n s) = String.length s - n.
Proof.
  induction s as [|c s IH]; intros [|n]; simpl; auto.
Qed.

Lemma exec_from_bounds (ic : bool) (r : regex) (s : string) (pos : nat)
      (m : rmatch_result) :
  exec_from ic r pos s = Some m ->
  pos <= m_start m /\ m_start m <= m_end m
  /\ m_end m <= pos + String.length s.
Proof.
  intros H. apply exec_from_sound in H.
  destruct H as (pre & mid & post & -> & Hs & He & _).
  rewrite !slength_app. lia.
Qed.

(** Any two amounts of fuel above the length of the text give the same
    result: [replace_all] is the loop run to its end. *)
Lemma replace_all_from_fuel (ic : bool) (r : regex) :
  forall f1 f2 s pos,
    String.length s < f1 -> String.length s < f2 ->
    replace_all_from f1 ic r pos s = replace_all_from f2 ic r pos s.
Proof.
  induction f1 as [|f1 IH]; intros f2 s pos H1 H2; [lia|].
  destruct f2 as [|f2]; [lia|]. simpl.
  destruct (exec_from ic r pos s) as [m|] eqn:E; [|reflexivity].
  apply exec_from_bounds in E. destruct E as (Ha & Hb & Hc).
  destruct (m_end m =? m_start m) eqn:Ee.
  - destruct (drop (m_start m - pos) s) as [|c rest] eqn:Ed; [reflexivity|].
    assert (Hl : String.length (drop (m_start m - pos) s)
                 = S (String.length rest)) by now rewrite Ed.
    rewrite drop_length in Hl.
    f_equal. f_equal. apply IH; lia.
  - apply Nat.eqb_neq in Ee. f_equal.
    apply IH; rewrite drop_length; lia.
Qed.

(** * Further properties of the code *)

(** ** Storing and toggling rules *)

Lemma obj_delete_In (k x : string) (o : jsobj) :
  In x (obj_delete k o) <-> x <> k /\ In x o.
Proof.
  unfold obj_delete. rewrite filter_In. split.
  - intros [Hin Hneq]. split; [|assumption].
    intros ->. now rewrite str_eqb_refl in Hneq.
  - intros [Hneq Hin]. split; [assumption|].
    destruct (str_eqb k x) eqn:E; [|reflexivity].
    apply str_eqb_eq in E. congruence.
Qed.

Lemma obj_has_false (k : string) (o : jsobj) :
  obj_has k o = false <-> ~ In k o.
Proof.
  rewrite <- obj_has_In. destruct (obj_has k o); split; congruence.
Qed.

Lemma obj_delete_absent (k : string) (o : jsobj) :
  ~ In k o -> obj_delete k o = o.
Proof.
  intros H. unfold obj_delete. induction o as [|x o IH]; simpl.
  - reflexivity.
  - destruct (str_eqb k x) eqn:E; simpl.
    + apply str_eqb_eq in E. subst. exfalso. apply H. now left.
    + f_equal. apply IH. intros Hin. apply H. now right.
Qed.

Lemma applyRule_enabled (en dis : jsobj) (rule x : string) (b : bool) :
  In x (fst (applyRule en dis rule b))
  <-> if b then (x = rule /\ rule <> proto) \/ In x en
      else x <> rule /\ In x en.
Proof.
  unfold applyRule. destruct b; simpl.
  - apply obj_set_In.
  - destruct (obj_has rule en) eqn:E.
    + apply obj_delete_In.
    + apply obj_has_false in E. split; [|tauto].
      intros H. split; [|assumption]. intros ->. contradiction.
Qed.

Lemma applyRule_disabled (en dis : jsobj) (rule x : string) (b : bool) :
  In x (snd (applyRule en dis rule b))
  <-> if b then x <> rule /\ In x dis
      else (x = rule /\ rule <> proto) \/ In x dis.
Proof.
  unfold applyRule. destruct b; simpl.
  - destruct (obj_has rule dis) eqn:E.
    + apply obj_delete_In.
    + apply obj_has_false in E. split; [|tauto].
      intros H. split; [|assumption]. intros ->. contradiction.
  - apply obj_set_In.
Qed.

Lemma add_op_collections (k : RuleKind) (rule : string) (b : bool)
      (p : Provider) :
  enabled_of k (add_op k rule b p)
  = fst (applyRule (enabled_of k p) (disabled_of k p) (stored_key k rule) b)
  /\ disabled_of k (add_op k rule b p)
     = snd (applyRule (enabled_of k p) (disabled_of k p)
                      (stored_key k rule) b).
Proof.
  destruct k; simpl;
    unfold addRule, addRawRule, addReferralMarketing, addException,
      addRedirection;
    match goal with
    | |- context [applyRule ?e ?d ?r ?a] =>
        destruct (applyRule e d r a) as [en' dis']
    end; split; reflexivity.
Qed.

Lemma add_op_other_kind (k k' : RuleKind) (rule : string) (b : bool)
      (p : Provider) :
  k' <> k ->
  enabled_of k' (add_op k rule b p) = enabled_of k' p
  /\ disabled_of k' (add_op k rule b p) = disabled_of k' p.
Proof.
  intros Hk.
  destruct k, k'; try congruence; simpl;
    unfold addRule, addRawRule, addReferralMarketing, addException,
      addRedirection;
    match goal with
    | |- context [applyRule ?e ?d ?r ?a] =>
        destruct (applyRule e d r a) as [en' dis']
    end; split; reflexivity.
Qed.

(** X1: storing a rule as active puts its key among the keys of the
    enabled collection of its kind and takes it out of the disabled one;
    storing it as inactive does the opposite; every other key of that kind
    stays where it was, and the collections of the other kinds are not
    touched.  The one key that is never stored is [__proto__]. *)
Theorem add_op_moves_rule (k : RuleKind) (rule : string) (b : bool)
        (p : Provider) :
  let key := stored_key k rule in
  (forall x,
      (In x (obj_keys (enabled_of k (add_op k rule b p)))
       <-> if b then (x = key /\ key <> proto)
                     \/ In x (obj_keys (enabled_of k p))
           else x <> key /\ In x (obj_keys (enabled_of k p)))
      /\ (In x (obj_keys (disabled_of k (add_op k rule b p)))
          <-> if b then x <> key /\ In x (obj_keys (disabled_of k p))
              else (x = key /\ key <> proto)
                   \/ In x (obj_keys (disabled_of k p))))
  /\ forall k', k' <> k ->
                enabled_of k' (add_op k rule b p) = enabled_of k' p
                /\ disabled_of k' (add_op k rule b p) = disabled_of k' p.
Proof.
  intros key. split.
  - intros x. destruct (add_op_collections k rule b p) as [-> ->].
    subst key. destruct b; repeat rewrite obj_keys_In;
      rewrite applyRule_enabled, applyRule_disabled;
      intuition congruence.
  - intros k' Hk. now apply add_op_other_kind.
Qed.

Lemma obj_set_NoDup (k : string) (o : jsobj) :
  NoDup o -> NoDup (obj_set k o).
Proof.
  intros H. unfold obj_set. destruct (str_eqb k proto); [assumption|].
  destruct (obj_has k o) eqn:E; [assumption|].
  apply obj_has_false in E.
  apply NoDup_app; [assumption|repeat constructor; intros []|].
  intros x Hx [<-|[]]. contradiction.
Qed.

Lemma obj_delete_NoDup (k : string) (o : jsobj) :
  NoDup o -> NoDup (obj_delete k o).
Proof. intros H. unfold obj_delete. now apply NoDup_filter. Qed.

Lemma applyRule_kept (en dis : jsobj) (rule : string) (b : bool) :
  NoDup en -> NoDup dis -> (forall x, In x en -> ~ In x dis) ->
  NoDup (fst (applyRule en dis rule b))
  /\ NoDup (snd (applyRule en dis rule b))
  /\ forall x, In x (fst (applyRule en dis rule b)) ->
               ~ In x (snd (applyRule en dis rule b)).
Proof.
  intros Hen Hdis Hsep. repeat split.
  - unfold applyRule. destruct b; simpl.
    + now apply obj_set_NoDup.
    + destruct (obj_has rule en); [now apply obj_delete_NoDup|assumption].
  - unfold applyRule. destruct b; simpl.
    + destruct (obj_has rule dis); [now apply obj_delete_NoDup|assumption].
    + now apply obj_set_NoDup.
  - intros x. rewrite applyRule_enabled, applyRule_disabled.
    destruct b.
    + intros [[-> _]|Hx] [Hneq Hd]; [congruence|]. now apply (Hsep x).
    + intros [Hneq Hx] [[-> _]|Hd]; [congruence|]. now apply (Hsep x).
Qed.

Lemma add_op_kept (k : RuleKind) (rule : string) (b : bool) (p : Provider) :
  collections_kept p -> collections_kept (add_op k rule b p).
Proof.
  intros Hp k'. destruct (Hp k') as (Hen & Hdis & Hsep).
  assert (Hdec : k' = k \/ k' <> k) by (destruct k, k'; auto; right;
                                        discriminate).
  destruct Hdec as [->|Hneq].
  - destruct (add_op_collections k rule b p) as [-> ->].
    now apply applyRule_kept.
  - destruct (add_op_other_kind rule b p Hneq) as [-> ->]. auto.
Qed.

(** X2: in a provider made by the constructor and filled by any series of
    [addRule], [addRawRule], [addReferralMarketing], [addException] and
    [addRedirection] calls, no collection holds a key twice and no key is
    both enabled and disabled. *)
Theorem provider_collections_kept (_name : string)
        (_completeProvider _forceRedirection _isActive : bool)
        (ops : list (RuleKind * string * bool)) :
  collections_kept
    (apply_ops ops
       (new_Provider _name _completeProvider _forceRedirection _isActive)).
Proof.
  assert (H0 : collections_kept
                 (new_Provider _name _completeProvider _forceRedirection
                               _isActive)).
  { intros k.
    assert (Hd : disabled_of k
                   (new_Provider _name _completeProvider _forceRedirection
                                 _isActive) = [])
      by (destruct k; reflexivity).
    rewrite Hd. repeat split.
    - destruct k, _completeProvider; cbv; repeat constructor; intros [].
    - constructor.
    - intros x _ []. }
  revert H0. generalize (new_Provider _name _completeProvider
                                      _forceRedirection _isActive).
  induction ops as [|[[k rule] b] ops IH]; intros p Hp; simpl.
  - assumption.
  - apply IH. now apply add_op_kept.
Qed.

Lemma obj_set_twice (k : string) (o : jsobj) :
  obj_set k (obj_set k o) = obj_set k o.
Proof.
  unfold obj_set. destruct (str_eqb k proto) eqn:Ep; [reflexivity|].
  destruct (obj_has k o) eqn:E.
  - now rewrite E.
  - assert (H : obj_has k (o ++ [k]) = true).
    { apply obj_has_In, in_app_iff. right. now left. }
    now rewrite H.
Qed.

Lemma obj_delete_has (k : string) (o : jsobj) :
  obj_has k (obj_delete k o) = false.
Proof. apply obj_has_false. rewrite obj_delete_In. tauto. Qed.

Lemma applyRule_twice (en dis : jsobj) (rule : string) (b : bool) :
  applyRule (fst (applyRule en dis rule b)) (snd (applyRule en dis rule b))
            rule b
  = applyRule en dis rule b.
Proof.
  unfold applyRule. destruct b; simpl.
  - rewrite obj_set_twice.
    f_equal. destruct (obj_has rule dis) eqn:E.
    + now rewrite obj_delete_has.
    + now rewrite E.
  - f_equal.
    + destruct (obj_has rule en) eqn:E.
      * now rewrite obj_delete_has.
      * now rewrite E.
    + apply obj_set_twice.
Qed.

(** X3: storing a rule a second time with the same state changes nothing in
    the provider; in particular a rule that is already enabled keeps its
    place in the order in which the rules are applied. *)
Theorem add_op_twice (k : RuleKind) (rule : string) (b : bool)
        (p : Provider) :
  add_op k rule b (add_op k rule b p) = add_op k rule b p.
Proof.
  pose proof (applyRule_twice (enabled_of k p) (disabled_of k p)
                              (stored_key k rule) b) as Ht.
  destruct k; simpl in Ht; simpl add_op;
    unfold addRule, addRawRule, addReferralMarketing, addException,
      addRedirection;
    match type of Ht with
    | applyRule (fst ?a) _ _ _ = _ => destruct a as [en' dis']
    end;
    cbn [fst snd] in Ht;
    cbn [set_rules set_rawRules set_referralMarketing set_exceptions
         set_redirections enabled_rules disabled_rules enabled_rawRules
         disabled_rawRules enabled_referralMarketing
         disabled_referralMarketing enabled_exceptions disabled_exceptions
         enabled_redirections disabled_redirections];
    rewrite Ht; reflexivity.
Qed.

(** A key that is no array index goes to the end of the listing. *)
Lemma own_keys_snoc (k : string) (l : list string) :
  is_index k = false -> own_keys (l ++ [k]) = own_keys l ++ [k].
Proof.
  intros Hk. unfold own_keys. rewrite !filter_app. simpl. rewrite Hk. simpl.
  now rewrite app_nil_r, app_assoc.
Qed.

Lemma obj_keys_snoc (k : string) (o : jsobj) :
  k <> proto -> is_index k = false ->
  obj_keys (o ++ [k]) = obj_keys o ++ [k].
Proof.
  intros Hp Hk. unfold obj_keys. rewrite filter_app. simpl.
  apply str_eqb_neq in Hp. rewrite Hp. simpl. now apply own_keys_snoc.
Qed.

(** X4: disabling a rule and enabling it again moves it to the end of the
    listing of the enabled collection of its kind, so it is applied after
    the rules that were stored after it.  This is so for a key that is not
    an array index (and not [__proto__]), as every wrapped rule is; an array
    index is listed at the place of its number wherever it was stored. *)
Theorem add_op_off_on_moves_to_end (k : RuleKind) (rule : string)
        (p : Provider) :
  let key := stored_key k rule in
  key <> proto -> is_index key = false ->
  obj_keys (enabled_of k (add_op k rule true (add_op k rule false p)))
  = obj_keys (obj_delete key (enabled_of k p)) ++ [key].
Proof.
  intros key Hp Hk.
  destruct (add_op_collections k rule true (add_op k rule false p))
    as [-> _].
  destruct (add_op_collections k rule false p) as [-> _].
  unfold applyRule. simpl. fold key.
  assert (E : (if obj_has key (enabled_of k p)
               then obj_delete key (enabled_of k p)
               else enabled_of k p)
              = obj_delete key (enabled_of k p)).
  { destruct (obj_has key (enabled_of k p)) eqn:E; [reflexivity|].
    symmetry. now apply obj_delete_absent, obj_has_false. }
  rewrite E. unfold obj_set. rewrite obj_delete_has.
  apply str_eqb_neq in Hp. rewrite Hp. apply str_eqb_neq in Hp.
  now apply obj_keys_snoc.
Qed.

Lemma add_op_off_on_moves_to_end_witness :
  let p := addRule "b" true (addRule "a" true
             (new_Provider "shop" false false true)) in
  obj_keys (enabled_rules p) = [wrap_rule "a"; wrap_rule "b"]
  /\ obj_keys (enabled_rules (addRule "a" true (addRule "a" false p)))
     = [wrap_rule "b"; wrap_rule "a"].
Proof.
  intros p. split; [vm_compute; reflexivity|].
  change (obj_keys (enabled_of KField
                      (add_op KField "a" true (add_op KField "a" false p)))
          = [wrap_rule "b"; wrap_rule "a"]).
  rewrite (@add_op_off_on_moves_to_end KField "a" p
             (proj1 (wrap_rule_plain "a")) (proj2 (wrap_rule_plain "a"))).
  vm_compute. reflexivity.
Defined.

(** An array index is listed by its number: a raw rule [1] stored after the
    raw rule [ab] comes first, and [__proto__] is not stored at all. *)
Example index_key_is_listed_first :
  getRawRules (addRawRule "__proto__" true
                 (addRawRule "1" true
                    (addRawRule "ab" true
                       (new_Provider "shop" false false true))))
  = ["1"; "ab"].
Proof. vm_compute. reflexivity. Qed.

(** ** The activity log *)

Lemma shift_while_spec (limit : jsnum) :
  forall l,
    exists dropped,
      l = dropped ++ shift_while limit l
      /\ (num_positive limit = true ->
          length_ge (List.length (shift_while limit l)) limit = false)
      /\ (length_ge (List.length l) limit = false -> dropped = []).
Proof.
  induction l as [|x l IH].
  - exists [].
    assert (H0 : num_positive limit = true ->
                 length_ge 0 limit = false).
    { destruct limit as [|negative|q]; simpl; try discriminate.
      - now destruct negative.
      - intros H. now apply negb_true_iff in H. }
    assert (Hs : shift_while limit [] = [])
      by (simpl; now destruct (length_ge 0 limit)).
    rewrite Hs. repeat split; auto.
  - cbn [shift_while].
    destruct (length_ge (List.length (x :: l)) limit) eqn:E.
    + destruct IH as (d & Hd & Hlen & Hfit).
      exists (x :: d). repeat split.
      * cbn [app]. f_equal. exact Hd.
      * assumption.
      * discriminate.
    + exists []. repeat split; auto.
Qed.

Lemma positive_limit (q : Q) :
  (0 < q)%Q -> num_is_zero (Num q) = false /\ num_positive (Num q) = true.
Proof.
  intros Hq. simpl. split.
  - destruct (Qeq_bool q 0) eqn:E; [|reflexivity].
    apply Qeq_bool_iff in E. rewrite E in Hq.
    now apply Qlt_irrefl in Hq.
  - destruct (Qle_bool q 0) eqn:E; [|reflexivity].
    apply Qle_bool_iff in E. now apply Qle_not_lt in E.
Qed.

(** X5: with logging on and a positive finite limit, [pushToLog] leaves a
    log that ends with the new entry and is what remains of the old log plus
    the new entry after the oldest entries are dropped; the entries kept of
    the old log are fewer than the limit, so that a limit that is a whole
    number bounds the length of the log, and a limit with a fractional part
    lets the log grow to the next whole number; nothing is dropped while the
    old log is shorter than the limit. *)
Theorem pushToLog_bounded (beforeProcessing afterProcessing rule : string)
        (w : World) (q : Q) :
  loggingStatus (storage w) = true ->
  logLimit (storage w) = Num q ->
  (0 < q)%Q ->
  let entry := MkLog beforeProcessing afterProcessing rule (now w) in
  let w' := snd (pushToLog beforeProcessing afterProcessing rule w) in
  exists dropped kept,
    log (storage w) = dropped ++ kept
    /\ log (storage w') = kept ++ [entry]
    /\ (inject_Z (Z.of_nat (List.length kept)) < q)%Q
    /\ (forall n : nat, (q == inject_Z (Z.of_nat n))%Q ->
                        List.length (log (storage w')) <= n)
    /\ ((inject_Z (Z.of_nat (List.length (log (storage w)))) < q)%Q
        -> dropped = []).
Proof.
  intros Hon Hlim Hpos entry w'. subst w'. unfold pushToLog, modify. simpl.
  rewrite Hon, Hlim.
  destruct (positive_limit Hpos) as [E0 E1]. rewrite E0, E1. simpl.
  destruct (shift_while_spec (Num q) (log (storage w)))
    as (dropped & Hd & Hlen & Hfit).
  specialize (Hlen E1). simpl in Hlen.
  assert (Hk : (inject_Z (Z.of_nat (List.length
                  (shift_while (Num q) (log (storage w))))) < q)%Q).
  { apply Qnot_le_lt. intros H. apply Qle_bool_iff in H. congruence. }
  exists dropped, (shift_while (Num q) (log (storage w))).
  repeat split.
  - exact Hd.
  - exact Hk.
  - intros n Hn. rewrite length_app. simpl.
    assert (Hz : (inject_Z (Z.of_nat (List.length
                    (shift_while (Num q) (log (storage w)))))
                  < inject_Z (Z.of_nat n))%Q).
    { apply (Qlt_le_trans _ q _ Hk). apply Qle_lteq. now right. }
    rewrite <- Zlt_Qlt in Hz. lia.
  - intros H. apply Hfit. simpl. apply not_true_is_false. intros E.
    apply Qle_bool_iff in E. now apply Qle_not_lt in E.
Qed.

Lemma pushToLog_bounded_witness :
  let w := set_storage
             (set_log [MkLog "a" "b" "r" 0]
                (MkStorage true true true (Num 1) [] true true true [] true
                   (DataObj []) HUndefined None "h" "r"))
             (Sample.world []) in
  log (storage (snd (pushToLog "c" "d" "s" w))) = [MkLog "c" "d" "s" 0].
Proof.
  intros w.
  destruct (@pushToLog_bounded "c" "d" "s" w 1%Q eq_refl eq_refl eq_refl)
    as (dropped & kept & H1 & H2 & H3 & _).
  rewrite H2 in *. destruct kept as [|x kept]; [reflexivity|].
  exfalso. unfold Qlt in H3. simpl in H3. lia.
Defined.

(** With the limit 1.5 the loop stops at one entry, and the log holds two
    entries after the new one is added. *)
Example pushToLog_limit_with_fraction :
  let w := set_storage
             (set_log [MkLog "a" "b" "r" 0; MkLog "c" "d" "r" 0]
                (MkStorage true true true (Num (3 # 2)) [] true true true []
                   true (DataObj []) HUndefined None "h" "r"))
             (Sample.world []) in
  log (storage (snd (pushToLog "e" "f" "s" w)))
  = [MkLog "c" "d" "r" 0; MkLog "e" "f" "s" 0].
Proof. vm_compute. reflexivity. Qed.

(** X6: [pushToLog] does nothing at all when logging is off or the limit
    is 0; with a limit that is negative, infinite or not a number it appends
    the entry and drops nothing. *)
Theorem pushToLog_off_or_unbounded
        (beforeProcessing afterProcessing rule : string) (w : World) :
  let w' := snd (pushToLog beforeProcessing afterProcessing rule w) in
  (loggingStatus (storage w) = false
   \/ (exists q, logLimit (storage w) = Num q /\ (q == 0)%Q) ->
   w' = w)
  /\ (loggingStatus (storage w) = true ->
      (exists q, logLimit (storage w) = Num q /\ (q < 0)%Q)
      \/ logLimit (storage w) = NaN
      \/ (exists negative, logLimit (storage w) = Infinity negative) ->
      log (storage w')
      = log (storage w)
        ++ [MkLog beforeProcessing afterProcessing rule (now w)]).
Proof.
  intros w'. subst w'. unfold pushToLog, modify. simpl. split.
  - intros [H|(q & H & Hq)]; rewrite H; [reflexivity|]. simpl.
    apply Qeq_bool_iff in Hq. rewrite Hq. now rewrite andb_false_r.
  - intros Hon [(q & H & Hq)|[H|(negative & H)]]; rewrite Hon, H; simpl.
    + assert (E0 : Qeq_bool q 0 = false).
      { destruct (Qeq_bool q 0) eqn:E; [|reflexivity].
        apply Qeq_bool_iff in E. rewrite E in Hq.
        now apply Qlt_irrefl in Hq. }
      assert (E1 : Qle_bool q 0 = true).
      { apply Qle_bool_iff. now apply Qlt_le_weak. }
      now rewrite E0, E1.
    + reflexivity.
    + destruct negative; simpl; [reflexivity|].
      destruct (log (storage w)); reflexivity.
Qed.

(** ** Quiet runs and what a run leaves alone *)

Lemma increaseBadged_quiet_view (quiet : bool) :
  quiet = true -> preserves quiet_view (increaseBadged quiet).
Proof.
  intros -> w. unfold increaseBadged, modify, quiet_view. simpl.
  rewrite filter_app. simpl. rewrite app_nil_r.
  now destruct (badge_get (tabid w) (badges w)).
Qed.

Lemma rawRules_pass_quiet_view :
  forall rawRules url changes,
    preserves quiet_view (rawRules_pass true rawRules url changes).
Proof.
  induction rawRules as [|r rest IH]; intros url changes; simpl.
  - apply preserves_ret.
  - apply preserves_bind; [apply preserves_lift|]. intros re.
    destruct (negb (str_eqb url (replace_all true re url))); [|apply IH].
    apply preserves_bind; [apply preserves_gets|]. intros logging.
    apply preserves_bind.
    { rewrite andb_false_r. apply preserves_ret. }
    intros _.
    apply preserves_bind; [now apply increaseBadged_quiet_view|].
    intros _. apply IH.
Qed.

Lemma rules_pass_quiet_view (domain : string) :
  forall rules fields fragments changes,
    preserves quiet_view
              (rules_pass true domain rules fields fragments changes).
Proof.
  induction rules as [|r rest IH]; intros fields fragments changes; simpl.
  - apply preserves_ret.
  - apply preserves_bind; [apply preserves_lift|]. intros re.
    apply preserves_bind; [apply preserves_lift|]. intros re2.
    match goal with |- preserves _ (if ?c then _ else _) => destruct c end;
      [|apply IH].
    apply preserves_bind; [apply preserves_gets|]. intros logging.
    apply preserves_bind.
    { rewrite andb_false_r. apply preserves_ret. }
    intros _.
    apply preserves_bind; [now apply increaseBadged_quiet_view|].
    intros _. apply IH.
Qed.

(** X7: a quiet run of [removeFieldsFormURL] writes nothing to the storage
    (no log entry) and makes no call but badge updates (the URL counter is
    not increased), whether it returns or throws.  What it does change is
    the provider it was given: the object is left as [getRules] leaves it,
    also when the run throws. *)
Theorem quiet_run_leaves_no_trace (T : Tools) (p : Provider) (url : string)
        (w : World) :
  let out := removeFieldsFormURL T p url true w in
  quiet_view (snd out) = quiet_view w
  /\ snd (fst out) = snd (getRules (referralMarketing (storage w)) p)
  /\ (referralMarketing (storage w) = false ->
      forall x, In x (obj_keys (enabled_referralMarketing p)) ->
                In x (obj_keys (enabled_rules (snd (fst out))))).
Proof.
  intros out. subst out. split; [|split].
  2: reflexivity.
  2: { intros Hoff x Hx. unfold removeFieldsFormURL. cbv zeta. cbn [fst snd].
       rewrite Hoff. unfold getRules. simpl.
       apply obj_keys_In in Hx. destruct Hx as [Hx Hp].
       apply obj_keys_In. split; [|assumption].
       apply obj_assign_In. now right. }
  unfold removeFieldsFormURL. cbv zeta. cbn [snd].
  apply (@preserves_apply _ _ quiet_view).
  destruct (getRules (referralMarketing (storage w)) p) as [rules q].
  cbn [fst snd].
  apply preserves_bind; [apply preserves_gets|]. intros skipping.
  apply preserves_bind.
  { destruct skipping; [apply preserves_lift|apply preserves_ret]. }
  intros [|]; [apply preserves_ret|].
  apply preserves_bind; [apply rawRules_pass_quiet_view|]. intros [u ch].
  apply preserves_bind; [apply preserves_lift|]. intros re.
  assert (Hred : forall v,
    preserves quiet_view
      (u' <- lift (decodeURL T v) ;;
       when (negb true) (pushToLog url u' (translate T "log_redirect")) ;;;
       ret (Redirect u'))).
  { intros v. apply preserves_bind; [apply preserves_lift|]. intros u'.
    apply preserves_bind; [apply preserves_ret|]. intros _.
    apply preserves_ret. }
  destruct re as [| |s]; [|apply Hred|apply Hred].
  apply preserves_bind.
  { match goal with |- preserves _ (if ?c then _ else _) => destruct c end.
    - apply preserves_bind; [apply rules_pass_quiet_view|].
      intros [[f g] c]. apply preserves_ret.
    - apply preserves_ret. }
  intros [u' c].
  apply preserves_bind; [apply preserves_gets|]. intros blocking.
  destruct (isCaneling q && blocking); [|apply preserves_ret].
  apply preserves_bind; [apply preserves_ret|]. intros _.
  apply preserves_bind; [now apply increaseBadged_quiet_view|]. intros _.
  apply preserves_ret.
Qed.

(** A quiet run that throws: the broken raw rule is met after [getRules]
    has written the referral marketing rule into the field rules. *)
Example quiet_run_that_throws :
  let p := addRawRule "(" true Sample.affiliate in
  let w := set_storage
             (MkStorage true false true (Num 100) [] false true true [] true
                (DataObj []) HUndefined None "h" "r")
             (Sample.world [p]) in
  let out := removeFieldsFormURL SpecTools.tools p "https://a.example/?tag=1"
               true w in
  fst (fst out) = Throw SyntaxError
  /\ obj_keys (enabled_rules p) = [wrap_rule "ref"]
  /\ obj_keys (enabled_rules (snd (fst out)))
     = [wrap_rule "ref"; wrap_referral "tag"].
Proof. vm_compute. repeat split. Qed.

Lemma pushToLog_settings (a b c : string) :
  preserves settings (pushToLog a b c).
Proof.
  intros w. unfold pushToLog, modify, settings. simpl.
  now destruct (loggingStatus (storage w)
                && negb (num_is_zero (logLimit (storage w)))).
Qed.

Lemma increaseBadged_settings (quiet : bool) :
  preserves settings (increaseBadged quiet).
Proof.
  intros w. unfold increaseBadged, modify, settings. simpl.
  now destruct (badge_get (tabid w) (badges w)), quiet.
Qed.

Lemma when_preserves {X} (obs : World -> X) (b : bool) (m : M unit) :
  preserves obs m -> preserves obs (when b m).
Proof. intros H. destruct b; [exact H|apply preserves_ret]. Qed.

Lemma rawRules_pass_settings (quiet : bool) :
  forall rawRules url changes,
    preserves settings (rawRules_pass quiet rawRules url changes).
Proof.
  induction rawRules as [|r rest IH]; intros url changes; simpl.
  - apply preserves_ret.
  - apply preserves_bind; [apply preserves_lift|]. intros re.
    destruct (negb (str_eqb url (replace_all true re url))); [|apply IH].
    apply preserves_bind; [apply preserves_gets|]. intros logging.
    apply preserves_bind; [apply when_preserves, pushToLog_settings|].
    intros _.
    apply preserves_bind; [apply increaseBadged_settings|].
    intros _. apply IH.
Qed.

Lemma rules_pass_settings (quiet : bool) (domain : string) :
  forall rules fields fragments changes,
    preserves settings
              (rules_pass quiet domain rules fields fragments changes).
Proof.
  induction rules as [|r rest IH]; intros fields fragments changes; simpl.
  - apply preserves_ret.
  - apply preserves_bind; [apply preserves_lift|]. intros re.
    apply preserves_bind; [apply preserves_lift|]. intros re2.
    match goal with |- preserves _ (if ?c then _ else _) => destruct c end;
      [|apply IH].
    apply preserves_bind; [apply preserves_gets|]. intros logging.
    apply preserves_bind; [apply when_preserves, pushToLog_settings|].
    intros _.
    apply preserves_bind; [apply increaseBadged_settings|].
    intros _. apply IH.
Qed.

Lemma removeFieldsFormURL_settings (T : Tools) (p : Provider)
      (url : string) (quiet : bool) (w : World) :
  settings (snd (removeFieldsFormURL T p url quiet w)) = settings w.
Proof.
  unfold removeFieldsFormURL. cbv zeta. cbn [snd].
  apply (@preserves_apply _ _ settings).
  destruct (getRules (referralMarketing (storage w)) p) as [rules q].
  cbn [fst snd].
  apply preserves_bind; [apply preserves_gets|]. intros skipping.
  apply preserves_bind.
  { destruct skipping; [apply preserves_lift|apply preserves_ret]. }
  intros [|]; [apply preserves_ret|].
  apply preserves_bind; [apply rawRules_pass_settings|]. intros [u ch].
  apply preserves_bind; [apply preserves_lift|]. intros re.
  assert (Hred : forall v,
    preserves settings
      (u' <- lift (decodeURL T v) ;;
       when (negb quiet)
            (pushToLog url u' (translate T "log_redirect")) ;;;
       ret (Redirect u'))).
  { intros v. apply preserves_bind; [apply preserves_lift|]. intros u'.
    apply preserves_bind; [apply when_preserves, pushToLog_settings|].
    intros _. apply preserves_ret. }
  destruct re as [| |s]; [|apply Hred|apply Hred].
  apply preserves_bind.
  { match goal with |- preserves _ (if ?c then _ else _) => destruct c end.
    - apply preserves_bind; [apply rules_pass_settings|].
      intros [[f g] c]. apply preserves_ret.
    - apply preserves_ret. }
  intros [u' c].
  apply preserves_bind; [apply preserves_gets|]. intros blocking.
  destruct (isCaneling q && blocking); [|apply preserves_ret].
  apply preserves_bind; [apply when_preserves, pushToLog_settings|].
  intros _.
  apply preserves_bind; [apply increaseBadged_settings|]. intros _.
  apply preserves_ret.
Qed.

Lemma removeFieldsFormURL_provider (T : Tools) (p p' : Provider)
      (url : string) (quiet : bool) (w w' : World)
      (r : res CleaningResult) :
  removeFieldsFormURL T p url quiet w = (r, p', w') ->
  p' = snd (getRules (referralMarketing (storage w)) p).
Proof.
  intros H. unfold removeFieldsFormURL in H. cbv zeta in H.
  apply run_inv in H. now destruct H as [_ <-].
Qed.

(** X8: a run of [removeFieldsFormURL], quiet or not, returning or
    throwing, changes nothing in the storage but the log; and the provider
    it leaves is the one [getRules] left, so with referral marketing
    enforcement on it is the provider it was given. *)
Theorem run_changes_log_only (T : Tools) (p : Provider) (url : string)
        (quiet : bool) (w : World) :
  settings (snd (removeFieldsFormURL T p url quiet w)) = settings w
  /\ forall r p' w',
       removeFieldsFormURL T p url quiet w = (r, p', w') ->
       p' = snd (getRules (referralMarketing (storage w)) p)
       /\ (referralMarketing (storage w) = true -> p' = p).
Proof.
  split; [apply removeFieldsFormURL_settings|].
  intros r p' w' H. apply removeFieldsFormURL_provider in H.
  split; [assumption|]. intros Hon. rewrite Hon in H. exact H.
Qed.

Lemma settings_domainBlocking (w v : World) :
  settings w = settings v ->
  domainBlocking (storage w) = domainBlocking (storage v).
Proof.
  unfold settings. intros H.
  change (domainBlocking (set_log [] (storage w))
          = domainBlocking (set_log [] (storage v))).
  now rewrite H.
Qed.

Lemma getRules_canceling (refm : bool) (p : Provider) :
  canceling (snd (getRules refm p)) = canceling p.
Proof. unfold getRules. now destruct refm. Qed.

Lemma cancel_flag_spec (T : Tools) (p p' : Provider)
        (url out : string) (quiet changes cancel : bool) (w w' : World) :
  removeFieldsFormURL T p url quiet w
  = (Ok (Cleaned changes out cancel), p', w') ->
  (cancel = true <->
   canceling p = true /\ domainBlocking (storage w) = true
   /\ ~ (localHostsSkipping (storage w) = true
         /\ checkLocalURL T url = Ok true)).
Proof.
  intros H. unfold removeFieldsFormURL in H. cbv zeta in H.
  apply run_inv in H. destruct H as [H _].
  pose proof (getRules_canceling (referralMarketing (storage w)) p) as Hcan.
  destruct (getRules (referralMarketing (storage w)) p) as [rules q].
  cbn [fst snd] in *.
  apply bind_ok_inv in H. destruct H as (skipping & w0 & Hs & H).
  apply gets_ok_inv in Hs. destruct Hs as [-> ->].
  apply bind_ok_inv in H. destruct H as (isLocal & w1 & Hloc & H).
  assert (Hlocal : isLocal = true <->
            localHostsSkipping (storage w) = true
            /\ checkLocalURL T url = Ok true).
  { destruct (localHostsSkipping (storage w)).
    - apply lift_ok_inv in Hloc. destruct Hloc as [Hloc _]. rewrite Hloc.
      split; [intros ->; now split|intros [_ E]; congruence].
    - unfold ret in Hloc. injection Hloc as <- _.
      split; [discriminate|intros [E _]; discriminate]. }
  assert (Hw1 : w1 = w).
  { destruct (localHostsSkipping (storage w)).
    - now apply lift_ok_inv in Hloc.
    - unfold ret in Hloc. congruence. }
  subst w1.
  destruct isLocal.
  - unfold ret in H. injection H as _ _ <- _.
    split; [discriminate|]. intros (_ & _ & Hn). exfalso. apply Hn.
    now apply Hlocal.
  - assert (Hnl : ~ (localHostsSkipping (storage w) = true
                     /\ checkLocalURL T url = Ok true)).
    { intros Hl. apply Hlocal in Hl. discriminate. }
    apply bind_ok_inv in H. destruct H as ([url1 ch] & w2 & Hraw & H).
    pose proof (rawRules_pass_settings quiet (getRawRules q) url false w)
      as Hs2.
    rewrite Hraw in Hs2. simpl in Hs2.
    apply bind_ok_inv in H. destruct H as (re & w3 & Hre & H).
    apply lift_ok_inv in Hre. destruct Hre as [Hre ->].
    destruct re as [| |s].
    2,3: apply bind_ok_inv in H; destruct H as (? & ? & _ & H);
         apply bind_ok_inv in H; destruct H as (? & ? & _ & H);
         unfold ret in H; discriminate.
    apply bind_ok_inv in H. destruct H as ([u c] & w4 & Hpass & H).
    assert (Hs4 : settings w4 = settings w2).
    { match type of Hpass with
      | (if ?cond then _ else _) w2 = _ => destruct cond
      end.
      - apply bind_ok_inv in Hpass.
        destruct Hpass as ([[f g] c'] & w2' & Hp & Hret).
        unfold ret in Hret. injection Hret as _ _ <-.
        pose proof (rules_pass_settings quiet (extract_domain T url1)
                      rules (query_text T url1) (fragment_text T url1)
                      ch w2) as Hs.
        now rewrite Hp in Hs.
      - unfold ret in Hpass. congruence. }
    apply bind_ok_inv in H. destruct H as (blocking & w5 & Hb & H).
    apply gets_ok_inv in Hb. destruct Hb as [-> ->].
    assert (Hblock : domainBlocking (storage w4)
                     = domainBlocking (storage w)).
    { apply settings_domainBlocking. congruence. }
    rewrite Hblock in H. unfold isCaneling in H. rewrite Hcan in H.
    destruct (canceling p && domainBlocking (storage w)) eqn:E.
    + apply bind_ok_inv in H. destruct H as (? & ? & _ & H).
      apply bind_ok_inv in H. destruct H as (? & ? & _ & H).
      unfold ret in H. injection H as _ _ <- _.
      apply andb_prop in E. destruct E. now repeat split.
    + unfold ret in H. injection H as _ _ <- _.
      split; [discriminate|]. intros (H1 & H2 & _).
      rewrite H1, H2 in E. discriminate.
Qed.

(** X9: a cleaning result of [removeFieldsFormURL] asks for cancellation
    exactly when the provider is a complete provider, domain blocking is on
    and the local host bypass did not apply: a request to a local address
    is never blocked. *)
Theorem cancel_iff_complete_and_blocking (T : Tools) (p p' : Provider)
        (url out : string) (quiet changes cancel : bool) (w w' : World) :
  removeFieldsFormURL T p url quiet w
  = (Ok (Cleaned changes out cancel), p', w') ->
  (cancel = true <->
   canceling p = true /\ domainBlocking (storage w) = true
   /\ ~ (localHostsSkipping (storage w) = true
         /\ checkLocalURL T url = Ok true)).
Proof. apply cancel_flag_spec. Qed.

Lemma cancel_iff_complete_and_blocking_witness :
  let p := addRule "id" true (new_Provider "ads" true false true) in
  let w := Sample.world [p] in
  canceling p = true /\ domainBlocking (storage w) = true
  /\ ~ (localHostsSkipping (storage w) = true
        /\ checkLocalURL SpecTools.tools "https://ads.example/x?id=1"
           = Ok true).
Proof.
  intros p w.
  assert (H : removeFieldsFormURL SpecTools.tools p
                "https://ads.example/x?id=1" false w
              = (Ok (Cleaned true "https://ads.example/x" true), p,
                 snd (removeFieldsFormURL SpecTools.tools p
                        "https://ads.example/x?id=1" false w)))
    by (vm_compute; reflexivity).
  exact (proj1 (cancel_iff_complete_and_blocking H) eq_refl).
Defined.

(** ** Cutting matches out never lengthens a text *)

Lemma take_drop (s : string) : forall n, take n s +++ drop n s = s.
Proof.
  induction s as [|c s IH]; intros [|n]; simpl; try reflexivity.
  now rewrite IH.
Qed.

Lemma take_length (s : string) :
  forall n, String.length (take n s) = Nat.min n (String.length s).
Proof.
  induction s as [|c s IH]; intros [|n]; simpl; try reflexivity.
  now rewrite IH.
Qed.

Lemma replace_all_from_length (ic : bool) (r : regex) :
  forall fuel s pos,
    String.length (replace_all_from fuel ic r pos s) <= String.length s
    /\ (String.length (replace_all_from fuel ic r pos s) = String.length s
        -> replace_all_from fuel ic r pos s = s).
Proof.
  induction fuel as [|fuel IH]; intros s pos; simpl; [auto|].
  destruct (exec_from ic r pos s) as [m|] eqn:E; [|auto].
  apply exec_from_bounds in E. destruct E as (Ha & Hb & Hc).
  pose proof (take_drop s (m_start m - pos)) as Htd.
  pose proof (take_length s (m_start m - pos)) as Htl.
  destruct (m_end m =? m_start m) eqn:Ee.
  - destruct (drop (m_start m - pos) s) as [|c rest] eqn:Ed.
    + rewrite sapp_nil_r in Htd. rewrite Htd. auto.
    + destruct (IH rest (S (m_start m))) as [Hle Heq].
      assert (Hs : String.length s
                   = String.length (take (m_start m - pos) s)
                     + S (String.length rest)).
      { rewrite <- Htd at 1. now rewrite slength_app. }
      rewrite slength_app. simpl. split; [lia|].
      intros Hlen. rewrite Heq by lia. exact Htd.
  - apply Nat.eqb_neq in Ee.
    destruct (IH (drop (m_end m - pos) s) (m_end m)) as [Hle _].
    rewrite drop_length in Hle.
    rewrite slength_app. split; lia.
Qed.

Lemma replace_all_shorter (ic : bool) (r : regex) (s : string) :
  replace_all ic r s <> s ->
  String.length (replace_all ic r s) < String.length s.
Proof.
  unfold replace_all. intros H.
  destruct (replace_all_from_length ic r (S (String.length s)) s 0)
    as [Hle Heq].
  destruct (Nat.eq_dec
              (String.length
                 (replace_all_from (S (String.length s)) ic r 0 s))
              (String.length s)) as [E|E]; [|lia].
  exfalso. apply H. now apply Heq.
Qed.

Lemma rawRules_pass_length (quiet : bool) :
  forall rawRules url ch w u c w',
    rawRules_pass quiet rawRules url ch w = (Ok (u, c), w') ->
    String.length u <= String.length url
    /\ (c = true <-> ch = true \/ String.length u < String.length url).
Proof.
  induction rawRules as [|rule rest IH]; intros url ch w u c w' H;
    simpl in H.
  - unfold ret in H. injection H as <- <- _. split; [lia|].
    split; [now left|]. intros [E|E]; [assumption|lia].
  - apply bind_ok_inv in H. destruct H as (r & w1 & _ & H).
    destruct (str_eqb url (replace_all true r url)) eqn:E; simpl in H.
    + apply str_eqb_eq in E. rewrite <- E in H. now apply IH in H.
    + apply str_eqb_neq in E.
      assert (Hlt : String.length (replace_all true r url)
                    < String.length url).
      { apply replace_all_shorter. congruence. }
      apply bind_ok_inv in H. destruct H as (? & ? & _ & H).
      apply bind_ok_inv in H. destruct H as (? & ? & _ & H).
      apply bind_ok_inv in H. destruct H as (? & ? & _ & H).
      apply IH in H. destruct H as [Hle Hc]. split; [lia|].
      split; [intros _; right; lia|]. intros _. apply Hc. now left.
Qed.

(** X10: the raw-rule pass never lengthens the URL, and it reports a change
    exactly when the URL it returns differs from the one it was given; the
    URL is then strictly shorter. *)
Theorem raw_pass_changes_iff_shorter (quiet : bool)
        (rawRules : list string) (url u : string) (c : bool)
        (w w' : World) :
  rawRules_pass quiet rawRules url false w = (Ok (u, c), w') ->
  String.length u <= String.length url
  /\ (c = true <-> u <> url)
  /\ (c = true <-> String.length u < String.length url).
Proof.
  intros H. destruct (rawRules_pass_length _ _ _ _ _ H) as [Hle Hc].
  repeat split; try assumption.
  - intros Ht E. subst u. apply Hc in Ht. destruct Ht; [discriminate|lia].
  - intros Hne. destruct c; [reflexivity|].
    pose proof (rawRules_pass_unchanged _ _ _ _ _ H) as Hfix.
    rewrite (rawRules_pass_fixed quiet false w Hfix) in H.
    exfalso. apply Hne. congruence.
  - intros Ht. apply Hc in Ht. destruct Ht; [discriminate|assumption].
  - intros Hlt. apply Hc. now right.
Qed.

Lemma raw_pass_changes_iff_shorter_witness :
  let w := Sample.world [Sample.tracker] in
  String.length "https://site.example/track"
  < String.length "https://site.example/ttrackrack".
Proof.
  intros w.
  assert (H : rawRules_pass false (getRawRules Sample.tracker)
                "https://site.example/ttrackrack" false w
              = (Ok ("https://site.example/track", true),
                 snd (rawRules_pass false (getRawRules Sample.tracker)
                        "https://site.example/ttrackrack" false w)))
    by (vm_compute; reflexivity).
  destruct (raw_pass_changes_iff_shorter _ _ _ _ H) as (_ & _ & Hlt).
  now apply Hlt.
Defined.

(** ** The dispatcher *)

(** X11: with the engine on, a request of a blocked ping type is cancelled
    before any provider is looked at: the answer is cancel whatever the
    registry holds (also providers whose patterns do not compile), the
    registry is left as it was, and what is written is the URL count, the
    log entry of the blocked ping and the badge. *)
Theorem ping_is_cancelled_first (T : Tools) (request : Request) (w : World) :
  globalStatus (storage w) = true ->
  ping_blocked (storage w) request = true ->
  clearUrl T request w
  = (Ok Cancel,
     snd (increaseBadged false
            (snd (pushToLog (req_url request) (req_url request)
                            (translate T "log_ping_blocked")
                            (call (IncreaseGlobalURLCounter
                                     (countFields T (req_url request)))
                                  w)))))
  /\ providers (snd (clearUrl T request w)) = providers w.
Proof.
  intros Hon Hping. unfold ping_blocked in Hping.
  assert (E : clearUrl T request w
    = (Ok Cancel,
       snd (increaseBadged false
              (snd (pushToLog (req_url request) (req_url request)
                              (translate T "log_ping_blocked")
                              (call (IncreaseGlobalURLCounter
                                       (countFields T (req_url request)))
                                    w)))))).
  { unfold clearUrl. unfold bind at 1. unfold modify at 1.
    unfold bind at 1. unfold gets at 1.
    change (storage (call _ w)) with (storage w).
    rewrite Hon, Hping. reflexivity. }
  split; [exact E|]. rewrite E.
  unfold increaseBadged, pushToLog, modify. simpl.
  destruct (loggingStatus (storage w) && _); simpl;
    match goal with
    | |- context [badge_get ?t ?b] => destruct (badge_get t b)
    end; reflexivity.
Qed.

Lemma ping_is_cancelled_first_witness :
  fst (clearUrl SpecTools.tools
         (MkRequest "https://site.example/collect" "ping" 1)
         (Sample.world [Sample.broken]))
  = Ok Cancel.
Proof.
  destruct (ping_is_cancelled_first SpecTools.tools
              (MkRequest "https://site.example/collect" "ping" 1)
              (Sample.world [Sample.broken]) eq_refl eq_refl) as [E _].
  now rewrite E.
Defined.

(** The provider handed to [removeFieldsFormURL] is the element of the
    registry: what [getRules] wrote into it is in the registry also when
    the run goes on to throw. *)
Example clearUrl_throw_keeps_getRules_change :
  let p := addRawRule "(" true Sample.affiliate in
  let w := set_storage
             (MkStorage true false true (Num 100) [] false true true [] true
                (DataObj []) HUndefined None "h" "r")
             (Sample.world [p]) in
  let out := clearUrl SpecTools.tools
               (Sample.main_frame "https://store.example/?tag=1") w in
  fst out = Throw SyntaxError
  /\ map (fun q => obj_keys (enabled_rules q)) (providers w)
     = [[wrap_rule "ref"]]
  /\ map (fun q => obj_keys (enabled_rules q)) (providers (snd out))
     = [[wrap_rule "ref"; wrap_referral "tag"]].
Proof. vm_compute. repeat split. Qed.

(** X12: a result carried over from a provider that did not match is
    inert: the loop over the providers behaves the same whatever URL such a
    result holds, so only a provider that matches the request can cause an
    action. *)
Theorem carried_result_is_inert (T : Tools) (request : Request)
        (u : string) :
  forall todo i w,
    providers_loop T request i todo (Cleaned false u false) w
    = providers_loop T request i todo default_result w.
Proof.
  induction todo as [|p rest IH]; intros i w; simpl.
  - reflexivity.
  - unfold bind at 1 3. unfold lift at 1 2.
    destruct (matchURL p (req_url request)) as [[|]|e];
      [reflexivity| |reflexivity].
    unfold bind, ret. apply IH.
Qed.





(** ** Order of the exceptions and of the redirections *)

(** X15: the enabled exceptions are tried in the order in which
    [for ... in] lists them (array indices first, by their number, then the
    other keys in the order they were stored) and the first match decides:
    the patterns listed after it are not even compiled, while a pattern that
    the RegExp constructor rejects with a SyntaxError and that is reached
    before any match makes [matchException] throw that error. *)
Theorem matchException_first_match (p : Provider) (url : string)
        (pre post : list string) (e : string) :
  url <> siteBlockedAlert ->
  obj_keys (enabled_exceptions p) = pre ++ e :: post ->
  Forall (compiles_without_match url) pre ->
  (forall re, RegExp e = Ok re -> regex_test true re url = true ->
              matchException p url = Ok true)
  /\ (RegExp e = Throw SyntaxError ->
      matchException p url = Throw SyntaxError).
Proof.
  intros Hns Hkeys Hpre. unfold matchException.
  apply str_eqb_neq in Hns. rewrite Hns, Hkeys.
  now apply matchException_loop_first.
Qed.

Lemma matchException_first_match_witness :
  let p := addException "7" true (addException "(" true Sample.shop) in
  obj_keys (enabled_exceptions p) = ["7"; "shop\.example\/login"; "("]
  /\ matchException p "https://shop.example/login" = Ok true
  /\ matchException p "https://shop.example/cart" = Throw SyntaxError.
Proof.
  intros p.
  assert (Hkeys : obj_keys (enabled_exceptions p)
                  = ["7"] ++ "shop\.example\/login" :: ["("])
    by (vm_compute; reflexivity).
  assert (Hkeys2 : obj_keys (enabled_exceptions p)
                   = ["7"; "shop\.example\/login"] ++ "(" :: [])
    by (vm_compute; reflexivity).
  split; [exact Hkeys|].
  let r := eval vm_compute in (RegExp "shop\.example\/login") in
  let r7 := eval vm_compute in (RegExp "7") in
  match constr:((r, r7)) with
  | (Ok ?re, Ok ?re7) =>
      assert (H1 : Forall (compiles_without_match
                             "https://shop.example/login") ["7"])
        by (apply Forall_cons; [|apply Forall_nil];
            exists re7; split; vm_compute; reflexivity);
      assert (H2 : Forall (compiles_without_match
                             "https://shop.example/cart")
                          ["7"; "shop\.example\/login"])
        by (apply Forall_cons; [|apply Forall_cons; [|apply Forall_nil]];
            [exists re7|exists re]; split; vm_compute; reflexivity);
      split;
      [ apply (proj1 (@matchException_first_match p
                        "https://shop.example/login" ["7"] ["("] _
                        ltac:(discriminate) Hkeys H1) re);
        vm_compute; reflexivity
      | apply (proj2 (@matchException_first_match p
                        "https://shop.example/cart"
                        ["7"; "shop\.example\/login"] [] _
                        ltac:(discriminate) Hkeys2 H2));
        vm_compute; reflexivity ]
  end.
Defined.

(** X16: [getRedirection] goes through the enabled redirections in the
    order in which [for ... in] lists them (array indices first, by their
    number, then the other keys in the order they were stored), passes over
    the empty pattern and the patterns that do not match, and returns the
    first group of the first one that matches; what is listed after it is
    not compiled. *)
Theorem getRedirection_first_match (p : Provider) (url : string)
        (pre post : list string) (k : string) (re : regex)
        (m : rmatch_result) :
  obj_keys (enabled_redirections p) = pre ++ k :: post ->
  Forall (redirection_passed_over url) pre ->
  k <> EmptyString ->
  RegExp k = Ok re ->
  exec_from true re 0 url = Some m ->
  getRedirection p url = Ok (group1 m).
Proof.
  intros Hkeys Hpre Hne Hre Hm. unfold getRedirection. rewrite Hkeys.
  clear Hkeys.
  induction Hpre as [|x pre (rx & Hx & Hskip) Hpre IH]; simpl.
  - rewrite Hre. simpl. rewrite Hm.
    apply str_eqb_neq in Hne. now rewrite Hne.
  - rewrite Hx. simpl. destruct Hskip as [-> | Hnone].
    + destruct (exec_from true rx 0 url); exact IH.
    + rewrite Hnone. exact IH.
Qed.

Lemma getRedirection_first_match_witness :
  let p := addRedirection "(" true
             (addRedirection "7" true
                (addRedirection "\/url\?.*q=([^&]*)" true
                   (addRedirection "\/out\?to=(.*)" true
                      (addRedirection EmptyString true
                         (Sample.provider "search" "search\.example"))))) in
  obj_keys (enabled_redirections p)
  = ["7"; EmptyString; "\/out\?to=(.*)"; "\/url\?.*q=([^&]*)"; "("]
  /\ getRedirection p
       "https://search.example/url?a=1&q=https%3A%2F%2Fe.example"
     = Ok (JStr "https%3A%2F%2Fe.example").
Proof.
  intros p. split; [vm_compute; reflexivity|].
  let r := eval vm_compute in (RegExp "\/url\?.*q=([^&]*)") in
  let r0 := eval vm_compute in (RegExp EmptyString) in
  let r1 := eval vm_compute in (RegExp "\/out\?to=(.*)") in
  let r7 := eval vm_compute in (RegExp "7") in
  match constr:((r, r0, r1, r7)) with
  | (Ok ?re, Ok ?re0, Ok ?re1, Ok ?re7) =>
      let m := eval vm_compute in
        (exec_from true re 0
           "https://search.example/url?a=1&q=https%3A%2F%2Fe.example") in
      match m with
      | Some ?m' =>
          change (JStr "https%3A%2F%2Fe.example") with (group1 m');
          apply (@getRedirection_first_match p _
                   ["7"; EmptyString; "\/out\?to=(.*)"] ["("]
                   "\/url\?.*q=([^&]*)" re m');
          [ vm_compute; reflexivity
          | apply Forall_cons;
            [|apply Forall_cons; [|apply Forall_cons; [|apply Forall_nil]]];
            [ exists re7; split; [vm_compute; reflexivity|right];
              vm_compute; reflexivity
            | exists re0; split; [vm_compute; reflexivity|now left]
            | exists re1; split; [vm_compute; reflexivity|right];
              vm_compute; reflexivity ]
          | discriminate
          | vm_compute; reflexivity
          | vm_compute; reflexivity ]
      end
  end.
Defined.

(** ** The registry built from a document *)

Lemma set_providers_twice (a b : list Provider) (w : World) :
  set_providers a (set_providers b w) = set_providers a w.
Proof. reflexivity. Qed.

Lemma nth_error_set_nth (x : Provider) :
  forall l i, i < List.length l -> nth_error (set_nth i x l) i = Some x.
Proof.
  induction l as [|y l IH]; intros [|i] H; simpl in *; try lia.
  - reflexivity.
  - apply IH. lia.
Qed.

Lemma set_nth_twice (x y : Provider) :
  forall l i, set_nth i x (set_nth i y l) = set_nth i x l.
Proof.
  induction l as [|z l IH]; intros [|i]; simpl; try reflexivity.
  now rewrite IH.
Qed.

Lemma set_nth_last (x y : Provider) :
  forall l, set_nth (List.length l) x (l ++ [y]) = l ++ [x].
Proof.
  induction l as [|z l IH]; simpl; [reflexivity|now rewrite IH].
Qed.

Lemma update_provider_run (p : nat) (f : Provider -> res Provider)
      (X : list Provider) (w0 : World) (pr pr' : Provider) :
  nth_error X p = Some pr -> f pr = Ok pr' ->
  update_provider p f (set_providers X w0)
  = (Ok tt, set_providers (set_nth p pr' X) w0).
Proof.
  intros Hn Hf. unfold update_provider, bind, gets, lift, modify. simpl.
  now rewrite Hn, Hf.
Qed.

Lemma add_all_run (f : string -> bool -> Provider -> Provider) (p : nat)
      (w0 : World) :
  forall l X pr,
    nth_error X p = Some pr ->
    add_all f l p (set_providers X w0)
    = (Ok tt, set_providers (set_nth p (add_list f l pr) X) w0).
Proof.
  induction l as [|x l IH]; intros X pr Hn; simpl.
  - unfold ret. now rewrite (set_nth_same _ _ Hn).
  - unfold bind.
    rewrite (@update_provider_run p _ X w0 pr (f x true pr) Hn eq_refl).
    assert (Hlt : p < List.length X)
      by (apply nth_error_Some; congruence).
    erewrite IH by (apply nth_error_set_nth; exact Hlt).
    now rewrite set_nth_twice.
Qed.

Lemma createProvider_run (provs : RuleSet) (key : string)
      (sp : ProviderSpec) (final : Provider) (X : list Provider)
      (w0 : World) :
  lookup_spec key provs = Some sp ->
  provider_of_spec key sp = Ok final ->
  createProvider (DataObj provs) (List.length X) key (set_providers X w0)
  = (Ok tt, set_providers (X ++ [final]) w0).
Proof.
  intros Hl Hf. unfold createProvider. simpl. rewrite Hl.
  unfold provider_of_spec in Hf.
  destruct (setURLPattern _ _) as [p1|e] eqn:Hpat; [|discriminate].
  simpl in Hf. injection Hf as <-.
  unfold bind at 1. unfold modify at 1. simpl providers.
  rewrite set_providers_twice.
  assert (Hn : forall y, nth_error (X ++ [y]) (List.length X) = Some y).
  { intros y. rewrite nth_error_app2 by lia.
    now rewrite Nat.sub_diag. }
  assert (Hlt : forall y z,
            nth_error (set_nth (List.length X) z (X ++ [y]))
                      (List.length X) = Some z).
  { intros y z. apply nth_error_set_nth. rewrite length_app. simpl. lia. }
  unfold bind at 1.
  rewrite (@update_provider_run _ _ _ w0 _ p1 (Hn _) Hpat).
  unfold bind at 1. erewrite add_all_run by apply Hlt.
  rewrite set_nth_twice.
  unfold bind at 1. erewrite add_all_run by apply Hlt.
  rewrite set_nth_twice.
  unfold bind at 1. erewrite add_all_run by apply Hlt.
  rewrite set_nth_twice.
  unfold bind at 1. erewrite add_all_run by apply Hlt.
  rewrite set_nth_twice.
  erewrite add_all_run by apply Hlt.
  now rewrite set_nth_twice, set_nth_last.
Qed.

Lemma createProviders_loop_run (provs : RuleSet) (w0 : World) :
  forall entries built X,
    Forall2 (fun e p => lookup_spec (fst e) provs = Some (snd e)
                        /\ provider_of_spec (fst e) (snd e) = Ok p)
            entries built ->
    createProviders_loop (DataObj provs) (List.length X) (map fst entries)
                         (set_providers X w0)
    = (Ok tt, set_providers (X ++ built) w0).
Proof.
  induction entries as [|[k sp] entries IH]; intros built X H;
    inversion H as [|? p ? ps [Hl Hf] Hrest]; subst; simpl.
  - unfold ret. now rewrite app_nil_r.
  - unfold bind. simpl in Hl, Hf.
    erewrite createProvider_run by eassumption.
    replace (S (List.length X)) with (List.length (X ++ [p]))
      by (rewrite length_app; simpl; lia).
    erewrite IH by eassumption. now rewrite <- app_assoc.
Qed.

Lemma lookup_spec_NoDup (d : RuleSet) (k : string) (sp : ProviderSpec) :
  NoDup (map fst d) -> In (k, sp) d -> lookup_spec k d = Some sp.
Proof.
  induction d as [|[k' sp'] d IH]; intros Hnd Hin; simpl in *; [easy|].
  inversion Hnd as [|? ? Hnot Hnd']; subst.
  destruct Hin as [E|Hin].
  - injection E as -> ->. now rewrite str_eqb_refl.
  - destruct (str_eqb k k') eqn:E.
    + apply str_eqb_eq in E. subst k'. exfalso. apply Hnot.
      apply in_map_iff. now exists (k, sp).
    + now apply IH.
Qed.

(** The entries behind a list of names. *)
Lemma entries_of_keys (d : RuleSet) :
  forall keys built,
    NoDup (map fst d) ->
    Forall2 (fun key p => exists sp, In (key, sp) d
                                     /\ provider_of_spec key sp = Ok p)
            keys built ->
    exists entries,
      map fst entries = keys
      /\ Forall2 (fun e p => lookup_spec (fst e) d = Some (snd e)
                             /\ provider_of_spec (fst e) (snd e) = Ok p)
                 entries built.
Proof.
  intros keys built Hnd H.
  induction H as [|key p keys built (sp & Hin & Hp) _ (entries & Hk & IH)].
  - exists []. split; [reflexivity|constructor].
  - exists ((key, sp) :: entries). split; [simpl; now rewrite Hk|].
    constructor; [|exact IH]. split; [|exact Hp].
    now apply lookup_spec_NoDup.
Qed.

Lemma toObject_run (w : World) (d : RuleSet) (built : list Provider) :
  providers w = [] -> prvKeys w = [] ->
  ClearURLsData (storage w) = DataObj d ->
  NoDup (map fst d) ->
  Forall2 (fun key p => exists sp, In (key, sp) d
                                   /\ provider_of_spec key sp = Ok p)
          (own_keys (map fst d)) built ->
  toObject w
  = (Ok tt, set_providers built (set_prvKeys (own_keys (map fst d)) w)).
Proof.
  intros Hps Hks Hd Hnd Hbuilt.
  destruct (@entries_of_keys d _ _ Hnd Hbuilt) as (entries & Hkeys & Hent).
  unfold toObject, createProviders, getKeys.
  unfold bind at 1. unfold gets at 1. rewrite Hd.
  unfold bind at 1. unfold modify at 1. simpl data_providers.
  unfold getOrDefault at 1. rewrite Hks. simpl app.
  unfold bind at 1. unfold gets at 1.
  change (ClearURLsData (storage (set_prvKeys (own_keys (map fst d)) w)))
    with (ClearURLsData (storage w)). rewrite Hd.
  unfold bind at 1. unfold gets at 1. simpl prvKeys.
  set (w0 := set_prvKeys (own_keys (map fst d)) w).
  assert (Hw0 : w0 = set_providers [] w0).
  { unfold w0. destruct w. simpl in *. now subst. }
  rewrite Hw0 at 1.
  change 0 with (List.length (@nil Provider)).
  change built with ([] ++ built).
  rewrite <- Hkeys.
  now apply createProviders_loop_run.
Qed.

(** X17: on a registry that is still empty, [toObject] turns a parsed
    document whose URL patterns compile into one provider per entry, in the
    order in which [for ... in] lists the names of the document (names that
    are array indices first, by their number, then the others as the
    document has them), each provider made of its entry alone; [prvKeys]
    receives the names in the same order, and nothing else is written. *)
Theorem toObject_builds_registry (w : World) (d : RuleSet)
        (built : list Provider) :
  providers w = [] -> prvKeys w = [] ->
  ClearURLsData (storage w) = DataObj d ->
  NoDup (map fst d) ->
  Forall2 (fun key p => exists sp, In (key, sp) d
                                   /\ provider_of_spec key sp = Ok p)
          (own_keys (map fst d)) built ->
  toObject w
  = (Ok tt, set_providers built (set_prvKeys (own_keys (map fst d)) w)).
Proof. apply toObject_run. Qed.

Lemma toObject_builds_registry_witness :
  let w := MkWorld (set_ClearURLsData (DataObj numbered_document) Sample.st)
                   [] [] [] 1 HUndefined HUndefined 0 [] in
  map name (providers (snd (toObject w))) = ["7"; "10"; "shop"]
  /\ prvKeys (snd (toObject w)) = ["7"; "10"; "shop"]
  /\ map getRawRules (providers (snd (toObject w))) = [[]; []; ["1"; "ab"]].
Proof.
  intros w.
  pose (s7 := MkSpec None None (Some "seven\.example") None None None None
                     None).
  pose (s10 := MkSpec None None (Some "ten\.example") None None None None
                      None).
  pose (ss := MkSpec None None (Some "shop\.example") None
                     (Some ["ab"; "1"]) None None None).
  let r7 := eval vm_compute in (provider_of_spec "7" s7) in
  let r10 := eval vm_compute in (provider_of_spec "10" s10) in
  let rs := eval vm_compute in (provider_of_spec "shop" ss) in
  match constr:((r7, r10, rs)) with
  | (Ok ?p7, Ok ?p10, Ok ?ps) =>
      rewrite (@toObject_builds_registry w numbered_document [p7; p10; ps]);
      [ repeat split; vm_compute; reflexivity
      | reflexivity
      | reflexivity
      | reflexivity
      | repeat constructor; simpl; intuition discriminate
      | let k := eval vm_compute in (own_keys (map fst numbered_document)) in
        change (own_keys (map fst numbered_document)) with k;
        constructor;
        [ exists s7
        | constructor; [exists s10|constructor; [exists ss|constructor]] ];
        (split; [simpl; tauto|vm_compute; reflexivity]) ]
  end.
Defined.

(** ** The first phase of the rule update *)

(** With equal hashes nothing is downloaded and [toObject] runs on the
    registry and the cached document as they are; the status is recorded
    after it, and only when it returns. *)
Lemma getHash_same_hash (T : Tools) (net : Network) (w : World)
      (body : string) :
  net (hashURL (storage w)) = Response true body ->
  trim T (HStr body) <> EmptyString ->
  trim T (HStr body) = trim T (localDataHash w) ->
  let w' := run_getHash T net w in
  fetched w' = fetched w ++ [hashURL (storage w)]
  /\ ClearURLsData (storage w') = ClearURLsData (storage w)
  /\ (forall w3, toObject w = (Ok tt, w3) ->
                 providers w' = providers w3
                 /\ prvKeys w' = prvKeys w3
                 /\ hashStatus (storage w') = Some up_to_date)
  /\ (forall e w3, toObject w = (Throw e, w3) ->
                   providers w' = providers w3
                   /\ hashStatus (storage w') = hashStatus (storage w)).
Proof.
  intros Hnet Hne Heq w'. subst w'. unfold run_getHash.
  rewrite (getHash_step T net w Hnet Hne).
  set (w2 := set_dataHash (HStr body)
               (call (Fetch (hashURL (storage w))) w)).
  assert (Hf2 : fetched w2 = fetched w ++ [hashURL (storage w)]).
  { unfold w2. apply (fetched_call (Fetch (hashURL (storage w))) w). }
  apply str_eqb_eq in Heq. rewrite Heq. simpl.
  assert (Hreg : same_registry w2 w) by (repeat split).
  destruct (registry_fn_toObject Hreg) as [Hfst Hsame].
  pose proof (keeps_outside_toObject w2) as (Hst & Hcalls & _).
  unfold bind, storeHashStatus, saveOnDisk, modify.
  destruct (toObject w2) as [[[]|e] w3'] eqn:Hto; simpl in *.
  - rewrite fetched_call, app_nil_r.
    split; [unfold fetched; simpl; rewrite Hcalls; exact Hf2|].
    split; [now rewrite Hst|]. split.
    + intros w3 H. rewrite H in Hsame. repeat split; apply Hsame.
    + intros e w3 H. rewrite H in Hfst. discriminate.
  - split; [unfold fetched; rewrite Hcalls; exact Hf2|].
    split; [now rewrite Hst|]. split.
    + intros w3 H. rewrite H in Hfst. discriminate.
    + intros e' w3 H. rewrite H in Hsame. split; [apply Hsame|].
      now rewrite Hst.
Qed.

(** C6, as stated, fails when the cached document holds a URL pattern that
    is not a pattern: the hashes are equal and nothing is downloaded, but
    [toObject] throws, the registry is left half built and no status is
    recorded (the one of the previous session stays). *)
Lemma equal_hash_with_broken_document :
  let bad := MkSpec None None (Some "(") None None None None None in
  let w := set_storage
             (set_ClearURLsData
                (DataObj (Sample.document ++ [("bad", bad); ("late", bad)]))
                (storage Sample.startup)) Sample.startup in
  let w' := run_getHash SpecTools.tools Sample.net_same w in
  trim SpecTools.tools (HStr "h:{} ") = trim SpecTools.tools (localDataHash w)
  /\ fetched w' = ["https://rules.example/data.hash"]
  /\ hashStatus (storage w) = Some updated
  /\ hashStatus (storage w') = Some updated
  /\ map name (providers w') = ["shop"; "bad"]
  /\ map urlPattern (skipn 1 (providers w')) = [None].
Proof. vm_compute. repeat split. Qed.

(** C6, amended: when the hash endpoint answers with a non-empty hash, a
    hash equal (after trimming) to the cached one leads to no download and
    to a run of [toObject] on the cached document.  On an empty registry and
    a parsed document whose URL patterns compile, the registry then holds
    one provider for each entry of the document, in the order in which the
    names are listed, each made of its entry, and the status is up_to_date;
    in general the registry is what [toObject] makes of it, and the status
    is up_to_date when [toObject] returns and left as it was when it throws.
    A different hash leads to exactly one download of the rule-set
    document; and a downloaded body whose content hash differs from the
    announced hash leaves the status hash_mismatch. *)
Theorem update_pipeline (T : Tools) (net : Network) (w : World)
        (body : string) :
  net (hashURL (storage w)) = Response true body ->
  trim T (HStr body) <> EmptyString ->
  let w' := run_getHash T net w in
  (trim T (HStr body) = trim T (localDataHash w) ->
   fetched w' = fetched w ++ [hashURL (storage w)]
   /\ ClearURLsData (storage w') = ClearURLsData (storage w)
   /\ (forall d built,
         providers w = [] -> prvKeys w = [] ->
         ClearURLsData (storage w) = DataObj d ->
         NoDup (map fst d) ->
         Forall2 (fun key p => exists sp, In (key, sp) d
                                          /\ provider_of_spec key sp = Ok p)
                 (own_keys (map fst d)) built ->
         providers w' = built
         /\ prvKeys w' = own_keys (map fst d)
         /\ hashStatus (storage w') = Some up_to_date)
   /\ (forall w3, toObject w = (Ok tt, w3) ->
                  providers w' = providers w3
                  /\ prvKeys w' = prvKeys w3
                  /\ hashStatus (storage w') = Some up_to_date)
   /\ (forall e w3, e <> Unsupported -> toObject w = (Throw e, w3) ->
                    providers w' = providers w3
                    /\ hashStatus (storage w') = hashStatus (storage w)))
  /\ (trim T (HStr body) <> trim T (localDataHash w) ->
      fetched w' = fetched w ++ [hashURL (storage w); ruleURL (storage w)]
      /\ forall text,
           net (ruleURL (storage w)) = Response true text ->
           trim T (HStr text) <> EmptyString ->
           trim T (HStr (sha256 T text)) <> trim T (HStr body) ->
           hashStatus (storage w') = Some hash_mismatch).
Proof.
  intros Hnet Hne w'. split.
  - intros Heq.
    destruct (getHash_same_hash T net w Hnet Hne Heq)
      as (Hf & Hd & Hok & Hthrow).
    split; [exact Hf|]. split; [exact Hd|]. split; [|split].
    + intros d built Hps Hks Hdoc Hnd Hbuilt.
      pose proof (@toObject_run w d built Hps Hks Hdoc Hnd Hbuilt) as Hrun.
      apply (Hok _ Hrun).
    + exact Hok.
    + intros e w3 _. apply Hthrow.
  - subst w'. unfold run_getHash.
    rewrite (getHash_step T net w Hnet Hne).
    set (w2 := set_dataHash (HStr body)
                 (call (Fetch (hashURL (storage w))) w)).
    assert (Hf2 : fetched w2 = fetched w ++ [hashURL (storage w)]).
    { unfold w2. apply (fetched_call (Fetch (hashURL (storage w))) w). }
    intros Hdiff. apply str_eqb_neq in Hdiff. rewrite Hdiff. simpl.
    split.
    + rewrite fetchFromURL_fetched, Hf2, <- app_assoc. reflexivity.
    + intros text Hrule Hte Hsha.
      unfold fetchFromURL.
      unfold bind at 1. unfold gets at 1.
      unfold bind at 1. unfold modify at 1.
      change (ruleURL (storage w2)) with (ruleURL (storage w)).
      rewrite Hrule.
      apply checkResponse_mismatch; assumption.
Qed.

Lemma update_pipeline_witness :
  let T := SpecTools.tools in
  let w := Sample.startup in
  let same := run_getHash T Sample.net_same w in
  let tampered := run_getHash T Sample.net_tampered w in
  (fetched same = [hashURL (storage w)]
   /\ map name (providers same) = ["shop"]
   /\ map (fun p => obj_keys (enabled_rules p)) (providers same)
      = [[wrap_rule "utm_source"]]
   /\ hashStatus (storage same) = Some up_to_date)
  /\ (fetched tampered = [hashURL (storage w); ruleURL (storage w)]
      /\ hashStatus (storage tampered) = Some hash_mismatch).
Proof.
  intros T w same tampered. split.
  - assert (Hnet : Sample.net_same (hashURL (storage w))
                   = Response true "h:{} ") by reflexivity.
    assert (Hne : trim T (HStr "h:{} ") <> EmptyString)
      by (vm_compute; discriminate).
    destruct (update_pipeline T Sample.net_same w Hnet Hne) as [H _].
    destruct H as (Hf & _ & Hbuilt & _); [vm_compute; reflexivity|].
    split; [exact Hf|].
    pose (shop := snd (hd ("shop", MkSpec None None None None None None None
                                     None) Sample.document)).
    let r := eval vm_compute in (provider_of_spec "shop" shop) in
    match r with
    | Ok ?p =>
        destruct (Hbuilt Sample.document [p]) as (Hp & _ & Hs);
        [ reflexivity
        | reflexivity
        | reflexivity
        | simpl; repeat constructor; simpl; intuition
        | let k := eval vm_compute in (own_keys (map fst Sample.document)) in
          change (own_keys (map fst Sample.document)) with k;
          constructor; [|constructor]; exists shop;
          split; [now left|vm_compute; reflexivity]
        | fold same in Hp, Hs; rewrite Hp;
          split; [reflexivity|split; [vm_compute; reflexivity|exact Hs]] ]
    end.
  - assert (Hnet : Sample.net_tampered (hashURL (storage w))
                   = Response true "h:new") by reflexivity.
    assert (Hne : trim T (HStr "h:new") <> EmptyString)
      by (vm_compute; discriminate).
    destruct (update_pipeline T Sample.net_tampered w Hnet Hne) as [_ H].
    destruct H as [Hf Hs]; [vm_compute; discriminate|].
    split; [exact Hf|].
    apply (Hs "{}"); [reflexivity| |]; vm_compute; discriminate.
Defined.

(** ** The second phase of the rule update *)

(** The world after the hash comparison of [checkResponse]. *)
Lemma checkResponse_step (T : Tools) (text : string) (w : World) :
  trim T (HStr text) <> EmptyString ->
  let w1 :=
    if str_eqb (trim T (HStr (sha256 T text))) (trim T (dataHash w))
    then set_storage
           (set_hashStatus (Some updated)
              (set_st_dataHash (HStr (sha256 T text))
                 (set_ClearURLsData (DataText text) (storage w)))) w
    else set_storage (set_hashStatus (Some hash_mismatch) (storage w)) w in
  checkResponse T true text w
  = (parsed <- lift (parse_data T (ClearURLsData (storage w1))) ;;
     modify (fun v => set_storage (set_ClearURLsData parsed (storage v)) v) ;;;
     toObject ;;;
     saveOnDisk ["ClearURLsData"; "dataHash"; "hashStatus"]) w1.
Proof.
  intros Hne w1. subst w1. unfold checkResponse.
  apply str_eqb_neq in Hne. rewrite Hne. cbn [andb negb].
  unfold bind at 1. unfold gets at 1.
  destruct (str_eqb (trim T (HStr (sha256 T text))) (trim T (dataHash w))).
  - unfold bind at 1. unfold bind at 1. unfold modify at 1.
    unfold storeHashStatus at 1. unfold modify at 1.
    unfold bind at 1. unfold gets at 1. reflexivity.
  - unfold bind at 1. unfold storeHashStatus at 1. unfold modify at 1.
    unfold bind at 1. unfold gets at 1. reflexivity.
Qed.

Lemma fetchFromURL_step (T : Tools) (net : Network) (w : World) :
  fetchFromURL T net w
  = match net (ruleURL (storage w)) with
    | Rejected => (Ok tt, call (Fetch (ruleURL (storage w))) w)
    | Response ok text =>
        checkResponse T ok text (call (Fetch (ruleURL (storage w))) w)
    end.
Proof.
  unfold fetchFromURL. unfold bind at 1. unfold gets at 1.
  unfold bind at 1. unfold modify at 1.
  now destruct (net (ruleURL (storage w))).
Qed.

Lemma second_phase (T : Tools) (net : Network) (w : World) (body : string) :
  net (hashURL (storage w)) = Response true body ->
  trim T (HStr body) <> EmptyString ->
  trim T (HStr body) <> trim T (localDataHash w) ->
  let w3 := call (Fetch (ruleURL (storage w)))
              (set_dataHash (HStr body)
                 (call (Fetch (hashURL (storage w))) w)) in
  run_getHash T net w
  = match net (ruleURL (storage w)) with
    | Rejected => w3
    | Response ok text => snd (checkResponse T ok text w3)
    end.
Proof.
  intros Hnet Hne Hdiff w3. unfold run_getHash.
  rewrite (getHash_step T net w Hnet Hne).
  apply str_eqb_neq in Hdiff. rewrite Hdiff. simpl.
  rewrite fetchFromURL_step.
  change (ruleURL (storage (set_dataHash (HStr body)
                              (call (Fetch (hashURL (storage w))) w))))
    with (ruleURL (storage w)).
  now destruct (net (ruleURL (storage w))).
Qed.

Lemma after_parse_preserves {X} (obs : World -> X) :
  (forall v d, obs (set_storage (set_ClearURLsData d (storage v)) v)
               = obs v) ->
  preserves obs toObject ->
  (forall v c, obs (call c v) = obs v) ->
  forall parsed,
    preserves obs
      (modify (fun v => set_storage (set_ClearURLsData parsed (storage v)) v)
       ;;; toObject ;;;
       saveOnDisk ["ClearURLsData"; "dataHash"; "hashStatus"]).
Proof.
  intros Hset Hto Hcall parsed.
  apply preserves_bind; [apply preserves_modify; intros v; apply Hset|].
  intros _. apply preserves_bind; [exact Hto|]. intros _.
  apply preserves_modify. intros v. apply Hcall.
Qed.

(** X18: when the second phase cannot use the download (the fetch fails, or
    the response is not ok, or its body is empty after trimming), the chain
    stops after the two fetches: the storage, with the cached document and
    the recorded status, and the registry are left as they were. *)
Theorem download_failure_changes_nothing (T : Tools) (net : Network)
        (w : World) (body : string) :
  net (hashURL (storage w)) = Response true body ->
  trim T (HStr body) <> EmptyString ->
  trim T (HStr body) <> trim T (localDataHash w) ->
  net (ruleURL (storage w)) = Rejected
  \/ (exists ok text,
        net (ruleURL (storage w)) = Response ok text
        /\ (ok = false \/ trim T (HStr text) = EmptyString)) ->
  run_getHash T net w
  = call (Fetch (ruleURL (storage w)))
         (set_dataHash (HStr body) (call (Fetch (hashURL (storage w))) w)).
Proof.
  intros Hnet Hne Hdiff Hfail.
  rewrite (second_phase T net w Hnet Hne Hdiff).
  destruct Hfail as [-> | (ok & text & -> & Hbad)]; [reflexivity|].
  unfold checkResponse.
  assert (Hc : ok && negb (str_eqb (trim T (HStr text)) EmptyString)
               = false).
  { destruct Hbad as [-> | Ht]; [reflexivity|].
    rewrite Ht, str_eqb_refl. apply andb_false_r. }
  now rewrite Hc.
Qed.

Lemma download_failure_changes_nothing_witness :
  let net : Network :=
    fun u => if str_eqb u "https://rules.example/data.hash"
             then Response true "h:new" else Rejected in
  storage (run_getHash SpecTools.tools net Sample.startup)
  = storage Sample.startup.
Proof.
  intros net.
  rewrite (@download_failure_changes_nothing SpecTools.tools net
             Sample.startup "h:new").
  - reflexivity.
  - reflexivity.
  - vm_compute. discriminate.
  - vm_compute. discriminate.
  - left. reflexivity.
Defined.

Lemma rest_of_checkResponse_storage (T : Tools) (data : datav)
      (w1 : World) :
  let v := snd ((parsed <- lift (parse_data T data) ;;
                 modify (fun v => set_storage
                                    (set_ClearURLsData parsed (storage v)) v)
                 ;;; toObject ;;;
                 saveOnDisk ["ClearURLsData"; "dataHash"; "hashStatus"])
                  w1) in
  hashStatus (storage v) = hashStatus (storage w1)
  /\ st_dataHash (storage v) = st_dataHash (storage w1)
  /\ (forall parsed, parse_data T data = Ok parsed ->
                     ClearURLsData (storage v) = parsed)
  /\ (forall e, parse_data T data = Throw e -> v = w1).
Proof.
  intros v. subst v. unfold bind at 1. unfold lift at 1.
  destruct (parse_data T data) as [parsed|e]; unfold lift;
    cbv beta iota; simpl snd.
  - repeat split; try discriminate.
    + apply (@preserves_apply _ _ (fun v => hashStatus (storage v))).
      apply after_parse_preserves; try reflexivity.
      intros v. now rewrite toObject_preserves_storage.
    + apply (@preserves_apply _ _ (fun v => st_dataHash (storage v))).
      apply after_parse_preserves; try reflexivity.
      intros v. now rewrite toObject_preserves_storage.
    + intros parsed' E. injection E as <-.
      set (w2 := set_storage (set_ClearURLsData parsed (storage w1)) w1).
      change (ClearURLsData
                (storage
                   (snd ((toObject ;;;
                          saveOnDisk ["ClearURLsData"; "dataHash";
                                      "hashStatus"]) w2)))
              = ClearURLsData (storage w2)).
      apply (@preserves_apply _ _ (fun v => ClearURLsData (storage v))).
      apply preserves_bind.
      { intros v. now rewrite toObject_preserves_storage. }
      intros _. now apply preserves_modify.
  - repeat split; discriminate.
Qed.

(** X19: a download whose content hash equals the announced hash is
    accepted: the status becomes updated and the stored hash the content
    hash, and the stored document becomes the parsed download.  If the
    download is not JSON, the chain stops there: the raw text stays in the
    place of the document, the registry is not built and nothing is saved
    on disk. *)
Theorem accepted_download (T : Tools) (net : Network) (w : World)
        (body text : string) :
  net (hashURL (storage w)) = Response true body ->
  trim T (HStr body) <> EmptyString ->
  trim T (HStr body) <> trim T (localDataHash w) ->
  net (ruleURL (storage w)) = Response true text ->
  trim T (HStr text) <> EmptyString ->
  trim T (HStr (sha256 T text)) = trim T (HStr body) ->
  let w' := run_getHash T net w in
  hashStatus (storage w') = Some updated
  /\ st_dataHash (storage w') = HStr (sha256 T text)
  /\ (forall d, JSON_parse T text = Ok d ->
                ClearURLsData (storage w') = DataObj d)
  /\ (forall e, JSON_parse T text = Throw e ->
                ClearURLsData (storage w') = DataText text
                /\ providers w' = providers w
                /\ calls w' = calls w ++ [Fetch (hashURL (storage w));
                                          Fetch (ruleURL (storage w))]).
Proof.
  intros Hnet Hne Hdiff Hrule Hte Hsha w'. subst w'.
  rewrite (second_phase T net w Hnet Hne Hdiff), Hrule.
  rewrite (checkResponse_step T text _ Hte).
  change (dataHash (call _ (set_dataHash (HStr body) _))) with (HStr body).
  apply str_eqb_eq in Hsha. rewrite Hsha.
  match goal with
  | |- context [snd (?m ?w1)] =>
      destruct (rest_of_checkResponse_storage T
                  (ClearURLsData (storage w1)) w1) as (H1 & H2 & H3 & H4)
  end.
  repeat split.
  - rewrite H1. reflexivity.
  - rewrite H2. reflexivity.
  - intros d Hd. apply H3. simpl. now rewrite Hd.
  - rewrite H4 with (e := e); [reflexivity|]. simpl. now rewrite H.
  - rewrite H4 with (e := e); [reflexivity|]. simpl. now rewrite H.
  - rewrite H4 with (e := e); [|simpl; now rewrite H].
    simpl. now rewrite <- app_assoc.
Qed.

(** X20: a download whose content hash differs from the announced hash is
    never stored: the stored hash stays, and the stored document stays the
    cached one.  When the cache already holds the parsed document, the
    chain stops at [JSON.parse]: the registry is not built and nothing is
    saved on disk, only the status hash_mismatch is left in the storage. *)
Theorem rejected_download_is_not_stored (T : Tools) (net : Network)
        (w : World) (body text : string) :
  net (hashURL (storage w)) = Response true body ->
  trim T (HStr body) <> EmptyString ->
  trim T (HStr body) <> trim T (localDataHash w) ->
  net (ruleURL (storage w)) = Response true text ->
  trim T (HStr text) <> EmptyString ->
  trim T (HStr (sha256 T text)) <> trim T (HStr body) ->
  let w' := run_getHash T net w in
  st_dataHash (storage w') = st_dataHash (storage w)
  /\ (forall s d, ClearURLsData (storage w) = DataText s ->
                  JSON_parse T s = Ok d ->
                  ClearURLsData (storage w') = DataObj d)
  /\ (forall d, ClearURLsData (storage w) = DataObj d ->
                storage w'
                = set_hashStatus (Some hash_mismatch) (storage w)
                /\ providers w' = providers w
                /\ calls w' = calls w ++ [Fetch (hashURL (storage w));
                                          Fetch (ruleURL (storage w))]).
Proof.
  intros Hnet Hne Hdiff Hrule Hte Hsha w'. subst w'.
  rewrite (second_phase T net w Hnet Hne Hdiff), Hrule.
  rewrite (checkResponse_step T text _ Hte).
  change (dataHash (call _ (set_dataHash (HStr body) _))) with (HStr body).
  apply str_eqb_neq in Hsha. rewrite Hsha.
  match goal with
  | |- context [snd (?m ?w1)] =>
      destruct (rest_of_checkResponse_storage T
                  (ClearURLsData (storage w1)) w1) as (H1 & H2 & H3 & H4)
  end.
  repeat split.
  - rewrite H2. reflexivity.
  - intros s d Hs Hd. apply H3. simpl. rewrite Hs. simpl. now rewrite Hd.
  - rewrite H4 with (e := SyntaxError); [reflexivity|].
    simpl. now rewrite H.
  - rewrite H4 with (e := SyntaxError); [reflexivity|].
    simpl. now rewrite H.
  - rewrite H4 with (e := SyntaxError); [|simpl; now rewrite H].
    simpl. now rewrite <- app_assoc.
Qed.

Lemma accepted_download_witness :
  let w' := run_getHash SpecTools.tools net_fresh stale_startup in
  hashStatus (storage w') = Some updated
  /\ st_dataHash (storage w') = HStr "h:{}"
  /\ ClearURLsData (storage w') = DataObj [].
Proof.
  intros w'.
  destruct (@accepted_download SpecTools.tools net_fresh stale_startup
              "h:{}" "{}")
    as (H1 & H2 & H3 & _);
    try reflexivity; try (vm_compute; discriminate).
  split; [exact H1|split; [exact H2|]].
  apply H3. reflexivity.
Defined.

Lemma rejected_download_is_not_stored_witness :
  let w' := run_getHash SpecTools.tools Sample.net_tampered Sample.startup in
  storage w'
  = set_hashStatus (Some hash_mismatch) (storage Sample.startup)
  /\ providers w' = [].
Proof.
  intros w'.
  destruct (@rejected_download_is_not_stored SpecTools.tools
              Sample.net_tampered Sample.startup "h:new" "{}")
    as (_ & _ & H);
    try reflexivity; try (vm_compute; discriminate).
  destruct (H Sample.document eq_refl) as (H1 & H2 & _).
  split; assumption.
Defined.

(** ** A document with a URL pattern that does not compile *)

Lemma createProviders_loop_app (data : datav) :
  forall l1 l2 p w,
    createProviders_loop data p (l1 ++ l2) w
    = (createProviders_loop data p l1 ;;;
       createProviders_loop data (p + List.length l1) l2) w.
Proof.
  induction l1 as [|k l1 IH]; intros l2 p w; simpl.
  - rewrite Nat.add_0_r. reflexivity.
  - unfold bind at 1 2 3.
    destruct (createProvider data p k w) as [[[]|e] w1]; [|reflexivity].
    rewrite IH, Nat.add_succ_r. reflexivity.
Qed.

Lemma update_provider_fails (p : nat) (f : Provider -> res Provider)
      (X : list Provider) (w0 : World) (pr : Provider) (e : exn) :
  nth_error X p = Some pr -> f pr = Throw e ->
  update_provider p f (set_providers X w0)
  = (Throw e, set_providers X w0).
Proof.
  intros Hn Hf. unfold update_provider, bind, gets, lift, modify. simpl.
  now rewrite Hn, Hf.
Qed.

Lemma createProvider_fails (provs : RuleSet) (key : string)
      (sp : ProviderSpec) (e : exn) (X : list Provider) (w0 : World) :
  lookup_spec key provs = Some sp ->
  setURLPattern (getOrDefault (sp_urlPattern sp) EmptyString)
    (new_Provider key (getOrDefault (sp_completeProvider sp) false)
                  (getOrDefault (sp_forceRedirection sp) false) true)
  = Throw e ->
  createProvider (DataObj provs) (List.length X) key (set_providers X w0)
  = (Throw e,
     set_providers
       (X ++ [new_Provider key
                (getOrDefault (sp_completeProvider sp) false)
                (getOrDefault (sp_forceRedirection sp) false) true]) w0).
Proof.
  intros Hl Hpat. unfold createProvider. simpl. rewrite Hl.
  unfold bind at 1. unfold modify at 1. simpl providers.
  rewrite set_providers_twice.
  unfold bind at 1.
  erewrite update_provider_fails; [reflexivity| |exact Hpat].
  rewrite nth_error_app2 by lia. now rewrite Nat.sub_diag.
Qed.

(** X21: the registry is not built atomically.  When the URL pattern of an
    entry of the document is rejected by the RegExp constructor with a
    SyntaxError, [toObject] throws there and leaves in the registry the
    providers of the entries listed before it, followed by a provider for
    that entry that has no URL pattern and no rules; the entries after it
    get no provider, and [matchURL] on the unfinished provider throws a
    TypeError for every URL. *)
Theorem toObject_stops_at_bad_pattern (w : World) (d : RuleSet)
        (pre post : list string) (k : string) (sp : ProviderSpec)
        (built : list Provider) :
  providers w = [] -> prvKeys w = [] ->
  ClearURLsData (storage w) = DataObj d ->
  NoDup (map fst d) ->
  own_keys (map fst d) = pre ++ k :: post ->
  Forall2 (fun key p => exists s, In (key, s) d
                                  /\ provider_of_spec key s = Ok p)
          pre built ->
  In (k, sp) d ->
  RegExp (getOrDefault (sp_urlPattern sp) EmptyString) = Throw SyntaxError ->
  let unfinished :=
    new_Provider k (getOrDefault (sp_completeProvider sp) false)
                 (getOrDefault (sp_forceRedirection sp) false) true in
  toObject w
  = (Throw SyntaxError,
     set_providers (built ++ [unfinished])
       (set_prvKeys (own_keys (map fst d)) w))
  /\ forall url, matchURL unfinished url = Throw TypeError.
Proof.
  intros Hps Hks Hd Hnd Hkeys Hbuilt Hk Hbad unfinished.
  split; [|reflexivity].
  destruct (@entries_of_keys d _ _ Hnd Hbuilt) as (entries & Hpre & Hent).
  unfold toObject, createProviders, getKeys.
  unfold bind at 1. unfold gets at 1. rewrite Hd.
  unfold bind at 1. unfold modify at 1. simpl data_providers.
  unfold getOrDefault at 1. rewrite Hks. simpl app.
  unfold bind at 1. unfold gets at 1.
  change (ClearURLsData (storage (set_prvKeys (own_keys (map fst d)) w)))
    with (ClearURLsData (storage w)). rewrite Hd.
  unfold bind at 1. unfold gets at 1. simpl prvKeys.
  set (w0 := set_prvKeys (own_keys (map fst d)) w).
  assert (Hw0 : w0 = set_providers [] w0).
  { unfold w0. destruct w. simpl in *. now subst. }
  rewrite Hw0 at 1.
  rewrite Hkeys, <- Hpre.
  rewrite createProviders_loop_app. unfold bind at 1.
  change 0 with (List.length (@nil Provider)).
  erewrite createProviders_loop_run by exact Hent.
  cbv beta iota. cbn [app createProviders_loop].
  replace (List.length (@nil Provider) + List.length (map fst entries))
    with (List.length built).
  2: { rewrite length_map. simpl.
       clear - Hent. induction Hent; simpl; congruence. }
  unfold bind at 1.
  erewrite createProvider_fails; [reflexivity| |].
  - now apply lookup_spec_NoDup.
  - unfold setURLPattern. now rewrite Hbad.
Qed.

Lemma toObject_stops_at_bad_pattern_witness :
  let bad := MkSpec None None (Some "(") None None None None None in
  let w := set_storage
             (set_ClearURLsData
                (DataObj (Sample.document ++ [("bad", bad); ("late", bad)]))
                (storage Sample.startup)) Sample.startup in
  fst (toObject w) = Throw SyntaxError
  /\ map name (providers (snd (toObject w))) = ["shop"; "bad"].
Proof.
  intros bad w.
  pose (shop := snd (hd ("shop", bad) Sample.document)).
  let r := eval vm_compute in (provider_of_spec "shop" shop) in
  match r with
  | Ok ?p =>
      destruct (@toObject_stops_at_bad_pattern w
                  (Sample.document ++ [("bad", bad); ("late", bad)])
                  ["shop"] ["late"] "bad" bad [p]) as [E _];
      [ reflexivity
      | reflexivity
      | reflexivity
      | repeat constructor; simpl; intuition discriminate
      | vm_compute; reflexivity
      | constructor; [|constructor]; exists shop;
        split; [now left|vm_compute; reflexivity]
      | right; now left
      | vm_compute; reflexivity
      | rewrite E; split; reflexivity ]
  end.
Defined.

(** ** The popup *)

(** X22: a click on the status element always leaves the element showing
    what is stored, and stores the opposite of what was stored (a missing
    value counts as off, so the first click on a fresh installation stores
    [true]); two clicks bring back a stored boolean. *)
Theorem changeStatus_switches (s : Popup.State) :
  Popup.shows_stored (Popup.changeStatus s)
  /\ Popup.stored_globalStatus (Popup.changeStatus s)
     = Some (negb (Popup.truthy (Popup.stored_globalStatus s)))
  /\ forall b, Popup.stored_globalStatus s = Some b ->
               Popup.stored_globalStatus
                 (Popup.changeStatus (Popup.changeStatus s)) = Some b.
Proof.
  destruct s as [[[|]|] c]; repeat split; intros b H;
    simpl in H; try discriminate; injection H as <-; reflexivity.
Qed.

(** X23: when the popup opens, [setStatus] shows what is stored if a
    boolean is stored and leaves it as it is; on a fresh installation it
    stores [true] but the element shows the disabled state, so the two
    disagree until the next click or opening. *)
Theorem setStatus_first_opening (s : Popup.State) :
  (forall b, Popup.stored_globalStatus s = Some b ->
             Popup.stored_globalStatus (Popup.setStatus s) = Some b
             /\ Popup.shows_stored (Popup.setStatus s))
  /\ (Popup.stored_globalStatus s = None ->
      Popup.stored_globalStatus (Popup.setStatus s) = Some true
      /\ Popup.element_class (Popup.setStatus s)
         = Some Popup.statusDisabled
      /\ ~ Popup.shows_stored (Popup.setStatus s)
      /\ Popup.shows_stored (Popup.setStatus (Popup.setStatus s))).
Proof.
  destruct s as [[[|]|] c]; split.
  all: try (intros b H; simpl in H; injection H as <-; split; reflexivity).
  all: try (intros H; simpl in H; discriminate).
  intros _. repeat split. intros H. discriminate H.
Qed.
